(** * Slide-to-Podcast: script segmentation, merging, sequenced synthesis,
      PCM conversion and playback synchronisation

    A shallow embedding of the TypeScript sources

    - [parseScriptToSegments] (src/components/ConfigurationModal.tsx, lines
      838-904) and the look-up of [updateSync] (same file, lines 1089-1109);
    - [decodeAudioData], [concatenateAudioBuffers],
      [generateSingleSpeakerAudio] and [generateSequencedSpeech] of the
      synthesis service (src/unnamed/part_000, lines 22-39, 90-104, 109-177
      and 232-325);
    - [writeString] and [createWavBlob] (src/unnamed/part_000, lines
      41-82);
    - the earlier [parseScriptToSegments] and [updateSync]
      (src/components/ConfigurationModal.tsx, lines 1671-1725 and
      1864-1891) and [getFlagEmoji] (same file, lines 264-273).

    Conventions of the embedding.

    - A JavaScript string is the list of its UTF-16 code units ([str]);
      [lit] builds one from an ASCII literal.
    - A JavaScript number is an exact rational ([Q]) where it is a time or a
      sample, and an integer ([Z]) where it is an index or a page number:
      the rounding of binary64 arithmetic, infinities and NaN are not
      modelled.
      Statements about times are written with the operations the code
      performs, in its order, so that each also reads as a statement about
      the binary64 values; none relies on rearranging sums or cancelling a
      division.
    - The remote provider, [atob], the random number generator and the
      Unicode case table of the regular-expression engine are parameters.
    - The external actions of the synthesis code (requests, pauses, opening
      and closing of audio contexts) are logged in an explicit [World] that
      every operation threads; exceptions are values of [Result]. *)

From Stdlib Require Import Ascii String.
From Stdlib Require Import List Bool Arith NArith ZArith QArith Qround Qabs Lia Lqa.
Import ListNotations.

(* ================================================================= *)
(** ** JavaScript strings *)

Module JsString.

Definition str := list N.

(** An ASCII literal as a list of code units. *)
Definition lit (s : string) : str :=
  map N_of_ascii (list_ascii_of_string s).

(** [WhiteSpace] and [LineTerminator] of ECMAScript: the class [\s] of
    regular expressions and the characters removed by [trim]. *)
Definition isWhiteSpace (c : N) : bool :=
  ((9 <=? c) && (c <=? 13) || (c =? 32) || (c =? 160) || (c =? 5760)
   || (8192 <=? c) && (c <=? 8202) || (c =? 8232) || (c =? 8233)
   || (c =? 8239) || (c =? 8287) || (c =? 12288) || (c =? 65279))%N.

(** The class [\d]. *)
Definition isDigit (c : N) : bool := ((48 <=? c) && (c <=? 57))%N.

Fixpoint dropWhile (p : N -> bool) (s : str) : str :=
  match s with
  | [] => []
  | c :: s' => if p c then dropWhile p s' else s
  end.

Fixpoint takeWhile (p : N -> bool) (s : str) : str :=
  match s with
  | [] => []
  | c :: s' => if p c then c :: takeWhile p s' else []
  end.

Definition trimStart (s : str) : str := dropWhile isWhiteSpace s.

(** [String.prototype.trim]. *)
Definition trim (s : str) : str := rev (trimStart (rev (trimStart s))).

(** [s.split(sep)] for a one-character separator; [cur] holds the current
    piece in reverse. *)
Fixpoint splitChar (sep : N) (cur : str) (s : str) : list str :=
  match s with
  | [] => [rev cur]
  | c :: s' =>
      if (c =? sep)%N then rev cur :: splitChar sep [] s'
      else splitChar sep (c :: cur) s'
  end.

Definition split (sep : N) (s : str) : list str := splitChar sep [] s.

(** Consumes the literal [pat] at the start of [s], comparing code units
    with [eq]; returns what follows. *)
Fixpoint eat (eq : N -> N -> bool) (pat s : str) : option str :=
  match pat with
  | [] => Some s
  | p :: pat' =>
      match s with
      | [] => None
      | c :: s' => if eq p c then eat eq pat' s' else None
      end
  end.

(** [hay.includes(needle)]. *)
Fixpoint includes (needle hay : str) : bool :=
  match eat N.eqb needle hay with
  | Some _ => true
  | None =>
      match hay with
      | [] => false
      | _ :: hay' => includes needle hay'
      end
  end.

(** [s.substring(0, n)]. *)
Definition substring0 (n : nat) (s : str) : str := firstn n s.

(** [parseInt(s, 10)] on a string of decimal digits, as the exact
    integer: the value the code computes for page numbers below 2^53,
    beyond which a JavaScript number no longer holds every integer. *)
Definition parseInt (s : str) : Z :=
  fold_left (fun acc c => (acc * 10 + (Z.of_N c - 48))%Z) s 0%Z.

End JsString.
Import JsString.

(* ================================================================= *)
(** ** JavaScript numbers *)

Module JsNumber.

(** [a < b] *)
Definition Qlt_bool (a b : Q) : bool := negb (Qle_bool b a).

(** [Math.min(a, b)] and [Math.max(a, b)] *)
Definition Qmin (a b : Q) : Q := if Qle_bool a b then a else b.
Definition Qmax (a b : Q) : Q := if Qle_bool a b then b else a.

End JsNumber.
Import JsNumber.

(* ================================================================= *)
(** ** Data model (the [ScriptSegment] interface) *)

Inductive Speaker := Host | Expert.

Definition Speaker_eqb (a b : Speaker) : bool :=
  match a, b with
  | Host, Host | Expert, Expert => true
  | _, _ => false
  end.

Record ScriptSegment := mkSegment {
  id : str;
  slideIndex : Z;
  speaker : Speaker;
  text : str;
  startTime : Q;
  endTime : Q
}.

(* ================================================================= *)
(** ** Script Segmenter ([parseScriptToSegments]) *)

Module Segmenter.

(** [Canonicalize] of a case-insensitive, non-Unicode regular expression.
    [upperNonAscii] is the engine's upper-case mapping of the code units
    from 128 on (the identity where the mapping is not a single code
    unit); a result below 128 is discarded, as ECMAScript prescribes. *)
Definition asciiUpper (c : N) : N :=
  if ((97 <=? c) && (c <=? 122))%N then (c - 32)%N else c.

Definition canonicalize (upperNonAscii : N -> N) (c : N) : N :=
  if (c <? 128)%N then asciiUpper c
  else let u := upperNonAscii c in if (u <? 128)%N then c else u.

Definition ciEq (upperNonAscii : N -> N) (a b : N) : bool :=
  (canonicalize upperNonAscii a =? canonicalize upperNonAscii b)%N.

(** A greedy optional literal [(?:pat)?] followed by the continuation [k]:
    first with the literal consumed, then, on failure, without. *)
Definition optThen {A} (eq : N -> N -> bool) (pat : str)
           (k : str -> option A) (s : str) : option A :=
  match eat eq pat s with
  | Some r => match k r with Some x => Some x | None => k s end
  | None => k s
  end.

(** An alternation [(?:a|b)] followed by the continuation [k]. *)
Definition altThen {A} (eq : N -> N -> bool) (a b : str)
           (k : str -> option A) (s : str) : option A :=
  match (match eat eq a s with Some r => k r | None => None end) with
  | Some x => Some x
  | None => match eat eq b s with Some r => k r | None => None end
  end.

Section Parse.

Variable upperNonAscii : N -> N.
(** [randomId n]: the value of
    [Math.random().toString(36).substr(2, 9)] at its [n]-th evaluation. *)
Variable randomId : nat -> str.

Let eqi := ciEq upperNonAscii.

(** The slide marker matched at the start of [s]: an opening bracket, an
    optional pair of stars, the word SLIDE in any case, white space, the
    captured digits, an optional pair of stars and a closing bracket.
    Returns the captured digits and the length of the match. *)
Definition matchMarker (s : str) : option (str * nat) :=
  match eat eqi (lit "[") s with
  | None => None
  | Some s1 =>
      optThen eqi (lit "**")
        (fun s2 =>
           match eat eqi (lit "SLIDE") s2 with
           | None => None
           | Some s3 =>
               match s3 with
               | c :: _ =>
                   if isWhiteSpace c then
                     let s4 := dropWhile isWhiteSpace s3 in
                     let digits := takeWhile isDigit s4 in
                     match digits with
                     | [] => None
                     | _ :: _ =>
                         optThen eqi (lit "**")
                           (fun s6 =>
                              match eat eqi (lit "]") s6 with
                              | Some s7 =>
                                  Some (digits,
                                        (length s - length s7)%nat)
                              | None => None
                              end)
                           (dropWhile isDigit s4)
                     end
                   else None
               | [] => None
               end
           end)
        s1
  end.

(** [fullText.split(marker)]: the pieces of text between the markers,
    each marker contributing its captured digits.  [skip] counts the
    code units of the current match still to pass over; [cur] is the
    current piece in reverse. *)
Fixpoint splitSlides (skip : nat) (cur : str) (s : str) : list str :=
  match s with
  | [] => [rev cur]
  | c :: s' =>
      match skip with
      | S k => splitSlides k cur s'
      | O =>
          match matchMarker s with
          | Some (digits, len) =>
              rev cur :: digits :: splitSlides (len - 1) [] s'
          | None => splitSlides 0 (c :: cur) s'
          end
      end
  end.

(** The colon class of the label patterns: ASCII and full-width. *)
Definition eatColon (s : str) : option str :=
  match s with
  | c :: s' =>
      if eqi 58%N c || eqi 65306%N c then Some s' else None
  | [] => None
  end.

(** The label pattern of [hostRegex] and [expertRegex], anchored at the
    start of [s]: an optional pair of stars, the role [keyword] or the
    escaped display [name], an optional pair of stars, a colon; all in
    any case.  Since [escapeRegExp] escapes every syntax character,
    [name] is matched literally.  Returns the text after the match,
    which is what [replace] with the empty string leaves. *)
Definition matchLabel (keyword name : str) (s : str) : option str :=
  optThen eqi (lit "**")
    (altThen eqi keyword name (optThen eqi (lit "**") eatColon))
    s.

(** The sentence terminators of the look-behind of the sentence pattern:
    the ideographic full stop, the full-width exclamation and question
    marks, and their ASCII counterparts. *)
Definition isTerminator (c : N) : bool :=
  ((c =? 12290) || (c =? 65281) || (c =? 65311)
   || (c =? 46) || (c =? 33) || (c =? 63))%N.

(** [content.split] on white space that follows a terminator.  [inMatch] holds while the
    white space of a match is passed over; [prev] tells whether the
    preceding code unit is a terminator. *)
Fixpoint splitSentences (inMatch prev : bool) (cur : str) (s : str)
  : list str :=
  match s with
  | [] => [rev cur]
  | c :: s' =>
      if inMatch && isWhiteSpace c then splitSentences true false cur s'
      else if prev && isWhiteSpace c then
             rev cur :: splitSentences true false [] s'
           else splitSentences false (isTerminator c) (c :: cur) s'
  end.

(** The loop state of [parseScriptToSegments]. *)
Record PState := mkPState {
  segments : list ScriptSegment;
  runningTime : Q;
  currentSlideIndex : Z;
  currentSpeaker : option Speaker
}.

Definition CHARS_PER_SEC : Z := 15.

(** The body of [for (const sentence of rawSentences)]. *)
Definition pushSentence (who : Speaker) (st : PState) (sentence : str)
  : PState :=
  let cleanSentence := trim sentence in
  match cleanSentence with
  | [] => st
  | _ :: _ =>
      let duration :=
        Qmax (3 # 2)
             (inject_Z (Z.of_nat (length cleanSentence))
              / inject_Z CHARS_PER_SEC) in
      mkPState
        (segments st ++
           [ {| id := randomId (length (segments st));
                slideIndex := currentSlideIndex st;
                speaker := who;
                text := cleanSentence;
                startTime := runningTime st;
                endTime := runningTime st + duration |} ])
        (runningTime st + duration)
        (currentSlideIndex st)
        (currentSpeaker st)
  end.

Variables hostName expertName : str.

(** The body of [for (const line of lines)]. *)
Definition processLine (st : PState) (line : str) : PState :=
  let trimmed := trim line in
  match trimmed with
  | [] => st
  | _ :: _ =>
      let '(who, content) :=
        match matchLabel (lit "Host") hostName trimmed with
        | Some rest => (Some Host, trim rest)
        | None =>
            match matchLabel (lit "Expert") expertName trimmed with
            | Some rest => (Some Expert, trim rest)
            | None => (currentSpeaker st, trimmed)
            end
        end in
      let st1 := mkPState (segments st) (runningTime st)
                          (currentSlideIndex st) who in
      match who, content with
      | Some sp, _ :: _ =>
          fold_left (pushSentence sp)
                    (splitSentences false false [] content) st1
      | _, _ => st1
      end
  end.

(** The test of a block against the all-digits pattern. *)
Definition isPageNumber (block : str) : bool :=
  match block with
  | [] => false
  | _ :: _ => forallb isDigit block
  end.

(** The body of [for (let i = 0; i < slideBlocks.length; i++)]. *)
Definition processBlock (st : PState) (block : str) : PState :=
  if isPageNumber block then
    let pageNum := parseInt block in
    mkPState (segments st) (runningTime st)
             (Z.max 0 (pageNum - 1)) (currentSpeaker st)
  else fold_left processLine (split 10 block) st.

Definition initial : PState := mkPState [] 0 0 None.

Definition slideBlocks (fullText : str) : list str :=
  splitSlides 0 [] fullText.

Definition parseScriptToSegments (fullText : str) : list ScriptSegment :=
  segments (fold_left processBlock (slideBlocks fullText) initial).

End Parse.

End Segmenter.

(* ================================================================= *)
(** ** Segment Merger (step 1 of [generateSequencedSpeech]) *)

Module Merger.

(** [next.speaker === current.speaker && next.slideIndex === current.slideIndex] *)
Definition sameRun (next current : ScriptSegment) : bool :=
  Speaker_eqb (speaker next) (speaker current)
  && (slideIndex next =? slideIndex current)%Z.

(** [current.text += " " + next.text] *)
Definition appendText (current next : ScriptSegment) : ScriptSegment :=
  {| id := id current;
     slideIndex := slideIndex current;
     speaker := speaker current;
     text := text current ++ lit " " ++ text next;
     startTime := startTime current;
     endTime := endTime current |}.

(** The [for] loop over [rawSegments[1..]] with its running [current],
    followed by the final [push]. *)
Fixpoint mergeLoop (current : ScriptSegment) (rest : list ScriptSegment)
  : list ScriptSegment :=
  match rest with
  | [] => [current]
  | next :: rest' =>
      if sameRun next current then mergeLoop (appendText current next) rest'
      else current :: mergeLoop next rest'
  end.

Definition mergeSegments (rawSegments : list ScriptSegment)
  : list ScriptSegment :=
  match rawSegments with
  | [] => []
  | first :: rest => mergeLoop first rest
  end.

End Merger.

(* ================================================================= *)
(** ** Playback Synchronizer (the look-up of [updateSync]) *)

Module Synchronizer.

(** [Array.prototype.findIndex]: the first index whose element satisfies
    [p], or [-1]. *)
Fixpoint findIndexFrom {A} (p : A -> bool) (i : Z) (l : list A) : Z :=
  match l with
  | [] => (-1)%Z
  | x :: l' => if p x then i else findIndexFrom p (i + 1) l'
  end.

Definition findIndex {A} (p : A -> bool) (l : list A) : Z :=
  findIndexFrom p 0 l.

(** [seg => t >= seg.startTime && t < seg.endTime] *)
Definition covers (t : Q) (seg : ScriptSegment) : bool :=
  Qle_bool (startTime seg) t && Qlt_bool t (endTime seg).

(** The pair handed to [setActiveSegmentIndex] and [setActiveSlideIndex],
    or [None] when neither branch of [updateSync] calls them. *)
Definition resolveActive (segments : list ScriptSegment) (t : Q)
  : option (Z * Z) :=
  let foundIndex := findIndex (covers t) segments in
  if negb (foundIndex =? -1)%Z then
    match nth_error segments (Z.to_nat foundIndex) with
    | Some seg => Some (foundIndex, slideIndex seg)
    | None => None
    end
  else if (0 <? length segments)%nat then
    match nth_error segments (length segments - 1) with
    | Some lastSeg =>
        if Qle_bool (endTime lastSeg) t
        then Some ((Z.of_nat (length segments) - 1)%Z, slideIndex lastSeg)
        else None
    | None => None
    end
  else None.

Record SyncState := mkSync {
  activeSegmentIndex : Z;
  activeSlideIndex : Z
}.

(** One frame of [updateSync] at playback time [t]. *)
Definition updateSync (segments : list ScriptSegment) (t : Q)
           (st : SyncState) : SyncState :=
  match resolveActive segments t with
  | Some (i, slide) => mkSync i slide
  | None => st
  end.

End Synchronizer.

(* ================================================================= *)
(** ** Effects: the log of external actions, exceptions, and their monad *)

Module Effects.

(** What the provider's client library throws: the fields the retry
    policy inspects, and the text that [JSON.stringify] gives for it. *)
Record ApiError := mkApiError {
  status : option Z;
  code : option Z;
  json : str
}.

(** A thrown value: an error of the provider, or an [Error] object
    created by this code or by the platform, with its message.
    [Diverged] is raised by the model alone, when the fuel of the retry
    loop runs out. *)
Inductive Exn :=
| ApiFailure (e : ApiError)
| JsError (message : str)
| Diverged.

Inductive Result (A : Type) :=
| Ok (a : A)
| Throw (e : Exn).
Arguments Ok {A} a.
Arguments Throw {A} e.

Inductive Event :=
| EvRequest (prompt voice : str)
| EvSleep (ms : Q)
| EvContextOpen
| EvContextClose.

(** The log of external actions, oldest first. *)
Definition World := list Event.

Definition isRequest (e : Event) : bool :=
  match e with EvRequest _ _ => true | _ => false end.

Definition countRequests (w : World) : nat :=
  length (filter isRequest w).

Definition M (A : Type) : Type := World -> Result A * World.

Definition ret {A} (a : A) : M A := fun w => (Ok a, w).
Definition throw {A} (e : Exn) : M A := fun w => (Throw e, w).
Definition emit (e : Event) : M unit := fun w => (Ok tt, w ++ [e]).

Definition bind {A B} (c : M A) (k : A -> M B) : M B :=
  fun w =>
    match c w with
    | (Ok a, w1) => k a w1
    | (Throw e, w1) => (Throw e, w1)
    end.

(** [try { c } finally { f }] *)
Definition tryFinally {A} (c : M A) (f : M unit) : M A :=
  fun w =>
    let '(r, w1) := c w in
    match f w1 with
    | (Ok _, w2) => (r, w2)
    | (Throw e, w2) => (Throw e, w2)
    end.

Definition sleep (ms : Q) : M unit := emit (EvSleep ms).

End Effects.
Import Effects.

Declare Scope effect_scope.
Delimit Scope effect_scope with eff.
Notation "x <- c ;; k" := (bind c (fun x => k))
  (at level 61, c at next level, right associativity) : effect_scope.
Notation "c ;;; k" := (bind c (fun _ => k))
  (at level 61, right associativity) : effect_scope.

(* ================================================================= *)
(** ** PCM codec ([decodeAudioData] and the conversion loop of
       [generateSequencedSpeech]) *)

Module Pcm.

Record AudioBuffer := mkBuffer {
  channelData : list Q;
  sampleRate : Z
}.

(** [buffer.length] and [buffer.duration] *)
Definition frames (b : AudioBuffer) : nat := length (channelData b).
Definition duration (b : AudioBuffer) : Q :=
  inject_Z (Z.of_nat (frames b)) / inject_Z (sampleRate b).

(** The conversion of a number to a 16-bit signed integer that a store
    into an [Int16Array] performs: truncation, then wrap-around. *)
Definition truncate (v : Q) : Z := Z.quot (Qnum v) (Zpos (Qden v)).
Definition wrap16 (z : Z) : Z := ((z + 32768) mod 65536 - 32768)%Z.
Definition toInt16 (v : Q) : Z := wrap16 (truncate v).

(** [Math.max(-1, Math.min(1, x))] *)
Definition clamp (x : Q) : Q := Qmax (-1) (Qmin 1 x).

(** One iteration of the float to 16-bit PCM loop:
    [rawData[i] = s < 0 ? s * 0x8000 : s * 0x7FFF]. *)
Definition encodeSample (x : Q) : Z :=
  let s := clamp x in
  toInt16 (if Qlt_bool s 0 then s * 32768 else s * 32767).

(** One iteration of [decodeAudioData]: [dataInt16[i] / 32768.0]. *)
Definition decodeSample (n : Z) : Q := inject_Z n / 32768.

(** The little-endian [Int16Array] view of a byte sequence; [None] where
    the constructor throws (odd byte length). *)
Fixpoint int16View (data : list N) : option (list Z) :=
  match data with
  | [] => Some []
  | [_] => None
  | lo :: hi :: data' =>
      match int16View data' with
      | Some l => Some (wrap16 (Z.of_N lo + 256 * Z.of_N hi) :: l)
      | None => None
      end
  end.

(** The bytes of an [Int16Array], as [new Uint8Array(rawData.buffer)]. *)
Definition int16Bytes (l : list Z) : list N :=
  flat_map (fun z => [Z.to_N (z mod 256); Z.to_N ((z / 256) mod 256)]) l.

Definition encode (samples : list Q) : list Z := map encodeSample samples.
Definition decode (ints : list Z) : list Q := map decodeSample ints.

(** [decodeAudioData(data, ctx, 24000, 1)].  The [Int16Array] constructor
    throws on an odd byte length, and [createBuffer] on a length of zero
    frames. *)
Definition decodeAudioData (data : list N) : Result AudioBuffer :=
  match int16View data with
  | None => Throw (JsError (lit "RangeError"))
  | Some dataInt16 =>
      match dataInt16 with
      | [] => Throw (JsError (lit "NotSupportedError"))
      | _ :: _ => Ok (mkBuffer (decode dataInt16) 24000)
      end
  end.

(** [concatenateAudioBuffers] *)
Definition concatenateAudioBuffers (buffers : list AudioBuffer)
  : AudioBuffer :=
  mkBuffer (flat_map channelData buffers) 24000.

End Pcm.

(* ================================================================= *)
(** ** Synthesis Client and Sequencer *)

Module Synthesis.

Import Pcm.

Record GeneratedAudio := mkAudio {
  buffer : AudioBuffer;
  rawData : list N
}.

(** The provider's answer to one [generateContent] call: the inline data
    and the text of the first part of the first candidate, or a thrown
    error. *)
Inductive Response :=
| Candidate (data textPart : option str)
| Failure (e : ApiError).

Definition exnStatus (error : Exn) : option Z :=
  match error with ApiFailure e => status e | _ => None end.
Definition exnCode (error : Exn) : option Z :=
  match error with ApiFailure e => code e | _ => None end.
(** [JSON.stringify(error)]: an [Error] object has no enumerable
    property of its own. *)
Definition exnJson (error : Exn) : str :=
  match error with ApiFailure e => json e | _ => lit "{}" end.

Definition isNumber (n : Z) (v : option Z) : bool :=
  match v with Some m => (m =? n)%Z | None => false end.

Definition isRateLimit (error : Exn) : bool :=
  let errorMessage := exnJson error in
  isNumber 429 (exnStatus error)
  || isNumber 429 (exnCode error)
  || includes (lit "RESOURCE_EXHAUSTED") errorMessage
  || includes (lit "429") errorMessage
  || includes (lit "quota") errorMessage.

Definition isServerBusy (error : Exn) : bool :=
  isNumber 503 (exnStatus error) || isNumber 500 (exnStatus error).

Definition maxRetries : nat := 10.

Definition quoted (s : str) : str := [34%N] ++ s ++ [34%N].

(** The directive wrapped around the text of a request. *)
Definition promptFor (text : str) : str :=
  lit "Please read the following text exactly as written: " ++ quoted text.

Section Client.

(** [provider n prompt voice]: the answer to the request issued after
    [n] earlier requests. *)
Variable provider : nat -> str -> str -> Response.
(** [atob]; [None] where it throws. *)
Variable atob : str -> option (list N).
(** [Math.random()], indexed by the length of the log. *)
Variable random : nat -> Q.

(** The body of the [try] block of [generateSingleSpeakerAudio]. *)
Definition requestOnce (text voiceName : str) : M GeneratedAudio :=
  fun w =>
    let promptText := promptFor text in
    let w1 := w ++ [EvRequest promptText voiceName] in
    match provider (countRequests w) promptText voiceName with
    | Failure e => (Throw (ApiFailure e), w1)
    | Candidate base64Audio textPart =>
        match base64Audio with
        | Some ((_ :: _) as b64) =>
            tryFinally
              (match atob b64 with
               | None => throw (JsError (lit "InvalidCharacterError"))
               | Some audioBytes =>
                   match decodeAudioData audioBytes with
                   | Ok audioBuffer =>
                       ret (mkAudio audioBuffer audioBytes)
                   | Throw e => throw e
                   end
               end)
              (emit EvContextClose)
              (w1 ++ [EvContextOpen])
        | _ =>
            match textPart with
            | Some ((_ :: _) as t) =>
                (Throw (JsError
                          (lit "Model returned text instead of audio: "
                           ++ quoted (substring0 50 t ++ lit "..."))),
                 w1)
            | _ =>
                (Throw (JsError (lit "No audio data returned from API.")),
                 w1)
            end
        end
    end.

(** The [while (true)] loop of [generateSingleSpeakerAudio]; [attempt]
    is the counter of the source, [fuel] bounds the iterations. *)
Fixpoint attemptLoop (fuel : nat) (text voiceName : str) (attempt : nat)
  : M GeneratedAudio :=
  match fuel with
  | O => throw Diverged
  | S fuel' =>
      fun w =>
        match requestOnce text voiceName w with
        | (Ok audio, w1) => (Ok audio, w1)
        | (Throw error, w1) =>
            let attempt := S attempt in
            if (isRateLimit error || isServerBusy error)
               && (attempt <=? maxRetries)%nat
            then
              let delay :=
                inject_Z (2 ^ Z.of_nat attempt) * 1000
                + random (length w1) * 1000 in
              attemptLoop fuel' text voiceName attempt
                          (w1 ++ [EvSleep delay])
            else (Throw error, w1)
        end
  end.

Definition generateSingleSpeakerAudio (fuel : nat)
           (text voiceName : str) : M GeneratedAudio :=
  attemptLoop fuel text voiceName 0.

(** The mutable locals of [generateSequencedSpeech]. *)
Record SeqState := mkSeq {
  audioBuffers : list AudioBuffer;
  finalSegments : list ScriptSegment;
  currentOffset : Q
}.

(** [{...segment, startTime, endTime}] *)
Definition stamp (segment : ScriptSegment) (from to : Q)
  : ScriptSegment :=
  {| id := id segment;
     slideIndex := slideIndex segment;
     speaker := speaker segment;
     text := text segment;
     startTime := from;
     endTime := to |}.

(** The loop [for (const segment of mergedSegments)]. *)
Fixpoint synthesizeAll (fuel : nat) (hostVoice expertVoice : str)
         (mergedSegments : list ScriptSegment) (st : SeqState)
  : M SeqState :=
  match mergedSegments with
  | [] => ret st
  | segment :: more =>
      match trim (text segment) with
      | [] => synthesizeAll fuel hostVoice expertVoice more st
      | (_ :: _) as text =>
          let voiceName :=
            match speaker segment with
            | Host => hostVoice
            | Expert => expertVoice
            end in
          ((match audioBuffers st with
            | [] => ret tt
            | _ :: _ => sleep 1000
            end) ;;;
           audioResult <- generateSingleSpeakerAudio fuel text voiceName ;;
           let duration := Pcm.duration (buffer audioResult) in
           synthesizeAll fuel hostVoice expertVoice more
             (mkSeq (audioBuffers st ++ [buffer audioResult])
                    (finalSegments st ++
                       [stamp segment (currentOffset st)
                              (currentOffset st + duration)])
                    (currentOffset st + duration)))%eff
      end
  end.

Definition generateSequencedSpeech (fuel : nat)
           (rawSegments : list ScriptSegment)
           (hostVoice expertVoice : str)
  : M (GeneratedAudio * list ScriptSegment) :=
  let mergedSegments := Merger.mergeSegments rawSegments in
  (emit EvContextOpen ;;;
   tryFinally
     (st <- synthesizeAll fuel hostVoice expertVoice mergedSegments
                          (mkSeq [] [] 0) ;;
      match audioBuffers st with
      | [] => throw (JsError (lit "No audio generated."))
      | _ :: _ =>
          let combinedBuffer := concatenateAudioBuffers (audioBuffers st) in
          let rawData := encode (channelData combinedBuffer) in
          ret (mkAudio combinedBuffer (int16Bytes rawData),
               finalSegments st)
      end)
     (emit EvContextClose))%eff.

End Client.

End Synthesis.

(* ================================================================= *)
(** ** Properties of segment lists *)

(** Times start at 0 and every segment ends where the next one starts. *)
Definition Contiguous (l : list ScriptSegment) : Prop :=
  (forall s, nth_error l 0 = Some s -> startTime s == 0) /\
  (forall i a b,
      nth_error l i = Some a -> nth_error l (S i) = Some b ->
      endTime a == startTime b).

(** Every segment ends strictly after it starts. *)
Definition PositiveDurations (l : list ScriptSegment) : Prop :=
  forall i a, nth_error l i = Some a -> startTime a < endTime a.

(** The slide index never decreases along the list. *)
Definition SlideIndexMonotone (l : list ScriptSegment) : Prop :=
  forall i a b,
    nth_error l i = Some a -> nth_error l (S i) = Some b ->
    (slideIndex a <= slideIndex b)%Z.

(** A timeline that starts at [t0], by recursion on the list. *)
Fixpoint Chain (t0 : Q) (l : list ScriptSegment) : Prop :=
  match l with
  | [] => True
  | s :: l' => startTime s == t0 /\ startTime s < endTime s
               /\ Chain (endTime s) l'
  end.

(** No two neighbours of the list belong to the same run. *)
Fixpoint NoAdjacentRun (l : list ScriptSegment) : Prop :=
  match l with
  | a :: (b :: _) as l' => Merger.sameRun b a = false /\ NoAdjacentRun l'
  | _ => True
  end.

(** Where a timeline that starts at [t0] ends. *)
Fixpoint chainEnd (t0 : Q) (l : list ScriptSegment) : Q :=
  match l with
  | [] => t0
  | s :: l' => chainEnd (endTime s) l'
  end.

(** A list of integers that never decreases. *)
Definition NonDecreasing (l : list Z) : Prop :=
  forall i a b,
    nth_error l i = Some a -> nth_error l (S i) = Some b -> (a <= b)%Z.

(** The page numbers the Segmenter reads from the pieces of a script, in
    order: the blocks that consist of digits only. *)
Definition pageNumbers (blocks : list str) : list Z :=
  map parseInt (filter Segmenter.isPageNumber blocks).

(** Invariants of the Segmenter's loop state: the segments built so far
    form a timeline from 0 that ends at the running time; their slide
    indices never decrease and stay at or below the current slide index,
    which is [c]. *)
Definition timed (st : Segmenter.PState) : Prop :=
  Chain 0 (Segmenter.segments st)
  /\ chainEnd 0 (Segmenter.segments st) = Segmenter.runningTime st.

Definition ordered (c : Z) (st : Segmenter.PState) : Prop :=
  Segmenter.currentSlideIndex st = c
  /\ SlideIndexMonotone (Segmenter.segments st)
  /\ forall i a, nth_error (Segmenter.segments st) i = Some a ->
                 (slideIndex a <= c)%Z.

(** The fields of a segment that the concrete scenarios compare. *)
Definition content (s : ScriptSegment) : Z * Speaker * str :=
  (slideIndex s, speaker s, text s).

Definition newline : str := [10%N].

(** The script of the concrete scenario. *)
Definition demoScript : str :=
  lit "[SLIDE 1]" ++ newline ++ lit "Host: Hello. Welcome." ++ newline
  ++ lit "Expert: Hi there." ++ newline ++ lit "[SLIDE 2]" ++ newline
  ++ lit "Host: Let's continue.".

(** A script whose markers go back from page 2 to page 1. *)
Definition backwardScript : str :=
  lit "[SLIDE 2]" ++ newline ++ lit "Host: Second." ++ newline
  ++ lit "[SLIDE 1]" ++ newline ++ lit "Host: First.".

(** Parameters for the concrete runs: no case folding beyond ASCII, and a
    constant identifier. *)
Definition noFolding (c : N) : N := c.
Definition constantId (n : nat) : str := lit "id".

(** The identity, slide, speaker and text of a segment: all but its times. *)
Definition untimed (s : ScriptSegment) : str * Z * Speaker * str :=
  (id s, slideIndex s, speaker s, text s).

(** A unit the Sequencer sends to the provider: its text is not blank. *)
Definition spoken (s : ScriptSegment) : bool :=
  match trim (text s) with [] => false | _ :: _ => true end.

(** The segments are stamped, from time [t] on, with the durations of the
    buffers, one buffer for each segment. *)
Fixpoint StampedFrom (t : Q) (segs : list ScriptSegment)
         (bufs : list Pcm.AudioBuffer) : Prop :=
  match segs, bufs with
  | [], [] => True
  | s :: segs', b :: bufs' =>
      startTime s = t /\ endTime s = t + Pcm.duration b
      /\ StampedFrom (t + Pcm.duration b) segs' bufs'
  | _, _ => False
  end.

(** A response that the retry policy classifies as transient. *)
Definition transient (r : Synthesis.Response) : bool :=
  match r with
  | Synthesis.Failure e =>
      Synthesis.isRateLimit (ApiFailure e)
      || Synthesis.isServerBusy (ApiFailure e)
  | Synthesis.Candidate _ _ => false
  end.

(** The audio that a response carries, if it carries a payload that
    decodes. *)
Definition audioOf (atob : str -> option (list N)) (r : Synthesis.Response)
  : option Synthesis.GeneratedAudio :=
  match r with
  | Synthesis.Candidate (Some ((_ :: _) as b64)) _ =>
      match atob b64 with
      | Some audioBytes =>
          match Pcm.decodeAudioData audioBytes with
          | Ok audioBuffer => Some (Synthesis.mkAudio audioBuffer audioBytes)
          | Throw _ => None
          end
      | None => None
      end
  | _ => None
  end.

(** A response without an audio payload. *)
Definition noAudio (r : Synthesis.Response) : bool :=
  match r with
  | Synthesis.Candidate (Some (_ :: _)) _ => false
  | Synthesis.Candidate _ _ => true
  | Synthesis.Failure _ => false
  end.

(** The message of the error that a response without audio is turned
    into: for a response with text, the first 50 code units of the text
    followed by three dots, all between double quotes (code unit 34),
    after the fixed prefix. *)
Definition noAudioMessage (r : Synthesis.Response) : str :=
  match r with
  | Synthesis.Candidate _ (Some ((_ :: _) as t)) =>
      lit "Model returned text instead of audio: "
      ++ [34%N] ++ firstn 50 t ++ lit "..." ++ [34%N]
  | _ => lit "No audio data returned from API."
  end.

(** Simulated collaborators for the concrete runs: a provider that always
    answers with two samples of audio, one that first fails [k] times with
    status 429, a decoder of payloads that are their own bytes, and a
    random source that always returns 0. *)
Definition twoSamples : str := [0; 64; 0; 192]%N.

Definition steadyProvider (n : nat) (prompt voice : str) : Synthesis.Response :=
  Synthesis.Candidate (Some twoSamples) None.

Definition rateLimited : ApiError :=
  mkApiError (Some 429%Z) None (lit "{}").

Definition flakyProvider (k : nat) (n : nat) (prompt voice : str)
  : Synthesis.Response :=
  if (n <? k)%nat then Synthesis.Failure rateLimited
  else Synthesis.Candidate (Some twoSamples) None.

Definition plainAtob (s : str) : option (list N) := Some s.
Definition noJitter (n : nat) : Q := 0.

(** A provider that answers with text and no audio, and a segment list
    whose only segment is blank. *)
Definition textProvider (n : nat) (prompt voice : str) : Synthesis.Response :=
  Synthesis.Candidate None (Some (lit "Sure, here it is.")).

Definition blankSegments : list ScriptSegment :=
  [ mkSegment (lit "a") 0 Host (lit "  ") 0 (3 # 2) ].

(** The segments of the concrete scenario. *)
Definition demoSegments : list ScriptSegment :=
  Segmenter.parseScriptToSegments noFolding constantId
                                  (lit "Host") (lit "Expert") demoScript.

(* ================================================================= *)
(** ** WAV container ([writeString] and [createWavBlob],
       src/unnamed/part_000, lines 41-82) *)

Module Wav.

(** The low byte of an integer, as a store through [setUint8] keeps it. *)
Definition byte (v : Z) : N := Z.to_N (v mod 256).

(** The bytes that [setUint16] and [setUint32] store for a value when the
    little-endian flag is set; the value is taken modulo the width. *)
Definition uint16LE (v : Z) : list N := [byte v; byte (v / 256)].
Definition uint32LE (v : Z) : list N :=
  [byte v; byte (v / 256); byte (v / 65536); byte (v / 16777216)].

(** Overwrites the bytes of [view] from [offset] on with [bytes].  Every
    write of [createWavBlob] falls inside the buffer, where a [DataView]
    does not throw. *)
Fixpoint setBytes (offset : nat) (bytes : list N) (view : list N) : list N :=
  match view with
  | [] => []
  | b :: view' =>
      match offset with
      | S o => b :: setBytes o bytes view'
      | O =>
          match bytes with
          | [] => view
          | x :: bytes' => x :: setBytes 0 bytes' view'
          end
      end
  end.

(** [writeString(view, offset, string)]: one [setUint8] for each code
    unit. *)
Definition writeString (offset : nat) (string : str) (view : list N)
  : list N :=
  setBytes offset (map (fun c => byte (Z.of_N c)) string) view.

Definition setUint32 (offset : nat) (value : Z) (view : list N) : list N :=
  setBytes offset (uint32LE value) view.

Definition setUint16 (offset : nat) (value : Z) (view : list N) : list N :=
  setBytes offset (uint16LE value) view.

(** [createWavBlob(samples, sampleRate)]: the bytes of the blob. *)
Definition createWavBlob (samples : list N) (sampleRate : Z) : list N :=
  let buffer := repeat 0%N (44 + length samples) in
  let view := writeString 0 (lit "RIFF") buffer in
  let view := setUint32 4 (36 + Z.of_nat (length samples)) view in
  let view := writeString 8 (lit "WAVE") view in
  let view := writeString 12 (lit "fmt ") view in
  let view := setUint32 16 16 view in
  let view := setUint16 20 1 view in
  let view := setUint16 22 1 view in
  let view := setUint32 24 sampleRate view in
  let view := setUint32 28 (sampleRate * 2) view in
  let view := setUint16 32 2 view in
  let view := setUint16 34 16 view in
  let view := writeString 36 (lit "data") view in
  let view := setUint32 40 (Z.of_nat (length samples)) view in
  setBytes 44 samples view.

(** Readers of little-endian fields, as a consumer of the file applies
    them; [None] outside the buffer. *)
Definition getUint16 (offset : nat) (view : list N) : option Z :=
  match skipn offset view with
  | b0 :: b1 :: _ => Some (Z.of_N b0 + 256 * Z.of_N b1)%Z
  | _ => None
  end.

Definition getUint32 (offset : nat) (view : list N) : option Z :=
  match skipn offset view with
  | b0 :: b1 :: b2 :: b3 :: _ =>
      Some (Z.of_N b0 + 256 * Z.of_N b1 + 65536 * Z.of_N b2
            + 16777216 * Z.of_N b3)%Z
  | _ => None
  end.

Definition getString (offset len : nat) (view : list N) : str :=
  firstn len (skipn offset view).

End Wav.

(* ================================================================= *)
(** ** Further vocabulary for the properties *)

(** The texts of a list joined by single spaces. *)
Fixpoint joinText (l : list str) : str :=
  match l with
  | [] => []
  | [a] => a
  | a :: l' => a ++ lit " " ++ joinText l'
  end.

(** A 16-bit signed integer. *)
Definition isInt16 (z : Z) : Prop := (-32768 <= z <= 32767)%Z.

(** A byte. *)
Definition isByte (b : N) : Prop := (b < 256)%N.

(** The frames of a list of buffers, added up. *)
Definition totalFrames (buffers : list Pcm.AudioBuffer) : nat :=
  fold_right (fun b n => (Pcm.frames b + n)%nat) 0%nat buffers.

(** A line that carries a speaker label of the host or of the expert. *)
Definition labelled (upperNonAscii : N -> N) (hostName expertName line : str)
  : bool :=
  match Segmenter.matchLabel upperNonAscii (lit "Host") hostName
                             (trim line) with
  | Some _ => true
  | None =>
      match Segmenter.matchLabel upperNonAscii (lit "Expert") expertName
                                 (trim line) with
      | Some _ => true
      | None => false
      end
  end.

(** All of a segment but its identifier. *)
Definition withoutId (s : ScriptSegment) : Z * Speaker * str * Q * Q :=
  (slideIndex s, speaker s, text s, startTime s, endTime s).

(** Further invariants of the Segmenter's loop state.  [good] holds of the
    segment at position [i]; [sound]: the current slide index is not
    negative and every segment built so far is good; [silent]: no speaker
    has been seen and nothing has been emitted; [alike]: two states differ
    in identifiers at most. *)
Definition good (randomId : nat -> str) (i : nat) (seg : ScriptSegment)
  : Prop :=
  text seg <> []
  /\ trim (text seg) = text seg
  /\ (0 <= slideIndex seg)%Z
  /\ id seg = randomId i
  /\ endTime seg
     = startTime seg
       + Qmax (3 # 2)
              (inject_Z (Z.of_nat (length (text seg)))
               / inject_Z Segmenter.CHARS_PER_SEC).

Definition sound (randomId : nat -> str) (st : Segmenter.PState) : Prop :=
  (0 <= Segmenter.currentSlideIndex st)%Z
  /\ forall i seg, nth_error (Segmenter.segments st) i = Some seg ->
                   good randomId i seg.

Definition silent (st : Segmenter.PState) : Prop :=
  Segmenter.currentSpeaker st = None /\ Segmenter.segments st = [].

Definition alike (st1 st2 : Segmenter.PState) : Prop :=
  map withoutId (Segmenter.segments st1)
  = map withoutId (Segmenter.segments st2)
  /\ Segmenter.runningTime st1 = Segmenter.runningTime st2
  /\ Segmenter.currentSlideIndex st1 = Segmenter.currentSlideIndex st2
  /\ Segmenter.currentSpeaker st1 = Segmenter.currentSpeaker st2.

(** Projections of the log: the audio contexts opened and closed, the
    requests with their prompt and voice, and the pauses. *)
Definition isOpen (e : Event) : bool :=
  match e with EvContextOpen => true | _ => false end.

Definition isClose (e : Event) : bool :=
  match e with EvContextClose => true | _ => false end.

Definition countOpens (w : World) : nat := length (filter isOpen w).
Definition countCloses (w : World) : nat := length (filter isClose w).

Definition requestsOf (w : World) : list (str * str) :=
  flat_map (fun e => match e with
                     | EvRequest prompt voice => [(prompt, voice)]
                     | _ => []
                     end) w.

Definition sleepsOf (w : World) : list Q :=
  flat_map (fun e => match e with EvSleep ms => [ms] | _ => [] end) w.

(** The log [w'] extends [w] by events among which every opened audio
    context is closed. *)
Definition Balanced (w w' : World) : Prop :=
  exists delta, w' = w ++ delta /\ countOpens delta = countCloses delta.

(** The request the Sequencer issues for a merged unit. *)
Definition requestFor (hostVoice expertVoice : str) (unit : ScriptSegment)
  : str * str :=
  (Synthesis.promptFor (trim (text unit)),
   match speaker unit with Host => hostVoice | Expert => expertVoice end).

(** A provider that rejects every request with status 400. *)
Definition badRequest : ApiError :=
  mkApiError (Some 400%Z) None (lit "{}").

Definition rejectingProvider (n : nat) (prompt voice : str)
  : Synthesis.Response :=
  Synthesis.Failure badRequest.

(** A random source as [Math.random] is specified: at least 0, below 1. *)
Definition unitRandom (random : nat -> Q) : Prop :=
  forall n, 0 <= random n /\ random n < 1.

(** A buffer as [decodeAudioData] builds it: at 24000 Hz, not empty, its
    samples decoded from 16-bit integers. *)
Definition decodedBuffer (b : Pcm.AudioBuffer) : Prop :=
  Pcm.sampleRate b = 24000%Z
  /\ (0 < Pcm.frames b)%nat
  /\ exists ints, Forall isInt16 ints /\ Pcm.channelData b = Pcm.decode ints.

(** The 16-bit sample that comes out when a decoded sample is encoded. *)
Definition lowered (n : Z) : Z := if (0 <? n)%Z then (n - 1)%Z else n.

(** The pauses the Sequencer makes for a list of units: one before every
    unit but the very first of the run. *)
Definition pacingPauses (buffersSoFar : list Pcm.AudioBuffer)
           (units : list ScriptSegment) : nat :=
  match buffersSoFar with
  | [] => (length units - 1)%nat
  | _ :: _ => length units
  end.

(* ================================================================= *)
(** ** The earlier variant of the application
       (src/components/ConfigurationModal.tsx, lines 1671-1725 and
       1864-1891): a Segmenter without display names and sentence
       splitting, and a Synchronizer that scales estimated times *)

Module Legacy.

Section Parse.

Variable upperNonAscii : N -> N.
Variable randomId : nat -> str.

(** The label pattern of this variant, anchored at the start of [s]: an
    optional pair of stars, the role keyword in any case, an optional pair
    of stars, an ASCII colon.  Returns the text after the match. *)
Definition matchLabel (keyword : str) (s : str) : option str :=
  Segmenter.optThen (Segmenter.ciEq upperNonAscii) (lit "**")
    (fun r =>
       match eat (Segmenter.ciEq upperNonAscii) keyword r with
       | Some r1 =>
           Segmenter.optThen (Segmenter.ciEq upperNonAscii) (lit "**")
             (eat (Segmenter.ciEq upperNonAscii) (lit ":")) r1
       | None => None
       end)
    s.

Record LState := mkLState {
  segments : list ScriptSegment;
  runningTime : Q;
  currentSlideIndex : Z
}.

Definition CHARS_PER_SEC : Z := 12.

(** The body of [for (const line of lines)]: the speaker is local to the
    line, and a line without a label is dropped. *)
Definition processLine (st : LState) (line : str) : LState :=
  let trimmed := trim line in
  match trimmed with
  | [] => st
  | _ :: _ =>
      let '(speaker, content) :=
        match matchLabel (lit "Host") trimmed with
        | Some rest => (Some Host, trim rest)
        | None =>
            match matchLabel (lit "Expert") trimmed with
            | Some rest => (Some Expert, trim rest)
            | None => (None, trimmed)
            end
        end in
      match speaker, content with
      | Some sp, _ :: _ =>
          let duration :=
            Qmax 2 (inject_Z (Z.of_nat (length content))
                    / inject_Z CHARS_PER_SEC) in
          mkLState
            (segments st ++
               [ {| id := randomId (length (segments st));
                    slideIndex := currentSlideIndex st;
                    speaker := sp;
                    text := content;
                    startTime := runningTime st;
                    endTime := runningTime st + duration |} ])
            (runningTime st + duration)
            (currentSlideIndex st)
      | _, _ => st
      end
  end.

Definition processBlock (st : LState) (block : str) : LState :=
  if Segmenter.isPageNumber block then
    mkLState (segments st) (runningTime st)
             (Z.max 0 (parseInt block - 1))
  else fold_left processLine (split 10 block) st.

Definition parseScriptToSegments (fullText : str) : list ScriptSegment :=
  segments (fold_left processBlock
                      (Segmenter.slideBlocks upperNonAscii fullText)
                      (mkLState [] 0 0)).

End Parse.

(** [segments.length > 0 ? segments[segments.length - 1].endTime : 0] *)
Definition totalEstimated (segments : list ScriptSegment) : Q :=
  match nth_error segments (length segments - 1) with
  | Some lastSeg => endTime lastSeg
  | None => 0
  end.

(** The time looked up: the playback time scaled by the ratio of the
    estimated total to the actual duration, when there is an actual
    duration ([None] stands for a duration that is not a number) and the
    estimated total is positive. *)
Definition adjustedTime (segments : list ScriptSegment)
           (actualDuration : option Q) (t : Q) : Q :=
  match actualDuration with
  | Some d =>
      if negb (Qeq_bool d 0) && Qlt_bool 0 (totalEstimated segments)
      then t * (totalEstimated segments / d)
      else t
  | None => t
  end.

(** One frame of this variant's [updateSync]. *)
Definition updateSync (segments : list ScriptSegment)
           (actualDuration : option Q) (t : Q)
           (st : Synchronizer.SyncState) : Synchronizer.SyncState :=
  let adjusted := adjustedTime segments actualDuration t in
  let foundIndex :=
    Synchronizer.findIndex (Synchronizer.covers adjusted) segments in
  if negb (foundIndex =? -1)%Z then
    match nth_error segments (Z.to_nat foundIndex) with
    | Some seg => Synchronizer.mkSync foundIndex (slideIndex seg)
    | None => st
    end
  else if Qle_bool (totalEstimated segments) adjusted then
    Synchronizer.mkSync (Z.of_nat (length segments) - 1)
                        (Synchronizer.activeSlideIndex st)
  else st.

End Legacy.

(* ================================================================= *)
(** ** Flag emoji ([getFlagEmoji],
       src/components/ConfigurationModal.tsx, lines 264-273) *)

Module Flags.

(** The globe emoji U+1F310 as two code units. *)
Definition globe : str := [55356; 57104]%N.

(** The code units of one code point, as [String.fromCodePoint] gives
    them; [None] where it throws a RangeError. *)
Definition encodeCodePoint (cp : N) : option str :=
  if (1114111 <? cp)%N then None
  else if (cp <? 65536)%N then Some [cp]
       else Some [ ((cp - 65536) / 1024 + 55296)%N;
                   ((cp - 65536) mod 1024 + 56320)%N ].

Fixpoint fromCodePoint (codePoints : list N) : option str :=
  match codePoints with
  | [] => Some []
  | cp :: rest =>
      match encodeCodePoint cp, fromCodePoint rest with
      | Some a, Some b => Some (a ++ b)
      | _, _ => None
      end
  end.

Definition isUpperLetter (c : N) : bool := ((65 <=? c) && (c <=? 90))%N.

(** The test of a string against the pattern of one or more letters A to
    Z. *)
Definition allUpperLetters (s : str) : bool :=
  match s with
  | [] => false
  | _ :: _ => forallb isUpperLetter s
  end.

Section Emoji.

(** [String.prototype.toUpperCase], which depends on the Unicode tables of
    the engine. *)
Variable toUpperCase : str -> str.

Definition getFlagEmoji (countryCode : str) : option str :=
  if match countryCode with [] => true | _ :: _ => false end
     || negb (length countryCode =? 2)%nat
     || negb (allUpperLetters (toUpperCase countryCode))
  then Some globe
  else fromCodePoint
         (map (fun char => (127397 + char)%N) (toUpperCase countryCode)).

End Emoji.

End Flags.

(** The regional indicator symbol of a letter, as two code units. *)
Definition regionalIndicator (c : N) : str := [55356; 56741 + c]%N.

(** Invariants of the earlier Segmenter's loop state. *)
Definition legacyTimed (randomId : nat -> str) (st : Legacy.LState)
  : Prop :=
  Chain 0 (Legacy.segments st)
  /\ chainEnd 0 (Legacy.segments st) = Legacy.runningTime st
  /\ (0 <= Legacy.currentSlideIndex st)%Z
  /\ forall i seg,
       nth_error (Legacy.segments st) i = Some seg ->
       text seg <> [] /\ trim (text seg) = text seg
       /\ (0 <= slideIndex seg)%Z
       /\ id seg = randomId i
       /\ endTime seg
          = startTime seg
            + Qmax 2 (inject_Z (Z.of_nat (length (text seg)))
                      / inject_Z Legacy.CHARS_PER_SEC).

(** Upper-casing of ASCII letters only, for the concrete runs. *)
Definition asciiToUpperCase (s : str) : str := map Segmenter.asciiUpper s.

(** The error of a run that produced no audio. *)
Definition noAudioGenerated : Exn :=
  JsError (lit "No audio generated.").

(** The units of a run are answered by the provider.  Requests are
    counted from [from]: the provider fails transiently on the requests
    made for a unit until it answers one of them, the request number [n],
    with a payload that decodes to the unit's entry of [audios]; the
    requests of the next unit are counted from [n + 1]. *)
Fixpoint AnsweredFrom (provider : nat -> str -> str -> Synthesis.Response)
         (atob : str -> option (list N)) (hostVoice expertVoice : str)
         (from : nat) (units : list ScriptSegment)
         (audios : list Synthesis.GeneratedAudio) : Prop :=
  match units, audios with
  | [], [] => True
  | unit :: units', audio :: audios' =>
      let request := requestFor hostVoice expertVoice unit in
      exists n,
        (from <= n)%nat
        /\ (forall m, (from <= m < n)%nat ->
              transient (provider m (fst request) (snd request)) = true)
        /\ audioOf atob (provider n (fst request) (snd request))
           = Some audio
        /\ AnsweredFrom provider atob hostVoice expertVoice (S n)
                        units' audios'
  | _, _ => False
  end.

(** The requests and the pauses of a log, in the order in which they
    happen. *)
Inductive Beat :=
| Request
| Pause (ms : Q).

Definition beatsOf (w : World) : list Beat :=
  flat_map (fun e => match e with
                     | EvRequest _ _ => [Request]
                     | EvSleep ms => [Pause ms]
                     | _ => []
                     end) w.

(** One pause and then one request, for each element of [pauses]. *)
Fixpoint pausedRequests (pauses : list Q) : list Beat :=
  match pauses with
  | [] => []
  | ms :: more => Pause ms :: Request :: pausedRequests more
  end.

(** The events of a steady run over [units], one answer for each request:
    for every unit its request, then the opening and the closing of the
    audio context in which the answer is decoded, with a pause of one
    second before the request of every unit but the first of the run. *)
Fixpoint steadyLog (hostVoice expertVoice : str) (first : bool)
         (units : list ScriptSegment) : World :=
  match units with
  | [] => []
  | unit :: more =>
      (if first then [] else [EvSleep 1000])
      ++ [EvRequest (fst (requestFor hostVoice expertVoice unit))
                    (snd (requestFor hostVoice expertVoice unit));
          EvContextOpen; EvContextClose]
      ++ steadyLog hostVoice expertVoice false more
  end.

(* ================================================================= *)
(** ** [concatenateAudioBuffers] statement by statement
       (src/unnamed/part_000, lines 90-104) *)

Module Concatenation.

(** [target.set(source, offset)] on a typed array: the elements of
    [source] overwrite those of [target] from [offset] on; [None] where it
    throws a RangeError because the source does not fit. *)
Definition setAt {A} (offset : nat) (source target : list A)
  : option (list A) :=
  if (offset + length source <=? length target)%nat
  then Some (firstn offset target ++ source
             ++ skipn (offset + length source) target)
  else None.

(** The body of [for (const buf of buffers)], on the output array and the
    offset. *)
Definition copyBuffer (acc : option (list Q * nat)) (buf : Pcm.AudioBuffer)
  : option (list Q * nat) :=
  match acc with
  | Some (outputData, offset) =>
      match setAt offset (Pcm.channelData buf) outputData with
      | Some written => Some (written, (offset + Pcm.frames buf)%nat)
      | None => None
      end
  | None => None
  end.

(** The function as written: the total length by [reduce], a buffer of
    that length filled with zeros ([createBuffer] refuses the length 0),
    then one [set] for each input at the running offset. *)
Definition concatenateAudioBuffersLoop (buffers : list Pcm.AudioBuffer)
  : Result Pcm.AudioBuffer :=
  let totalLength :=
    fold_left (fun acc b => (acc + Pcm.frames b)%nat) buffers 0%nat in
  match totalLength with
  | O => Throw (JsError (lit "NotSupportedError"))
  | S _ =>
      match fold_left copyBuffer buffers
                      (Some (repeat 0 totalLength, 0%nat)) with
      | Some (outputData, _) => Ok (Pcm.mkBuffer outputData 24000)
      | None => Throw (JsError (lit "RangeError"))
      end
  end.

End Concatenation.

(* ================================================================= *)
(** ** Segment Merger: idempotence *)

Module MergerFacts.
Import Merger.

Lemma sameRun_appendText_l next current extra :
  sameRun next (appendText current extra) = sameRun next current.
Proof. reflexivity. Qed.

Lemma mergeLoop_head rest : forall current,
  exists first others,
    mergeLoop current rest = first :: others
    /\ speaker first = speaker current
    /\ slideIndex first = slideIndex current.
Proof.
  induction rest as [|next rest IH]; intros current; simpl.
  - now exists current, [].
  - destruct (sameRun next current).
    + destruct (IH (appendText current next)) as (f & o & E & Hs & Hi).
      now exists f, o.
    + now exists current, (mergeLoop next rest).
Qed.

Lemma mergeLoop_NoAdjacentRun rest : forall current,
  NoAdjacentRun (mergeLoop current rest).
Proof.
  induction rest as [|next rest IH]; intros current; simpl; [exact I|].
  destruct (sameRun next current) eqn:E; [apply IH|].
  destruct (mergeLoop_head rest next) as (f & o & Ef & Hs & Hi).
  specialize (IH next). rewrite Ef in *. simpl. split; [|exact IH].
  unfold sameRun in *. now rewrite Hs, Hi.
Qed.

Lemma mergeLoop_fixed rest : forall current,
  NoAdjacentRun (current :: rest) -> mergeLoop current rest = current :: rest.
Proof.
  induction rest as [|next rest IH]; intros current H; [reflexivity|].
  destruct H as [E H]. simpl. rewrite E. f_equal. now apply IH.
Qed.

Lemma mergeSegments_NoAdjacentRun l : NoAdjacentRun (mergeSegments l).
Proof. destruct l; [exact I | apply mergeLoop_NoAdjacentRun]. Qed.

Lemma mergeSegments_fixed l : NoAdjacentRun l -> mergeSegments l = l.
Proof. destruct l; [reflexivity | apply mergeLoop_fixed]. Qed.

End MergerFacts.

(** C5. The Segment Merger is idempotent on its own output: merging the
    result of a merge gives back that result, segment for segment (hence
    the same length and the same speaker, slide index and text at every
    position). *)
Theorem merge_idempotent (rawSegments : list ScriptSegment) :
  Merger.mergeSegments (Merger.mergeSegments rawSegments)
  = Merger.mergeSegments rawSegments.
Proof.
  apply MergerFacts.mergeSegments_fixed, MergerFacts.mergeSegments_NoAdjacentRun.
Qed.

(* ================================================================= *)
(** ** Timelines *)

Module TimelineFacts.

Lemma Chain_proper t0 t1 l : t0 == t1 -> Chain t0 l -> Chain t1 l.
Proof.
  destruct l as [|s l]; simpl; [easy|].
  intros E (H0 & H1 & H2). repeat split; trivial. now rewrite <- E.
Qed.

(** The index form of the invariant and the recursive one agree. *)
Lemma Chain_of_Contiguous l :
  Contiguous l -> PositiveDurations l -> Chain 0 l.
Proof.
  intros [H0 Hc] Hp.
  assert (G : forall t0, (forall s, nth_error l 0 = Some s -> startTime s == t0)
                         -> Chain t0 l).
  { revert Hc Hp. clear H0.
    induction l as [|s l IH]; intros Hc Hp t0 H0; simpl; [exact I|].
    repeat split.
    - now apply H0.
    - now apply (Hp 0%nat).
    - apply IH.
      + intros i a b Ha Hb. exact (Hc (S i) a b Ha Hb).
      + intros i a Ha. exact (Hp (S i) a Ha).
      + intros b Hb. symmetry. exact (Hc 0%nat s b eq_refl Hb). }
  now apply G.
Qed.

Lemma Chain_indexed t0 l :
  Chain t0 l ->
  (forall s, nth_error l 0 = Some s -> startTime s == t0)
  /\ (forall i a b,
         nth_error l i = Some a -> nth_error l (S i) = Some b ->
         endTime a == startTime b)
  /\ PositiveDurations l.
Proof.
  unfold PositiveDurations. revert t0.
  induction l as [|s l IH]; intros t0 H.
  - repeat split; intros; try destruct i; discriminate.
  - destruct H as (H0 & H1 & H2).
    destruct (IH _ H2) as (I0 & Ic & Ip).
    repeat split.
    + intros x [= <-]. exact H0.
    + intros [|i] a b Ha Hb; simpl in *.
      * injection Ha as <-. symmetry. now apply I0.
      * now apply (Ic i).
    + intros [|i] a Ha; simpl in *.
      * now injection Ha as <-.
      * now apply (Ip i).
Qed.

Lemma Contiguous_of_Chain l :
  Chain 0 l -> Contiguous l /\ PositiveDurations l.
Proof.
  intros H. destruct (Chain_indexed _ _ H) as (H0 & Hc & Hp).
  now repeat split.
Qed.

(** Along a chain, starts are bounded below by its origin. *)
Lemma Chain_start_ge l : forall t0 i a,
  Chain t0 l -> nth_error l i = Some a -> t0 <= startTime a.
Proof.
  induction l as [|s l IH]; intros t0 i a H Ha.
  - destruct i; discriminate.
  - destruct H as (H0 & H1 & H2). destruct i as [|i]; simpl in Ha.
    + injection Ha as <-. rewrite H0. apply Qle_refl.
    + specialize (IH _ _ _ H2 Ha).
      apply Qle_trans with (endTime s); [|exact IH].
      rewrite <- H0. now apply Qlt_le_weak.
Qed.

(** Every segment of a chain ends no later than the last one. *)
Lemma Chain_end_le_last l : forall t0 i a z,
  Chain t0 l -> nth_error l i = Some a ->
  nth_error l (length l - 1) = Some z -> endTime a <= endTime z.
Proof.
  induction l as [|s l IH]; intros t0 i a z H Ha Hz.
  - destruct i; discriminate.
  - destruct H as (H0 & H1 & H2).
    destruct l as [|s' l'].
    + destruct i as [|[|i]]; simpl in *; try discriminate.
      injection Ha as <-. injection Hz as <-. apply Qle_refl.
    + assert (Hz' : nth_error (s' :: l') (length (s' :: l') - 1) = Some z).
      { simpl in *. now rewrite Nat.sub_0_r in *. }
      destruct i as [|i]; simpl in Ha.
      * injection Ha as <-.
        assert (Hs' : nth_error (s' :: l') 0 = Some s') by reflexivity.
        pose proof (IH _ _ _ _ H2 Hs' Hz') as Hle.
        destruct H2 as (E & L & _).
        apply Qle_trans with (endTime s'); [|exact Hle].
        rewrite <- E. now apply Qlt_le_weak.
      * exact (IH _ _ _ _ H2 Ha Hz').
Qed.

End TimelineFacts.

(* ================================================================= *)
(** ** Playback Synchronizer *)

Module SynchronizerFacts.
Import Synchronizer TimelineFacts.

Lemma covers_spec t seg :
  covers t seg = true <-> startTime seg <= t /\ t < endTime seg.
Proof.
  unfold covers, Qlt_bool.
  rewrite andb_true_iff, negb_true_iff, Qle_bool_iff.
  split; intros [H1 H2]; split; trivial.
  - apply Qnot_le_lt. intros H. apply Qle_bool_iff in H. congruence.
  - destruct (Qle_bool (endTime seg) t) eqn:E; trivial.
    apply Qle_bool_iff in E. exfalso. exact (Qlt_not_le _ _ H2 E).
Qed.

Lemma covers_false_before t seg :
  t < startTime seg -> covers t seg = false.
Proof.
  intros H. destruct (covers t seg) eqn:E; trivial.
  apply covers_spec in E. exfalso. exact (Qlt_not_le _ _ H (proj1 E)).
Qed.

Lemma covers_false_after t seg :
  endTime seg <= t -> covers t seg = false.
Proof.
  intros H. destruct (covers t seg) eqn:E; trivial.
  apply covers_spec in E. exfalso. exact (Qlt_not_le _ _ (proj2 E) H).
Qed.

(** Before the origin of a chain nothing is found. *)
Lemma findIndexFrom_before l : forall t0 t k,
  Chain t0 l -> t < t0 -> findIndexFrom (covers t) k l = (-1)%Z.
Proof.
  induction l as [|s l IH]; intros t0 t k H Ht; [reflexivity|].
  destruct H as (H0 & H1 & H2). simpl.
  rewrite covers_false_before by now rewrite H0.
  apply (IH (endTime s)); trivial.
  apply Qlt_trans with t0; trivial. now rewrite <- H0.
Qed.

(** Inside the interval of the segment at index [i], exactly [i] is found. *)
Lemma findIndexFrom_inside l : forall t0 t k i seg,
  Chain t0 l -> nth_error l i = Some seg ->
  startTime seg <= t -> t < endTime seg ->
  findIndexFrom (covers t) k l = (k + Z.of_nat i)%Z.
Proof.
  induction l as [|s l IH]; intros t0 t k i seg H Hi Hs He.
  - destruct i; discriminate.
  - destruct H as (H0 & H1 & H2). destruct i as [|i]; simpl in Hi |- *.
    + injection Hi as <-.
      rewrite (proj2 (covers_spec t s)) by now split.
      now rewrite Z.add_0_r.
    + rewrite covers_false_after.
      * rewrite (IH _ _ _ _ _ H2 Hi Hs He). lia.
      * apply Qle_trans with (startTime seg); trivial.
        exact (Chain_start_ge _ _ _ _ H2 Hi).
Qed.

(** At or past the end of the last segment nothing is found. *)
Lemma findIndexFrom_after l : forall t0 t k z,
  Chain t0 l -> nth_error l (length l - 1) = Some z -> endTime z <= t ->
  findIndexFrom (covers t) k l = (-1)%Z.
Proof.
  intros t0 t k z H Hz Ht. revert k.
  assert (A : forall i a, nth_error l i = Some a -> covers t a = false).
  { intros i a Ha. apply covers_false_after.
    apply Qle_trans with (endTime z); trivial.
    exact (Chain_end_le_last _ _ _ _ _ H Ha Hz). }
  clear H Hz. induction l as [|s l IH]; intros k; [reflexivity|].
  simpl. rewrite (A 0%nat s eq_refl).
  apply IH. intros i a Ha. exact (A (S i) a Ha).
Qed.

Lemma findIndexFrom_range {A} (p : A -> bool) l : forall k,
  findIndexFrom p k l = (-1)%Z
  \/ (k <= findIndexFrom p k l < k + Z.of_nat (length l))%Z.
Proof.
  induction l as [|x l IH]; intros k; simpl; [now left|].
  destruct (p x); [right; lia|].
  destruct (IH (k + 1)%Z) as [E | R]; [now left | right; lia].
Qed.

End SynchronizerFacts.

(** C8. On a non-empty segment list that satisfies the contiguity
    invariant (times start at 0, each segment ends where the next starts,
    every segment ends after it starts): a time inside the half-open
    interval of the segment at index [i] resolves to [i] and that segment's
    slide index; a time at or past the end of the last segment resolves to
    the last index and its slide index; a negative time resolves to
    nothing. *)
Theorem synchronizer_lookup (segments : list ScriptSegment) (t : Q) :
  segments <> [] ->
  Contiguous segments -> PositiveDurations segments ->
  (forall i seg,
      nth_error segments i = Some seg ->
      startTime seg <= t -> t < endTime seg ->
      Synchronizer.resolveActive segments t
      = Some (Z.of_nat i, slideIndex seg))
  /\ (forall lastSeg,
         nth_error segments (length segments - 1) = Some lastSeg ->
         endTime lastSeg <= t ->
         Synchronizer.resolveActive segments t
         = Some ((Z.of_nat (length segments) - 1)%Z, slideIndex lastSeg))
  /\ (t < 0 -> Synchronizer.resolveActive segments t = None).
Proof.
  intros Hne Hc Hp.
  pose proof (TimelineFacts.Chain_of_Contiguous _ Hc Hp) as H.
  unfold Synchronizer.resolveActive, Synchronizer.findIndex.
  repeat split.
  - intros i seg Hi Hs He.
    rewrite (SynchronizerFacts.findIndexFrom_inside _ _ _ 0%Z _ _ H Hi Hs He).
    simpl. replace (Z.of_nat i =? -1)%Z with false by (symmetry; apply Z.eqb_neq; lia).
    simpl. now rewrite Nat2Z.id, Hi.
  - intros z Hz Ht.
    rewrite (SynchronizerFacts.findIndexFrom_after _ _ _ 0%Z _ H Hz Ht). simpl.
    destruct segments as [|s l]; [congruence|].
    change (0 <? length (s :: l))%nat with true. cbv iota.
    rewrite Hz. apply Qle_bool_iff in Ht. now rewrite Ht.
  - intros Ht.
    rewrite (SynchronizerFacts.findIndexFrom_before _ _ _ 0%Z H Ht). simpl.
    destruct segments as [|s l]; [congruence|].
    change (0 <? length (s :: l))%nat with true. cbv iota.
    destruct (nth_error (s :: l) (length (s :: l) - 1)) as [z|] eqn:Hz; trivial.
    destruct (Qle_bool (endTime z) t) eqn:E; trivial.
    apply Qle_bool_iff in E. exfalso.
    pose proof (TimelineFacts.Chain_start_ge _ _ _ _ H Hz) as G.
    destruct (TimelineFacts.Contiguous_of_Chain _ H) as [_ P].
    pose proof (P _ _ Hz) as L.
    apply (Qlt_irrefl t).
    apply Qlt_le_trans with 0; trivial.
    apply Qle_trans with (startTime z); trivial.
    apply Qle_trans with (endTime z); trivial. now apply Qlt_le_weak.
Qed.

Lemma synchronizer_lookup_witness :
  Synchronizer.resolveActive demoSegments 2 = Some (1%Z, 0%Z)
  /\ Synchronizer.resolveActive demoSegments 7 = Some (3%Z, 1%Z)
  /\ Synchronizer.resolveActive demoSegments (-1) = None.
Proof.
  assert (N : demoSegments <> []) by (vm_compute; discriminate).
  assert (C : Chain 0 demoSegments)
    by (vm_compute; repeat split; reflexivity).
  destruct (TimelineFacts.Contiguous_of_Chain _ C) as [Hc Hp].
  split; [|split].
  - destruct (synchronizer_lookup demoSegments 2 N Hc Hp) as (A & _ & _).
    refine (A 1%nat (mkSegment _ _ _ _ _ _) eq_refl _ _); vm_compute;
      [discriminate | reflexivity].
  - destruct (synchronizer_lookup demoSegments 7 N Hc Hp) as (_ & B & _).
    refine (B (mkSegment _ _ _ _ _ _) eq_refl _); vm_compute; discriminate.
  - destruct (synchronizer_lookup demoSegments (-1) N Hc Hp) as (_ & _ & D).
    apply D. reflexivity.
Defined.

(* ================================================================= *)
(** ** PCM codec *)

Module PcmFacts.
Import Pcm.

Lemma Qmin_spec a b : (a <= b /\ Qmin a b = a) \/ (b < a /\ Qmin a b = b).
Proof.
  unfold Qmin. destruct (Qle_bool a b) eqn:E.
  - left. split; trivial. now apply Qle_bool_iff.
  - right. split; trivial. apply Qnot_le_lt. intros H.
    apply Qle_bool_iff in H. congruence.
Qed.

Lemma Qmax_spec a b : (a <= b /\ Qmax a b = b) \/ (b < a /\ Qmax a b = a).
Proof.
  unfold Qmax. destruct (Qle_bool a b) eqn:E.
  - left. split; trivial. now apply Qle_bool_iff.
  - right. split; trivial. apply Qnot_le_lt. intros H.
    apply Qle_bool_iff in H. congruence.
Qed.

Lemma clamp_range x : -1 <= clamp x /\ clamp x <= 1.
Proof.
  unfold clamp.
  destruct (Qmin_spec 1 x) as [[H1 ->] | [H1 ->]];
    destruct (Qmax_spec (-1) 1) as [[H2 E2] | [H2 E2]];
    destruct (Qmax_spec (-1) x) as [[H3 E3] | [H3 E3]];
    try (rewrite E2); try (rewrite E3); split;
    try apply Qle_refl; try lra.
Qed.

Lemma clamp_id x : -1 <= x -> x <= 1 -> clamp x == x.
Proof.
  intros L U. unfold clamp.
  destruct (Qmin_spec 1 x) as [[H1 ->] | [H1 ->]].
  - destruct (Qmax_spec (-1) 1) as [[H2 ->] | [H2 ->]]; lra.
  - destruct (Qmax_spec (-1) x) as [[H2 ->] | [H2 ->]]; lra.
Qed.

(** Truncation moves towards zero by less than one. *)
Lemma truncate_nonneg v :
  0 <= v -> inject_Z (truncate v) <= v /\ v < inject_Z (truncate v) + 1.
Proof.
  intros Hv. unfold truncate.
  assert (Hn : (0 <= Qnum v)%Z).
  { unfold Qle in Hv. simpl in Hv. lia. }
  rewrite Z.quot_div_nonneg by lia.
  replace (Qnum v / Z.pos (Qden v))%Z with (Qfloor v) by now destruct v.
  split; [apply Qfloor_le|].
  pose proof (Qlt_floor v) as H.
  rewrite inject_Z_plus in H. exact H.
Qed.

Lemma truncate_opp v : truncate (- v) = (- truncate v)%Z.
Proof. unfold truncate. simpl. apply Z.quot_opp_l. lia. Qed.

Lemma truncate_nonpos v :
  v <= 0 -> v <= inject_Z (truncate v) /\ inject_Z (truncate v) - 1 < v.
Proof.
  intros Hv.
  assert (H0 : 0 <= - v) by lra.
  destruct (truncate_nonneg _ H0) as [A B].
  rewrite truncate_opp, inject_Z_opp in A, B. split; lra.
Qed.

Lemma wrap16_small z : (-32768 <= z < 32768)%Z -> wrap16 z = z.
Proof. intros H. unfold wrap16. rewrite Z.mod_small; lia. Qed.

Lemma inject_Z_le_inv a b : inject_Z a <= inject_Z b -> (a <= b)%Z.
Proof. intros H. rewrite Zle_Qle. exact H. Qed.

Lemma inject_Z_le a b : (a <= b)%Z -> inject_Z a <= inject_Z b.
Proof. intros H. rewrite <- Zle_Qle. exact H. Qed.

Lemma Qlt_bool_spec a b :
  (a < b /\ Qlt_bool a b = true)
  \/ (b <= a /\ Qlt_bool a b = false).
Proof.
  unfold Qlt_bool. destruct (Qle_bool b a) eqn:E.
  - right. split; trivial. now apply Qle_bool_iff.
  - left. split; trivial. apply Qnot_le_lt. intros H.
    apply Qle_bool_iff in H. congruence.
Qed.

(** The encoder on a clamped sample: no wrap-around takes place, and the
    integer is the truncation of the scaled sample. *)
Lemma encodeSample_neg x :
  clamp x < 0 ->
  encodeSample x = truncate (clamp x * 32768)
  /\ (-32768 <= encodeSample x <= 0)%Z.
Proof.
  intros Hs. pose proof (clamp_range x) as [L U].
  unfold encodeSample, toInt16.
  destruct (Qlt_bool_spec (clamp x) 0) as [[_ ->] | [H _]]; [|lra].
  destruct (truncate_nonpos (clamp x * 32768)) as [A B]; [lra|].
  assert (R : (-32768 <= truncate (clamp x * 32768) <= 0)%Z).
  { split; apply inject_Z_le_inv.
    - change (inject_Z (-32768)) with (-32768). lra.
    - assert (N : ~ (1 <= truncate (clamp x * 32768))%Z).
      { intros C. apply inject_Z_le in C. change (inject_Z 1) with 1 in C.
        lra. }
      apply inject_Z_le. lia. }
  rewrite wrap16_small by lia. split; [reflexivity | lia].
Qed.

Lemma encodeSample_nonneg x :
  0 <= clamp x ->
  encodeSample x = truncate (clamp x * 32767)
  /\ (0 <= encodeSample x <= 32767)%Z.
Proof.
  intros Hs. pose proof (clamp_range x) as [L U].
  unfold encodeSample, toInt16.
  destruct (Qlt_bool_spec (clamp x) 0) as [[H _] | [_ ->]]; [lra|].
  destruct (truncate_nonneg (clamp x * 32767)) as [A B]; [lra|].
  assert (R : (0 <= truncate (clamp x * 32767) <= 32767)%Z).
  { split.
    - assert (N : ~ (truncate (clamp x * 32767) <= -1)%Z).
      { intros C. apply inject_Z_le in C.
        change (inject_Z (-1)) with (-1) in C. lra. }
      lia.
    - apply inject_Z_le_inv. change (inject_Z 32767) with 32767. lra. }
  rewrite wrap16_small by lia. split; [reflexivity | lia].
Qed.

End PcmFacts.



(* ================================================================= *)
(** ** Script Segmenter *)

Module SegmenterFacts.
Import Segmenter.

Lemma fold_left_preserves {A B} (P : A -> Prop) (f : A -> B -> A) l :
  (forall a b, P a -> P (f a b)) -> forall a, P a -> P (fold_left f l a).
Proof.
  intros Hf. induction l as [|b l IH]; intros a Ha; simpl; [exact Ha|].
  apply IH, Hf, Ha.
Qed.

Lemma Qmax_floor x : 3 # 2 <= Qmax (3 # 2) x.
Proof.
  unfold Qmax. destruct (Qle_bool (3 # 2) x) eqn:E.
  - now apply Qle_bool_iff.
  - apply Qle_refl.
Qed.

Lemma Chain_snoc s l : forall t0,
  Chain t0 l -> startTime s == chainEnd t0 l -> startTime s < endTime s ->
  Chain t0 (l ++ [s]) /\ chainEnd t0 (l ++ [s]) = endTime s.
Proof.
  induction l as [|x l IH]; intros t0 H Hs Hd; simpl in *.
  - repeat split; trivial.
  - destruct H as (H0 & H1 & H2).
    destruct (IH _ H2 Hs Hd) as [C E]. repeat split; trivial.
Qed.

Lemma monotone_snoc s l :
  SlideIndexMonotone l ->
  (forall i a, nth_error l i = Some a -> (slideIndex a <= slideIndex s)%Z) ->
  SlideIndexMonotone (l ++ [s]).
Proof.
  intros Hm Hb i a b Ha Hb'.
  destruct (Nat.lt_ge_cases (S i) (length l)) as [Lt | Ge].
  - rewrite nth_error_app1 in Ha, Hb' by lia. exact (Hm i a b Ha Hb').
  - destruct (Nat.eq_dec (S i) (length l)) as [E | N].
    + rewrite nth_error_app1 in Ha by lia.
      rewrite nth_error_app2 in Hb' by lia.
      rewrite E, Nat.sub_diag in Hb'. injection Hb' as <-.
      exact (Hb i a Ha).
    + rewrite nth_error_app2 in Hb' by lia.
      destruct (S i - length l)%nat as [|[|k]] eqn:K; simpl in Hb';
        try discriminate; lia.
Qed.

Lemma NonDecreasing_tail a l :
  NonDecreasing (a :: l) ->
  NonDecreasing l /\ (forall b, nth_error l 0 = Some b -> (a <= b)%Z).
Proof.
  intros H. split.
  - intros i x y Hx Hy. exact (H (S i) x y Hx Hy).
  - intros b Hb. exact (H 0%nat a b eq_refl Hb).
Qed.

Section Invariants.

Variable upperNonAscii : N -> N.
Variable randomId : nat -> str.
Variables hostName expertName : str.

(** A property of the loop state that survives the two updates a line
    can make survives the line. *)
Lemma processLine_preserves (P : PState -> Prop) :
  (forall st who, P st ->
     P (mkPState (segments st) (runningTime st) (currentSlideIndex st) who)) ->
  (forall who st sentence, P st -> P (pushSentence randomId who st sentence)) ->
  forall st line,
    P st -> P (processLine upperNonAscii randomId hostName expertName st line).
Proof.
  intros Hwho Hpush st line H. unfold processLine.
  destruct (trim line) as [|c trimmed]; [exact H|].
  set (label := match matchLabel _ _ _ _ with Some _ => _ | None => _ end).
  destruct label as [who content].
  destruct who as [sp|]; [|now apply Hwho].
  destruct content as [|c' content]; [now apply Hwho|].
  apply fold_left_preserves; [intros; now apply Hpush | now apply Hwho].
Qed.

Lemma pushSentence_timed who st sentence :
  timed st -> timed (pushSentence randomId who st sentence).
Proof.
  intros [C E]. unfold pushSentence.
  destruct (trim sentence) as [|c cleanSentence]; [now split|].
  set (duration := Qmax _ _).
  assert (D : 3 # 2 <= duration) by apply Qmax_floor.
  unfold timed. cbn [segments runningTime].
  apply Chain_snoc; trivial; cbn [startTime endTime].
  - rewrite E. reflexivity.
  - lra.
Qed.

Lemma processBlock_timed st block :
  timed st ->
  timed (processBlock upperNonAscii randomId hostName expertName st block).
Proof.
  intros H. unfold processBlock. destruct (isPageNumber block); [exact H|].
  apply fold_left_preserves; trivial.
  intros a line Ha. apply processLine_preserves; trivial.
  intros. now apply pushSentence_timed.
Qed.

Lemma pushSentence_ordered c who st sentence :
  ordered c st -> ordered c (pushSentence randomId who st sentence).
Proof.
  intros (Ec & Hm & Hb). unfold pushSentence.
  destruct (trim sentence) as [|x cleanSentence]; [now repeat split|].
  unfold ordered. cbn [segments currentSlideIndex]. repeat split; trivial.
  - apply monotone_snoc; trivial. cbn [slideIndex]. now rewrite Ec.
  - intros i a Ha.
    destruct (Nat.lt_ge_cases i (length (segments st))) as [Lt | Ge].
    + rewrite nth_error_app1 in Ha by lia. exact (Hb i a Ha).
    + rewrite nth_error_app2 in Ha by lia.
      destruct (i - length (segments st))%nat as [|[|k]]; simpl in Ha;
        try discriminate.
      injection Ha as <-. cbn [slideIndex]. lia.
Qed.

Lemma processLines_ordered c lines : forall st,
  ordered c st ->
  ordered c (fold_left (processLine upperNonAscii randomId hostName expertName)
                       lines st).
Proof.
  apply fold_left_preserves. intros a line Ha.
  apply processLine_preserves; trivial.
  intros. now apply pushSentence_ordered.
Qed.

Lemma processBlocks_ordered blocks : forall c st,
  ordered c st ->
  NonDecreasing (pageNumbers blocks) ->
  (forall p, nth_error (pageNumbers blocks) 0 = Some p ->
             (c <= Z.max 0 (p - 1))%Z) ->
  exists c',
    ordered c' (fold_left
                  (processBlock upperNonAscii randomId hostName expertName)
                  blocks st).
Proof.
  induction blocks as [|block blocks IH]; intros c st H Hn Hc; simpl.
  - now exists c.
  - unfold pageNumbers in Hn, Hc. simpl in Hn, Hc.
    unfold processBlock at 2.
    destruct (isPageNumber block) eqn:E.
    + simpl in Hn, Hc. destruct (NonDecreasing_tail _ _ Hn) as [Hn' Hh].
      specialize (Hc _ eq_refl).
      apply (IH (Z.max 0 (parseInt block - 1))); trivial.
      * destruct H as (Ec & Hm & Hb). repeat split; trivial.
        intros i a Ha. specialize (Hb i a Ha). lia.
      * intros p Hp. specialize (Hh p Hp). lia.
    + apply (IH c); trivial. now apply processLines_ordered.
Qed.

End Invariants.

End SegmenterFacts.

(** C4. For every script text and every pair of display names, the
    segments the Segmenter returns satisfy the contiguity invariant: the
    first one (if any) starts at 0, each one ends where the next one
    starts, and each one ends strictly after it starts. *)
Theorem segmenter_contiguous
        (upperNonAscii : N -> N) (randomId : nat -> str)
        (fullText hostName expertName : str) :
  let segments :=
    Segmenter.parseScriptToSegments upperNonAscii randomId
                                    hostName expertName fullText in
  Contiguous segments /\ PositiveDurations segments.
Proof.
  intros segments. apply TimelineFacts.Contiguous_of_Chain.
  unfold segments, Segmenter.parseScriptToSegments.
  apply (SegmenterFacts.fold_left_preserves
           timed
           (Segmenter.processBlock upperNonAscii randomId hostName expertName)).
  - intros a b. apply SegmenterFacts.processBlock_timed.
  - split; [exact I | reflexivity].
Qed.

(** C9, as the claim states it, fails: in a script whose markers go from
    page 2 back to page 1 the first segment has slide index 1 and the
    second has slide index 0. *)
Lemma slide_index_counterexample :
  ~ SlideIndexMonotone
      (Segmenter.parseScriptToSegments noFolding constantId
                                       (lit "Host") (lit "Expert")
                                       backwardScript).
Proof.
  intros H.
  specialize (H 0%nat _ _ eq_refl eq_refl). vm_compute in H. now apply H.
Qed.

(** C9, amended. When the page numbers the Segmenter reads from the script
    appear in non-decreasing order, the slide indices of its output never
    decrease. *)
Theorem segmenter_slide_index_monotone
        (upperNonAscii : N -> N) (randomId : nat -> str)
        (fullText hostName expertName : str) :
  NonDecreasing (pageNumbers (Segmenter.slideBlocks upperNonAscii fullText)) ->
  SlideIndexMonotone
    (Segmenter.parseScriptToSegments upperNonAscii randomId
                                     hostName expertName fullText).
Proof.
  intros Hn. unfold Segmenter.parseScriptToSegments.
  destruct (SegmenterFacts.processBlocks_ordered
              upperNonAscii randomId hostName expertName
              (Segmenter.slideBlocks upperNonAscii fullText)
              0%Z Segmenter.initial) as (c & _ & Hm & _); trivial.
  - repeat split; intros [|i] a; try discriminate.
  - intros p _. lia.
Qed.

Lemma segmenter_slide_index_monotone_witness :
  NonDecreasing (pageNumbers (Segmenter.slideBlocks noFolding demoScript))
  /\ SlideIndexMonotone
       (Segmenter.parseScriptToSegments noFolding constantId
                                        (lit "Host") (lit "Expert") demoScript).
Proof.
  assert (H : NonDecreasing
                (pageNumbers (Segmenter.slideBlocks noFolding demoScript))).
  { intros [|[|i]] a b Ha Hb; vm_compute in Ha, Hb; try discriminate.
    injection Ha as <-. injection Hb as <-. discriminate. }
  split; [exact H|].
  exact (segmenter_slide_index_monotone noFolding constantId demoScript
                                        (lit "Host") (lit "Expert") H).
Defined.

(* ================================================================= *)
(** ** Synthesis Client *)

Module SynthesisFacts.
Import Synthesis.

Lemma countRequests_app w w' :
  countRequests (w ++ w') = (countRequests w + countRequests w')%nat.
Proof. unfold countRequests. now rewrite filter_app, length_app. Qed.

(** Counts the requests of a log built by appending events. *)
Ltac count_requests :=
  cbn; unfold countRequests;
  repeat rewrite filter_app; repeat rewrite length_app; simpl; lia.

Lemma dropWhile_nil p s : dropWhile p s = [] <-> forallb p s = true.
Proof.
  induction s as [|c s IH]; simpl; [easy|].
  destruct (p c); simpl; [exact IH | easy].
Qed.

Lemma dropWhile_head p s c s' : dropWhile p s = c :: s' -> p c = false.
Proof.
  induction s as [|x s IH]; simpl; [discriminate|].
  destruct (p x) eqn:E; [exact IH|]. now intros [= <- _].
Qed.

(** A string trims to nothing exactly when it is white space throughout. *)
Lemma trim_nil s : trim s = [] <-> forallb isWhiteSpace s = true.
Proof.
  unfold trim, trimStart. rewrite <- dropWhile_nil. split.
  - intros H. destruct (dropWhile isWhiteSpace s) as [|c s'] eqn:E; trivial.
    exfalso. apply dropWhile_head in E.
    apply (f_equal (@rev N)) in H. rewrite rev_involutive in H. simpl in H.
    apply dropWhile_nil in H. simpl in H. rewrite forallb_app in H.
    simpl in H. rewrite E in H.
    now rewrite andb_false_r in H.
  - intros ->. reflexivity.
Qed.

Section ClientFacts.

Variable provider : nat -> str -> str -> Response.
Variable atob : str -> option (list N).
Variable random : nat -> Q.

(** Every pass through the [try] block issues exactly one request. *)
Lemma requestOnce_requests text voice w :
  countRequests (snd (requestOnce provider atob text voice w))
  = S (countRequests w).
Proof.
  unfold requestOnce.
  destruct (provider _ _ _) as [base64Audio textPart | e];
    [|count_requests].
  destruct base64Audio as [[|c b64]|].
  - destruct textPart as [[|? ?]|]; count_requests.
  - unfold tryFinally, throw, ret, emit.
    destruct (atob (c :: b64)) as [bytes|].
    + destruct (Pcm.decodeAudioData bytes); count_requests.
    + count_requests.
  - destruct textPart as [[|? ?]|]; count_requests.
Qed.

(** A transient failure of the provider is what the [try] block throws. *)
Lemma requestOnce_transient text voice w :
  transient (provider (countRequests w) (promptFor text) voice) = true ->
  exists e,
    provider (countRequests w) (promptFor text) voice = Failure e
    /\ (isRateLimit (ApiFailure e) || isServerBusy (ApiFailure e)) = true
    /\ requestOnce provider atob text voice w
       = (Throw (ApiFailure e), w ++ [EvRequest (promptFor text) voice]).
Proof.
  unfold requestOnce.
  destruct (provider _ _ _) as [d tp | e]; simpl; [discriminate|].
  intros H. now exists e.
Qed.

(** A decodable payload is what the [try] block returns. *)
Lemma requestOnce_audio text voice w audio :
  audioOf atob (provider (countRequests w) (promptFor text) voice)
  = Some audio ->
  requestOnce provider atob text voice w
  = (Ok audio,
     w ++ [EvRequest (promptFor text) voice]
       ++ [EvContextOpen] ++ [EvContextClose]).
Proof.
  unfold requestOnce, audioOf.
  destruct (provider _ _ _) as [[[|c b64]|] tp | e]; try discriminate.
  unfold tryFinally.
  destruct (atob (c :: b64)) as [bytes|]; [|discriminate].
  destruct (Pcm.decodeAudioData bytes); [|discriminate].
  intros [= <-]. simpl. now rewrite <- !app_assoc.
Qed.

(** A response without audio makes the [try] block throw an [Error]. *)
Lemma requestOnce_noAudio text voice w :
  noAudio (provider (countRequests w) (promptFor text) voice) = true ->
  requestOnce provider atob text voice w
  = (Throw (JsError
              (noAudioMessage
                 (provider (countRequests w) (promptFor text) voice))),
     w ++ [EvRequest (promptFor text) voice]).
Proof.
  unfold requestOnce, noAudio, noAudioMessage, quoted, substring0.
  destruct (provider _ _ _) as [[[|c b64]|] [[|t tp]|] | e];
    try discriminate; intros _; now rewrite <- ?app_assoc.
Qed.

(** One round of the loop. *)
Lemma attemptLoop_round fuel text voice attempt w :
  attemptLoop provider atob random (S fuel) text voice attempt w
  = match requestOnce provider atob text voice w with
    | (Ok audio, w1) => (Ok audio, w1)
    | (Throw error, w1) =>
        if (isRateLimit error || isServerBusy error)
           && (S attempt <=? maxRetries)%nat
        then
          attemptLoop provider atob random fuel text voice (S attempt)
            (w1 ++ [EvSleep (inject_Z (2 ^ Z.of_nat (S attempt)) * 1000
                             + random (length w1) * 1000)])
        else (Throw error, w1)
    end.
Proof. reflexivity. Qed.

(** While the provider fails transiently and the retry budget lasts, the
    loop goes round, one request for each failure. *)
Lemma attemptLoop_retries text voice j : forall fuel attempt w,
  (forall i, (i < j)%nat ->
     transient (provider (countRequests w + i) (promptFor text) voice)
     = true) ->
  (attempt + j <= maxRetries)%nat ->
  exists w',
    countRequests w' = (countRequests w + j)%nat
    /\ attemptLoop provider atob random (j + fuel) text voice attempt w
       = attemptLoop provider atob random fuel text voice (attempt + j) w'.
Proof.
  induction j as [|j IH]; intros fuel attempt w Hf Ha.
  - exists w. now rewrite !Nat.add_0_r.
  - assert (H0 : transient (provider (countRequests w) (promptFor text) voice)
                 = true).
    { rewrite <- (Nat.add_0_r (countRequests w)). apply Hf. lia. }
    destruct (requestOnce_transient text voice w H0) as (e & Ee & Et & Er).
    set (w1 := w ++ [EvRequest (promptFor text) voice]) in *.
    set (delay := inject_Z (2 ^ Z.of_nat (S attempt)) * 1000
                  + random (length w1) * 1000).
    destruct (IH fuel (S attempt) (w1 ++ [EvSleep delay])) as (w' & Ec & El).
    + intros i Hi.
      replace (countRequests (w1 ++ [EvSleep delay]) + i)%nat
        with (countRequests w + S i)%nat.
      * apply Hf. lia.
      * unfold w1. count_requests.
    + lia.
    + exists w'. split.
      * rewrite Ec. unfold w1. count_requests.
      * change (S j + fuel)%nat with (S (j + fuel)).
        rewrite attemptLoop_round, Er, Et.
        replace (S attempt <=? maxRetries)%nat with true
          by (symmetry; apply Nat.leb_le; lia).
        cbv beta iota. change (true && true) with true. cbv iota.
        fold delay. rewrite El. f_equal. lia.
Qed.

(** The outcome of the call when the provider fails transiently [k]
    times and then answers with audio. *)
Lemma attemptLoop_recovers text voice k fuel w audio :
  (forall i, (i < k)%nat ->
     transient (provider (countRequests w + i) (promptFor text) voice)
     = true) ->
  audioOf atob (provider (countRequests w + k) (promptFor text) voice)
  = Some audio ->
  (k <= maxRetries)%nat -> (k < fuel)%nat ->
  exists w',
    generateSingleSpeakerAudio provider atob random fuel text voice w
    = (Ok audio, w')
    /\ countRequests w' = (countRequests w + k + 1)%nat.
Proof.
  intros Hf Hs Hk Hfuel. unfold generateSingleSpeakerAudio.
  destruct (attemptLoop_retries text voice k (fuel - k) 0 w Hf Hk)
    as (w' & Ec & El).
  replace (k + (fuel - k))%nat with fuel in El by lia. rewrite El.
  destruct (fuel - k)%nat as [|f] eqn:F; [lia|].
  rewrite attemptLoop_round. rewrite <- Ec in Hs.
  rewrite (requestOnce_audio text voice w' audio Hs).
  eexists. split; [reflexivity|].
  rewrite !countRequests_app, Ec. cbn. lia.
Qed.

(** The outcome of the call when the provider fails transiently more
    often than the retry budget allows. *)
Lemma attemptLoop_gives_up text voice fuel w :
  (forall i, (i <= maxRetries)%nat ->
     transient (provider (countRequests w + i) (promptFor text) voice)
     = true) ->
  (maxRetries < fuel)%nat ->
  exists e w',
    provider (countRequests w + maxRetries) (promptFor text) voice
    = Failure e
    /\ generateSingleSpeakerAudio provider atob random fuel text voice w
       = (Throw (ApiFailure e), w')
    /\ countRequests w' = (countRequests w + maxRetries + 1)%nat.
Proof.
  intros Hf Hfuel. unfold generateSingleSpeakerAudio.
  destruct (attemptLoop_retries text voice maxRetries (fuel - maxRetries)
                                0 w) as (w' & Ec & El).
  { intros i Hi. apply Hf. lia. }
  { lia. }
  replace (maxRetries + (fuel - maxRetries))%nat with fuel in El by lia.
  rewrite El.
  destruct (fuel - maxRetries)%nat as [|f] eqn:F; [lia|].
  rewrite attemptLoop_round.
  specialize (Hf maxRetries (Nat.le_refl _)). rewrite <- Ec in Hf.
  destruct (requestOnce_transient text voice w' Hf) as (e & Ee & Et & Er).
  rewrite Er, Et. cbn [Nat.add].
  exists e. eexists. rewrite <- Ec. split; [exact Ee|].
  split; [reflexivity|]. rewrite !countRequests_app. cbn. lia.
Qed.

(** One step of the Sequencer's loop. *)
Lemma synthesizeAll_cons fuel hostVoice expertVoice segment more st w :
  synthesizeAll provider atob random fuel hostVoice expertVoice
                (segment :: more) st w
  = match trim (text segment) with
    | [] =>
        synthesizeAll provider atob random fuel hostVoice expertVoice
                      more st w
    | (_ :: _) as text =>
        let voiceName :=
          match speaker segment with
          | Host => hostVoice
          | Expert => expertVoice
          end in
        let w0 :=
          match audioBuffers st with
          | [] => w
          | _ :: _ => w ++ [EvSleep 1000]
          end in
        match generateSingleSpeakerAudio provider atob random fuel
                                         text voiceName w0 with
        | (Ok audioResult, w1) =>
            synthesizeAll provider atob random fuel hostVoice expertVoice
              more
              (mkSeq (audioBuffers st ++ [buffer audioResult])
                     (finalSegments st ++
                        [stamp segment (currentOffset st)
                               (currentOffset st
                                + Pcm.duration (buffer audioResult))])
                     (currentOffset st
                      + Pcm.duration (buffer audioResult)))
              w1
        | (Throw e, w1) => (Throw e, w1)
        end
    end.
Proof.
  cbn [synthesizeAll]. destruct (trim (text segment)); [reflexivity|].
  unfold bind, sleep, emit, ret.
  destruct (audioBuffers st); cbn beta iota zeta;
    destruct (generateSingleSpeakerAudio _ _ _ _ _ _ _) as [[? | ?] ?];
    reflexivity.
Qed.

(** Units with blank text pass through the loop without any effect. *)
Lemma synthesizeAll_blank fuel hostVoice expertVoice merged : forall st w,
  Forall (fun s => trim (text s) = []) merged ->
  synthesizeAll provider atob random fuel hostVoice expertVoice merged st w
  = (Ok st, w).
Proof.
  induction merged as [|segment more IH]; intros st w H; [reflexivity|].
  inversion H as [|? ? Hb Hm]; subst.
  rewrite synthesizeAll_cons, Hb. now apply IH.
Qed.

(** What a successful pass of the loop adds to its state: one stamped
    segment and one buffer for each unit whose text is not blank. *)
Lemma synthesizeAll_ok fuel hostVoice expertVoice merged :
  forall st w st' w',
    synthesizeAll provider atob random fuel hostVoice expertVoice
                  merged st w = (Ok st', w') ->
    exists segs bufs,
      finalSegments st' = finalSegments st ++ segs
      /\ audioBuffers st' = audioBuffers st ++ bufs
      /\ map untimed segs = map untimed (filter spoken merged)
      /\ StampedFrom (currentOffset st) segs bufs.
Proof.
  induction merged as [|segment more IH]; intros st w st' w' H.
  - injection H as <- <-. exists [], []. now rewrite !app_nil_r.
  - rewrite synthesizeAll_cons in H. simpl filter. unfold spoken at 1.
    destruct (trim (text segment)) as [|c rest] eqn:T.
    + now apply IH in H.
    + cbv zeta in H.
      destruct (generateSingleSpeakerAudio _ _ _ _ _ _ _)
        as [[audioResult|e] w1]; [|discriminate].
      apply IH in H. destruct H as (segs & bufs & Hs & Hb & Hu & Hst).
      cbn [finalSegments audioBuffers currentOffset] in Hs, Hb, Hst.
      exists (stamp segment (currentOffset st)
                    (currentOffset st + Pcm.duration (buffer audioResult))
              :: segs), (buffer audioResult :: bufs).
      rewrite Hs, Hb, <- !app_assoc. repeat split; trivial.
      simpl. now rewrite Hu.
Qed.

(** With a provider that answers every request with audio, the loop
    succeeds with one request for each unit whose text is not blank. *)
Lemma synthesizeAll_steady fuel hostVoice expertVoice merged :
  (forall n prompt voice, audioOf atob (provider n prompt voice) <> None) ->
  fuel <> 0%nat ->
  forall st w,
    exists st' w',
      synthesizeAll provider atob random fuel hostVoice expertVoice
                    merged st w = (Ok st', w')
      /\ countRequests w'
         = (countRequests w + length (filter spoken merged))%nat.
Proof.
  intros Hp Hfuel.
  induction merged as [|segment more IH]; intros st w.
  - exists st, w. split; [reflexivity | simpl; lia].
  - rewrite synthesizeAll_cons. simpl filter. unfold spoken at 1.
    destruct (trim (text segment)) as [|c rest] eqn:T; [apply IH|].
    cbv zeta.
    set (voiceName := match speaker segment with
                      | Host => hostVoice | Expert => expertVoice end).
    set (w0 := match audioBuffers st with
               | [] => w | _ :: _ => w ++ [EvSleep 1000] end).
    assert (E0 : countRequests w0 = countRequests w).
    { unfold w0. destruct (audioBuffers st); [reflexivity|count_requests]. }
    destruct (audioOf atob (provider (countRequests w0 + 0)
                                     (promptFor (c :: rest)) voiceName))
      as [audio|] eqn:A; [|now apply Hp in A].
    destruct (attemptLoop_recovers (c :: rest) voiceName 0 fuel w0 audio)
      as (w1 & Er & Ec); trivial; try lia.
    rewrite Er.
    destruct (IH (mkSeq (audioBuffers st ++ [buffer audio])
                        (finalSegments st ++
                           [stamp segment (currentOffset st)
                                  (currentOffset st
                                   + Pcm.duration (buffer audio))])
                        (currentOffset st + Pcm.duration (buffer audio)))
                 w1) as (st' & w' & Es & Ecount).
    exists st', w'. split; [exact Es|]. rewrite Ecount, Ec, E0.
    simpl. lia.
Qed.

(** The Sequencer around its loop. *)
Lemma generateSequencedSpeech_unfold fuel raw hostVoice expertVoice w :
  generateSequencedSpeech provider atob random fuel raw hostVoice
                          expertVoice w
  = match synthesizeAll provider atob random fuel hostVoice expertVoice
                        (Merger.mergeSegments raw) (mkSeq [] [] 0)
                        (w ++ [EvContextOpen]) with
    | (Ok st, w1) =>
        match audioBuffers st with
        | [] => (Throw (JsError (lit "No audio generated.")),
                 w1 ++ [EvContextClose])
        | _ :: _ =>
            (Ok (mkAudio
                   (Pcm.concatenateAudioBuffers (audioBuffers st))
                   (Pcm.int16Bytes
                      (Pcm.encode
                         (Pcm.channelData
                            (Pcm.concatenateAudioBuffers
                               (audioBuffers st))))),
                 finalSegments st),
             w1 ++ [EvContextClose])
        end
    | (Throw e, w1) => (Throw e, w1 ++ [EvContextClose])
    end.
Proof.
  unfold generateSequencedSpeech, bind, tryFinally, emit, throw, ret.
  cbv beta iota zeta.
  destruct (synthesizeAll _ _ _ _ _ _ _ _ _) as [[st|e] w1];
    [|reflexivity].
  destruct (audioBuffers st); reflexivity.
Qed.

(** The [try] block throws errors of the provider and [Error] objects,
    and the loop, given fuel beyond the retry budget, nothing else:
    the call returns. *)
Lemma requestOnce_returns text voice w :
  fst (requestOnce provider atob text voice w) <> Throw Diverged.
Proof.
  unfold requestOnce.
  destruct (provider _ _ _) as [[[|c b64]|] [[|t tp]|] | e];
    try discriminate;
    unfold tryFinally, throw, ret, emit;
    (destruct (atob (c :: b64)) as [bytes|]; [|discriminate]);
    unfold Pcm.decodeAudioData;
    (destruct (Pcm.int16View bytes) as [[|? ?]|]; discriminate).
Qed.

Lemma attemptLoop_returns text voice fuel : forall attempt w,
  (attempt <= maxRetries)%nat -> (maxRetries < fuel + attempt)%nat ->
  fst (attemptLoop provider atob random fuel text voice attempt w)
  <> Throw Diverged.
Proof.
  induction fuel as [|fuel IH]; intros attempt w Ha Hf; [lia|].
  rewrite attemptLoop_round.
  pose proof (requestOnce_returns text voice w) as R.
  destruct (requestOnce provider atob text voice w) as [[audio|error] w1];
    [discriminate|].
  destruct (isRateLimit error || isServerBusy error); [|exact R].
  destruct (S attempt <=? maxRetries)%nat eqn:E; [|exact R].
  apply Nat.leb_le in E. apply IH; lia.
Qed.

End ClientFacts.

(** Merging keeps blank text blank. *)
Lemma mergeLoop_blank rest : forall current,
  trim (text current) = [] ->
  Forall (fun s => trim (text s) = []) rest ->
  Forall (fun s => trim (text s) = []) (Merger.mergeLoop current rest).
Proof.
  induction rest as [|next rest IH]; intros current Hc Hr; simpl.
  - now constructor.
  - inversion Hr as [|? ? Hn Hr']; subst.
    destruct (Merger.sameRun next current).
    + apply IH; trivial. apply trim_nil. cbn [Merger.appendText text].
      apply trim_nil in Hc, Hn. rewrite !forallb_app, Hc, Hn. reflexivity.
    + constructor; trivial. now apply IH.
Qed.

(** Stamped segments are contiguous from the time of the first stamp. *)
Lemma StampedFrom_indexed segs : forall t bufs,
  StampedFrom t segs bufs ->
  (forall s, nth_error segs 0 = Some s -> startTime s = t)
  /\ (forall i a b,
         nth_error segs i = Some a -> nth_error segs (S i) = Some b ->
         endTime a = startTime b).
Proof.
  induction segs as [|s segs IH]; intros t bufs H.
  - split; [intros s | intros [|i] a b]; discriminate.
  - destruct bufs as [|buf bufs]; [contradiction|].
    destruct H as (Hs & He & Hr). destruct (IH _ _ Hr) as [I0 Ic].
    split.
    + now intros x [= <-].
    + intros [|i] a b Ha Hb; simpl in Ha, Hb.
      * injection Ha as <-. rewrite He. symmetry. now apply I0.
      * exact (Ic i a b Ha Hb).
Qed.

End SynthesisFacts.

(** The synthesis call returns: with fuel beyond the retry budget the loop
    never runs out of it. *)
Lemma generateSingleSpeakerAudio_returns provider atob random fuel text voice w :
  (Synthesis.maxRetries < fuel)%nat ->
  fst (Synthesis.generateSingleSpeakerAudio provider atob random fuel
                                            text voice w)
  <> Throw Diverged.
Proof.
  intros H. apply SynthesisFacts.attemptLoop_returns; lia.
Qed.

(** C2, as the claim states it, fails: when the provider fails with a
    rate-limit error exactly 10 times and then answers with audio, the call
    does not fail after 10 requests; it returns the audio, having issued 11
    requests. *)
Lemma retry_counterexample :
  ~ (exists e w',
        Synthesis.generateSingleSpeakerAudio
          (flakyProvider 10) plainAtob noJitter 20 (lit "Hi") (lit "Kore") []
        = (Throw e, w')
        /\ countRequests w' = 10%nat).
Proof.
  intros (e & w' & H & _). vm_compute in H. discriminate.
Qed.

(** C2, amended. When the provider fails with a transient error exactly [k]
    times and then answers with audio, and [k] is at most 10, the call
    returns that audio having issued exactly [k + 1] requests; when the
    provider fails transiently 11 times or more, the call fails with the
    provider's error of the 11th request, having issued exactly 11
    requests (the first attempt and 10 retries). *)
Theorem retry_policy provider atob random fuel text voice w k :
  let run :=
    Synthesis.generateSingleSpeakerAudio provider atob random fuel
                                         text voice w in
  let answer i :=
    provider (countRequests w + i)%nat (Synthesis.promptFor text) voice in
  (10 < fuel)%nat ->
  (forall i, (i < k)%nat -> transient (answer i) = true) ->
  ((k <= 10)%nat -> audioOf atob (answer k) <> None) ->
  ((k <= 10)%nat ->
     exists audio,
       audioOf atob (answer k) = Some audio
       /\ fst run = Ok audio
       /\ countRequests (snd run) = (countRequests w + k + 1)%nat)
  /\ ((10 < k)%nat ->
        exists e,
          answer 10%nat = Synthesis.Failure e
          /\ fst run = Throw (ApiFailure e)
          /\ countRequests (snd run) = (countRequests w + 11)%nat).
Proof.
  intros run answer Hfuel Hfail Hok. split; intros Hk.
  - destruct (audioOf atob (answer k)) as [audio|] eqn:A;
      [|now elim (Hok Hk)].
    destruct (SynthesisFacts.attemptLoop_recovers
                provider atob random text voice k fuel w audio)
      as (w' & Er & Ec); trivial; try (unfold Synthesis.maxRetries; lia).
    exists audio. unfold run. rewrite Er. now repeat split.
  - destruct (SynthesisFacts.attemptLoop_gives_up
                provider atob random text voice fuel w)
      as (e & w' & Ee & Er & Ec).
    + intros i Hi. apply Hfail. unfold Synthesis.maxRetries in Hi. lia.
    + exact Hfuel.
    + exists e. unfold run. rewrite Er. repeat split; trivial.
      cbn [snd]. rewrite Ec. unfold Synthesis.maxRetries. lia.
Qed.

Lemma retry_policy_witness :
  fst (Synthesis.generateSingleSpeakerAudio
         (flakyProvider 3) plainAtob noJitter 11 (lit "Hi") (lit "Kore") [])
  = Ok (Synthesis.mkAudio
          (Pcm.mkBuffer (Pcm.decode [16384; -16384]%Z) 24000) twoSamples)
  /\ countRequests
       (snd (Synthesis.generateSingleSpeakerAudio
               (flakyProvider 3) plainAtob noJitter 11
               (lit "Hi") (lit "Kore") []))
     = 4%nat.
Proof.
  destruct (retry_policy (flakyProvider 3) plainAtob noJitter 11
                         (lit "Hi") (lit "Kore") [] 3) as [A _].
  - lia.
  - intros [|[|[|i]]] Hi; try reflexivity; lia.
  - intros _. vm_compute. discriminate.
  - destruct A as (audio & Ea & Er & Ec); [lia|].
    vm_compute in Ea. injection Ea as <-. split; [exact Er | exact Ec].
Defined.

(** C3. When the provider's response carries no audio payload, whether it
    carries text instead or nothing, the synthesis call fails with an error
    after that one request: the log grows by this request alone, so no
    retry request and no pause follows. *)
Theorem no_audio_fails_immediately provider atob random fuel text voice w :
  let response :=
    provider (countRequests w) (Synthesis.promptFor text) voice in
  fuel <> 0%nat ->
  noAudio response = true ->
  Synthesis.generateSingleSpeakerAudio provider atob random fuel text voice w
  = (Throw (JsError (noAudioMessage response)),
     w ++ [EvRequest (Synthesis.promptFor text) voice]).
Proof.
  intros response Hfuel Hno.
  destruct fuel as [|fuel]; [congruence|].
  unfold Synthesis.generateSingleSpeakerAudio.
  rewrite SynthesisFacts.attemptLoop_round.
  rewrite (SynthesisFacts.requestOnce_noAudio provider atob text voice w Hno).
  reflexivity.
Qed.

Lemma no_audio_fails_immediately_witness :
  Synthesis.generateSingleSpeakerAudio
    textProvider plainAtob noJitter 11 (lit "Hi") (lit "Kore") []
  = (Throw (JsError
              (lit "Model returned text instead of audio: "
               ++ [34%N] ++ lit "Sure, here it is...." ++ [34%N])),
     [EvRequest
        (lit "Please read the following text exactly as written: "
         ++ [34%N] ++ lit "Hi" ++ [34%N])
        (lit "Kore")]).
Proof.
  apply (no_audio_fails_immediately
           textProvider plainAtob noJitter 11 (lit "Hi") (lit "Kore") []).
  - discriminate.
  - reflexivity.
Defined.

(** C10. When the text of every input segment is blank (white space only
    or empty), which includes the empty list, the Sequencer fails with the
    error "No audio generated." and issues no request: it only opens and
    closes its audio context. *)
Theorem blank_script_generates_nothing
        provider atob random fuel rawSegments hostVoice expertVoice w :
  (forall s, In s rawSegments -> trim (text s) = []) ->
  let run :=
    Synthesis.generateSequencedSpeech provider atob random fuel rawSegments
                                      hostVoice expertVoice w in
  run = (Throw (JsError (lit "No audio generated.")),
         w ++ [EvContextOpen] ++ [EvContextClose])
  /\ countRequests (snd run) = countRequests w.
Proof.
  intros Hblank run.
  assert (E : run = (Throw (JsError (lit "No audio generated.")),
                     w ++ [EvContextOpen] ++ [EvContextClose])).
  { unfold run. rewrite SynthesisFacts.generateSequencedSpeech_unfold.
    rewrite SynthesisFacts.synthesizeAll_blank.
    - cbn [Synthesis.audioBuffers]. now rewrite <- app_assoc.
    - destruct rawSegments as [|first rest]; [constructor|].
      apply SynthesisFacts.mergeLoop_blank.
      + apply Hblank. now left.
      + apply Forall_forall. intros s Hs. apply Hblank. now right. }
  split; [exact E|]. rewrite E. cbn [snd].
  rewrite !SynthesisFacts.countRequests_app. cbn. lia.
Qed.

Lemma blank_script_generates_nothing_witness :
  Synthesis.generateSequencedSpeech
    steadyProvider plainAtob noJitter 11 blankSegments
    (lit "Kore") (lit "Puck") []
  = (Throw (JsError (lit "No audio generated.")),
     [EvContextOpen; EvContextClose]).
Proof.
  apply (blank_script_generates_nothing
           steadyProvider plainAtob noJitter 11 blankSegments
           (lit "Kore") (lit "Puck") []).
  intros s [<- | []]. reflexivity.
Defined.

(* ================================================================= *)
(** ** The audio of a unit is the provider's answer to its request *)

Module AnswerFacts.
Import Synthesis.

Section AnyProvider.

Variable provider : nat -> str -> str -> Response.
Variable atob : str -> option (list N).
Variable random : nat -> Q.

(** What the [try] block returns is the decoded payload of the response. *)
Lemma requestOnce_ok_inv text voice w audio w1 :
  requestOnce provider atob text voice w = (Ok audio, w1) ->
  audioOf atob (provider (countRequests w) (promptFor text) voice)
  = Some audio.
Proof.
  unfold requestOnce, audioOf.
  destruct (provider _ _ _) as [[[|c b64]|] tp | e]; try discriminate.
  - destruct tp as [[|? ?]|]; discriminate.
  - unfold tryFinally, throw, ret, emit.
    destruct (atob (c :: b64)) as [bytes|]; [|discriminate].
    destruct (Pcm.decodeAudioData bytes); [|discriminate].
    cbn. now intros [= <- _].
  - destruct tp as [[|? ?]|]; discriminate.
Qed.

(** Only a failure of the provider that is a rate limit or a server-busy
    condition is classified as such: the errors the [try] block raises
    itself are not. *)
Lemma requestOnce_retry_inv text voice w error w1 :
  requestOnce provider atob text voice w = (Throw error, w1) ->
  (isRateLimit error || isServerBusy error) = true ->
  transient (provider (countRequests w) (promptFor text) voice) = true.
Proof.
  unfold requestOnce, transient.
  destruct (provider _ _ _) as [[[|c b64]|] tp | e].
  - destruct tp as [[|? ?]|]; intros [= <- _]; discriminate.
  - unfold tryFinally, throw, ret, emit.
    destruct (atob (c :: b64)) as [bytes|].
    + unfold Pcm.decodeAudioData.
      destruct (Pcm.int16View bytes) as [[|? ?]|];
        cbn; intros [= <- _]; discriminate.
    + cbn. intros [= <- _]. discriminate.
  - destruct tp as [[|? ?]|]; intros [= <- _]; discriminate.
  - now intros [= <- _].
Qed.

(** A call that succeeds returns the provider's first answer that is not
    a transient failure. *)
Lemma attemptLoop_answered text voice fuel : forall attempt w audio w',
  attemptLoop provider atob random fuel text voice attempt w
  = (Ok audio, w') ->
  exists n,
    (countRequests w <= n)%nat
    /\ (forall m, (countRequests w <= m < n)%nat ->
          transient (provider m (promptFor text) voice) = true)
    /\ audioOf atob (provider n (promptFor text) voice) = Some audio
    /\ countRequests w' = S n.
Proof.
  induction fuel as [|fuel IH]; intros attempt w audio w' H; [discriminate|].
  rewrite SynthesisFacts.attemptLoop_round in H.
  pose proof (SynthesisFacts.requestOnce_requests
                provider atob text voice w) as R.
  destruct (requestOnce provider atob text voice w) as [[a|error] w1] eqn:E.
  - injection H as <- <-. cbn [snd] in R.
    exists (countRequests w). repeat split; trivial; [lia|].
    exact (requestOnce_ok_inv _ _ _ _ _ E).
  - cbn [snd] in R.
    destruct (isRateLimit error || isServerBusy error) eqn:T;
      [|discriminate].
    destruct (S attempt <=? maxRetries)%nat; [|discriminate].
    cbn [andb] in H. apply IH in H.
    destruct H as (n & Hle & Hm & Ha & Hc).
    rewrite SynthesisFacts.countRequests_app in Hle, Hm.
    cbn [countRequests filter isRequest length] in Hle, Hm.
    rewrite Nat.add_0_r, R in Hle, Hm.
    exists n. repeat split; trivial; [lia|].
    intros m Hr. destruct (Nat.eq_dec m (countRequests w)) as [-> | Hn].
    + exact (requestOnce_retry_inv _ _ _ _ _ E T).
    + apply Hm. lia.
Qed.

(** A successful pass of the Sequencer's loop: the segments it adds are
    stamped with the durations of the audio the provider answered for
    their units. *)
Lemma synthesizeAll_answered fuel hostVoice expertVoice merged :
  forall st w st' w',
    synthesizeAll provider atob random fuel hostVoice expertVoice
                  merged st w = (Ok st', w') ->
    exists segs audios,
      finalSegments st' = finalSegments st ++ segs
      /\ audioBuffers st' = audioBuffers st ++ map buffer audios
      /\ map untimed segs = map untimed (filter spoken merged)
      /\ StampedFrom (currentOffset st) segs (map buffer audios)
      /\ AnsweredFrom provider atob hostVoice expertVoice
                      (countRequests w) (filter spoken merged) audios.
Proof.
  induction merged as [|segment more IH]; intros st w st' w' H.
  - injection H as <- <-. exists [], []. now rewrite !app_nil_r.
  - rewrite SynthesisFacts.synthesizeAll_cons in H. simpl filter.
    unfold spoken at 1 4.
    destruct (trim (text segment)) as [|c rest] eqn:T.
    + now apply IH in H.
    + cbv zeta in H.
      set (voiceName := match speaker segment with
                        | Host => hostVoice | Expert => expertVoice end) in *.
      set (w0 := match audioBuffers st with
                 | [] => w | _ :: _ => w ++ [EvSleep 1000] end) in *.
      assert (E0 : countRequests w0 = countRequests w).
      { unfold w0. destruct (audioBuffers st); [reflexivity|].
        rewrite SynthesisFacts.countRequests_app. cbn. lia. }
      destruct (generateSingleSpeakerAudio _ _ _ _ _ _ _)
        as [[audioResult|e] w1] eqn:G; [|discriminate].
      apply attemptLoop_answered in G.
      destruct G as (n & Hle & Hm & Ha & Hc).
      apply IH in H. destruct H as (segs & audios & Hs & Hb & Hu & Hst & Hn).
      cbn [finalSegments audioBuffers currentOffset] in Hs, Hb, Hst.
      exists (stamp segment (currentOffset st)
                    (currentOffset st + Pcm.duration (buffer audioResult))
              :: segs), (audioResult :: audios).
      rewrite Hs, Hb, <- !app_assoc. cbn [map app].
      split; [reflexivity|]. split; [reflexivity|].
      split; [cbn; now rewrite Hu|]. split; [now repeat split|].
      cbn [AnsweredFrom]. unfold requestFor. rewrite T. cbn [fst snd].
      fold voiceName. exists n. rewrite E0 in Hle, Hm.
      rewrite Hc in Hn. repeat split; trivial.
Qed.

(** A successful run, in terms of the audio the provider answered for the
    units. *)
Lemma run_answered fuel raw hostVoice expertVoice w audio segs w' :
  generateSequencedSpeech provider atob random fuel raw hostVoice expertVoice w
  = (Ok (audio, segs), w') ->
  exists audios,
    AnsweredFrom provider atob hostVoice expertVoice (countRequests w)
                 (filter spoken (Merger.mergeSegments raw)) audios
    /\ map untimed segs
       = map untimed (filter spoken (Merger.mergeSegments raw))
    /\ StampedFrom 0 segs (map buffer audios)
    /\ buffer audio = Pcm.concatenateAudioBuffers (map buffer audios)
    /\ rawData audio
       = Pcm.int16Bytes (Pcm.encode (Pcm.channelData (buffer audio))).
Proof.
  rewrite SynthesisFacts.generateSequencedSpeech_unfold.
  destruct (synthesizeAll _ _ _ _ _ _ _ _ _) as [[st|e] w1] eqn:E;
    [|discriminate].
  apply synthesizeAll_answered in E.
  destruct E as (newSegs & audios & Es & Eb & Eu & Hst & Hn).
  cbn [finalSegments audioBuffers currentOffset app] in Es, Eb, Hst.
  rewrite SynthesisFacts.countRequests_app in Hn.
  cbn [countRequests filter isRequest length] in Hn.
  rewrite Nat.add_0_r in Hn.
  destruct (audioBuffers st) as [|b bs] eqn:A; [discriminate|].
  intros [= <- <- _]. exists audios. rewrite Es.
  split; [exact Hn|]. split; [exact Eu|]. split; [exact Hst|].
  split; [cbn [buffer]; now rewrite Eb | reflexivity].
Qed.

End AnyProvider.

End AnswerFacts.

(** C1, as the claim states it, fails: on the four segments of the concrete
    scenario, with a provider that answers every request with audio, the
    run succeeds and returns three segments, one for each merged unit, not
    one for each of the four input segments. *)
Lemma corrected_segments_counterexample :
  ~ (forall audio segs w',
        Synthesis.generateSequencedSpeech
          steadyProvider plainAtob noJitter 11 demoSegments
          (lit "Kore") (lit "Puck") []
        = (Ok (audio, segs), w') ->
        length segs = length demoSegments).
Proof.
  intros H.
  destruct (Synthesis.generateSequencedSpeech
              steadyProvider plainAtob noJitter 11 demoSegments
              (lit "Kore") (lit "Puck") []) as [[[audio segs]|e] w'] eqn:E.
  - specialize (H audio segs w' eq_refl).
    vm_compute in E. injection E as _ <- _. vm_compute in H. discriminate.
  - vm_compute in E. discriminate.
Qed.

(** C1, amended. For every successful run of the Sequencer, the returned
    segment list keeps the merged granularity: it has one segment for each
    merged unit whose text is not blank, in order, with that unit's
    identifier, slide index, speaker and merged text.  Each unit has its
    own audio: the decoded payload of the provider's first answer, to the
    request made for this unit, that is not a transient failure.  The
    segments are stamped with the real durations of the audio of their
    units, the first starting at 0, each ending its unit's duration after
    its start and the next starting there, so the list satisfies the
    contiguity invariant; and the returned audio is the concatenation of
    the units' audio. *)
Theorem corrected_segments_are_merged_units
        provider atob random fuel rawSegments hostVoice expertVoice
        w audio segs w' :
  Synthesis.generateSequencedSpeech provider atob random fuel rawSegments
                                    hostVoice expertVoice w
  = (Ok (audio, segs), w') ->
  let units := filter spoken (Merger.mergeSegments rawSegments) in
  map untimed segs = map untimed units
  /\ Contiguous segs
  /\ exists audios,
       AnsweredFrom provider atob hostVoice expertVoice
                    (countRequests w) units audios
       /\ StampedFrom 0 segs (map Synthesis.buffer audios)
       /\ Synthesis.buffer audio
          = Pcm.concatenateAudioBuffers (map Synthesis.buffer audios).
Proof.
  intros H units.
  destruct (AnswerFacts.run_answered
              provider atob random fuel rawSegments hostVoice expertVoice
              w audio segs w' H) as (audios & Hn & Eu & Hst & Eb & _).
  split; [exact Eu|]. split.
  - destruct (SynthesisFacts.StampedFrom_indexed _ _ _ Hst) as [H0 Hc].
    split.
    + intros s Hs. now rewrite (H0 s Hs).
    + intros i a c Ha Hc'. now rewrite (Hc i a c Ha Hc').
  - exists audios. split; [exact Hn|]. split; [exact Hst | exact Eb].
Qed.

Lemma corrected_segments_are_merged_units_witness :
  exists audio segs w',
    Synthesis.generateSequencedSpeech
      steadyProvider plainAtob noJitter 11 demoSegments
      (lit "Kore") (lit "Puck") []
    = (Ok (audio, segs), w')
    /\ map untimed segs
       = map untimed (filter spoken (Merger.mergeSegments demoSegments))
    /\ Contiguous segs
    /\ exists audios,
         AnsweredFrom steadyProvider plainAtob (lit "Kore") (lit "Puck") 0
                      (filter spoken (Merger.mergeSegments demoSegments))
                      audios
         /\ StampedFrom 0 segs (map Synthesis.buffer audios)
         /\ Synthesis.buffer audio
            = Pcm.concatenateAudioBuffers (map Synthesis.buffer audios).
Proof.
  destruct (Synthesis.generateSequencedSpeech
              steadyProvider plainAtob noJitter 11 demoSegments
              (lit "Kore") (lit "Puck") []) as [[[audio segs]|e] w'] eqn:E.
  - exists audio, segs, w'. split; [reflexivity|].
    exact (corrected_segments_are_merged_units
             steadyProvider plainAtob noJitter 11 demoSegments
             (lit "Kore") (lit "Puck") [] audio segs w' E).
  - vm_compute in E. discriminate.
Defined.

(** C6. For the script of the concrete scenario with the display names
    Host and Expert, the Segmenter returns exactly four segments, in the
    order given; the merge collapses the first two into one Host unit of
    slide 0 and returns three units; and with a provider that answers every
    request with audio the Sequencer succeeds having issued exactly three
    requests. *)
Theorem concrete_scenario
        upperNonAscii randomId provider atob random fuel
        hostVoice expertVoice w :
  let segments :=
    Segmenter.parseScriptToSegments upperNonAscii randomId
                                    (lit "Host") (lit "Expert") demoScript in
  (forall n prompt voice, audioOf atob (provider n prompt voice) <> None) ->
  fuel <> 0%nat ->
  map content segments
  = [ (0%Z, Host, lit "Hello."); (0%Z, Host, lit "Welcome.");
      (0%Z, Expert, lit "Hi there."); (1%Z, Host, lit "Let's continue.") ]
  /\ map content (Merger.mergeSegments segments)
     = [ (0%Z, Host, lit "Hello. Welcome."); (0%Z, Expert, lit "Hi there.");
         (1%Z, Host, lit "Let's continue.") ]
  /\ exists result w',
       Synthesis.generateSequencedSpeech provider atob random fuel segments
                                         hostVoice expertVoice w
       = (Ok result, w')
       /\ countRequests w' = (countRequests w + 3)%nat.
Proof.
  intros segments Hp Hfuel.
  split; [vm_compute; reflexivity|]. split; [vm_compute; reflexivity|].
  rewrite SynthesisFacts.generateSequencedSpeech_unfold.
  destruct (SynthesisFacts.synthesizeAll_steady
              provider atob random fuel hostVoice expertVoice
              (Merger.mergeSegments segments) Hp Hfuel
              (Synthesis.mkSeq [] [] 0) (w ++ [EvContextOpen]))
    as (st & w1 & Es & Ec).
  rewrite Es.
  apply SynthesisFacts.synthesizeAll_ok in Es.
  destruct Es as (segs & bufs & _ & Eb & Eu & Hst).
  assert (L : length segs = 3%nat).
  { rewrite <- (length_map untimed segs), Eu, length_map. reflexivity. }
  cbn [Synthesis.audioBuffers app] in Eb. rewrite Eb.
  assert (C : countRequests (w1 ++ [EvContextClose])
              = (countRequests w + 3)%nat).
  { rewrite SynthesisFacts.countRequests_app, Ec,
      SynthesisFacts.countRequests_app.
    replace (length (filter spoken (Merger.mergeSegments segments)))
      with 3%nat by reflexivity.
    cbn. lia. }
  destruct segs as [|s0 segs]; [discriminate|].
  destruct bufs as [|b0 bufs]; [contradiction|].
  eexists. eexists. split; [reflexivity | exact C].
Qed.

Lemma concrete_scenario_witness :
  exists result w',
    Synthesis.generateSequencedSpeech
      steadyProvider plainAtob noJitter 11 demoSegments
      (lit "Kore") (lit "Puck") []
    = (Ok result, w')
    /\ countRequests w' = 3%nat.
Proof.
  destruct (concrete_scenario noFolding constantId
                              steadyProvider plainAtob noJitter 11
                              (lit "Kore") (lit "Puck") []) as (_ & _ & H).
  - intros n prompt voice. vm_compute. discriminate.
  - discriminate.
  - exact H.
Defined.

(* ================================================================= *)
(** ** Further properties: Segment Merger *)

Module MergerMore.
Import Merger.

Lemma mergeLoop_length rest : forall current,
  (1 <= length (mergeLoop current rest) <= S (length rest))%nat.
Proof.
  induction rest as [|next rest IH]; intros current; simpl; [lia|].
  destruct (sameRun next current).
  - specialize (IH (appendText current next)). lia.
  - specialize (IH next). simpl. lia.
Qed.

Lemma joinText_cons a l :
  l <> [] -> joinText (a :: l) = a ++ lit " " ++ joinText l.
Proof. destruct l; [congruence | reflexivity]. Qed.

Lemma joinText_glue a b l :
  joinText ((a ++ lit " " ++ b) :: l) = joinText (a :: b :: l).
Proof.
  destruct l as [|c l]; [reflexivity|].
  rewrite !joinText_cons by discriminate. now rewrite <- !app_assoc.
Qed.

Lemma mergeLoop_joinText rest : forall current,
  joinText (map text (mergeLoop current rest))
  = joinText (text current :: map text rest).
Proof.
  induction rest as [|next rest IH]; intros current; [reflexivity|].
  simpl mergeLoop. destruct (sameRun next current).
  - rewrite IH. cbn [appendText text map]. apply joinText_glue.
  - cbn [map].
    rewrite (joinText_cons (text current) (text next :: map text rest))
      by discriminate.
    rewrite joinText_cons; [now rewrite IH|].
    pose proof (mergeLoop_length rest next) as L.
    destruct (mergeLoop next rest); [simpl in L; lia | discriminate].
Qed.

End MergerMore.

(** X1. Merging never yields more units than there are segments, and it
    yields no unit only for the empty list. *)
Theorem merge_never_longer (rawSegments : list ScriptSegment) :
  (length (Merger.mergeSegments rawSegments) <= length rawSegments)%nat
  /\ (Merger.mergeSegments rawSegments = [] <-> rawSegments = []).
Proof.
  destruct rawSegments as [|first rest]; [split; [simpl; lia | tauto]|].
  pose proof (MergerMore.mergeLoop_length rest first) as L.
  cbn [Merger.mergeSegments length]. split; [lia|].
  split; [|discriminate].
  intros E. rewrite E in L. simpl in L. lia.
Qed.

(** X2. Merging neither drops, reorders nor alters text: the texts of the
    merged units, joined by single spaces, are the texts of the input
    segments joined by single spaces. *)
Theorem merge_preserves_text (rawSegments : list ScriptSegment) :
  joinText (map text (Merger.mergeSegments rawSegments))
  = joinText (map text rawSegments).
Proof.
  destruct rawSegments as [|first rest]; [reflexivity|].
  apply MergerMore.mergeLoop_joinText.
Qed.

(** X3. The merge is maximal and minimal at once: no two neighbouring
    units of its output share speaker and slide index, and a list in which
    no two neighbours share them is returned unchanged. *)
Theorem merge_runs_are_maximal (rawSegments : list ScriptSegment) :
  NoAdjacentRun (Merger.mergeSegments rawSegments)
  /\ (NoAdjacentRun rawSegments ->
      Merger.mergeSegments rawSegments = rawSegments).
Proof.
  split.
  - apply MergerFacts.mergeSegments_NoAdjacentRun.
  - apply MergerFacts.mergeSegments_fixed.
Qed.

(* ================================================================= *)
(** ** Further properties: PCM codec and WAV container *)

Module PcmMore.
Import Pcm.

(** Induction over a list two elements at a time. *)
Lemma pair_induction {A} (P : list A -> Prop) :
  P [] -> (forall x, P [x]) -> (forall x y l, P l -> P (x :: y :: l)) ->
  forall l, P l.
Proof.
  intros H0 H1 H2 l.
  assert (G : P l /\ forall x, P (x :: l)).
  { induction l as [|y l [IH1 IH2]].
    - now split.
    - split; [apply IH2 | intros x; now apply H2]. }
  apply G.
Qed.

Lemma wrap16_range z : isInt16 (wrap16 z).
Proof.
  unfold isInt16, wrap16.
  pose proof (Z.mod_pos_bound (z + 32768) 65536). lia.
Qed.

Lemma byte_pair_of_wrap16 lo hi :
  isByte lo -> isByte hi ->
  let z := wrap16 (Z.of_N lo + 256 * Z.of_N hi) in
  Z.to_N (z mod 256) = lo /\ Z.to_N ((z / 256) mod 256) = hi.
Proof.
  unfold isByte, wrap16. intros Hl Hh.
  assert (L : (0 <= Z.of_N lo < 256)%Z) by lia.
  assert (H : (0 <= Z.of_N hi < 256)%Z) by lia.
  cbv zeta. split; apply N2Z.inj;
    (rewrite Z2N.id by (apply Z.mod_pos_bound; lia));
    remember (Z.of_N lo) as a; remember (Z.of_N hi) as b;
    clear Heqa Heqb Hl Hh;
    Z.div_mod_to_equations; lia.
Qed.

Lemma wrap16_of_byte_pair z :
  isInt16 z ->
  wrap16 (Z.of_N (Z.to_N (z mod 256))
          + 256 * Z.of_N (Z.to_N ((z / 256) mod 256))) = z.
Proof.
  unfold isInt16, wrap16. intros R.
  pose proof (Z.mod_pos_bound z 256).
  pose proof (Z.mod_pos_bound (z / 256) 256).
  rewrite !Z2N.id by lia.
  Z.div_mod_to_equations. lia.
Qed.

Lemma int16View_pair lo hi data :
  int16View (lo :: hi :: data)
  = match int16View data with
    | Some l => Some (wrap16 (Z.of_N lo + 256 * Z.of_N hi) :: l)
    | None => None
    end.
Proof. reflexivity. Qed.

Lemma int16Bytes_cons z l :
  int16Bytes (z :: l)
  = Z.to_N (z mod 256) :: Z.to_N ((z / 256) mod 256) :: int16Bytes l.
Proof. reflexivity. Qed.

Lemma int16View_spec : forall data,
  (Nat.even (length data) = true ->
   exists l, int16View data = Some l
             /\ length l = (length data / 2)%nat /\ Forall isInt16 l)
  /\ (Nat.even (length data) = false -> int16View data = None).
Proof.
  apply pair_induction.
  - split; [|discriminate]. intros _. now exists [].
  - intros x. split; [discriminate | reflexivity].
  - intros x y l [He Ho]. split; intros E.
    + destruct (He E) as (r & Er & Lr & Fr).
      exists (wrap16 (Z.of_N x + 256 * Z.of_N y) :: r).
      cbn [int16View]. rewrite Er. repeat split.
      * cbn [length]. rewrite Lr.
        change (S (S (length l))) with (1 * 2 + length l)%nat.
        rewrite Nat.div_add_l by lia. reflexivity.
      * constructor; [apply wrap16_range | exact Fr].
    + cbn [int16View]. now rewrite (Ho E).
Qed.

Lemma decodeSample_range n :
  isInt16 n -> -1 <= decodeSample n /\ decodeSample n < 1.
Proof.
  unfold isInt16, decodeSample. intros [L U].
  apply PcmFacts.inject_Z_le in L.
  assert (U' : inject_Z n <= inject_Z 32767)
    by now apply PcmFacts.inject_Z_le.
  change (inject_Z (-32768)) with (-32768) in L.
  change (inject_Z 32767) with 32767 in U'.
  assert (D : inject_Z n / 32768 == inject_Z n * (1 # 32768)) by reflexivity.
  rewrite D. split; lra.
Qed.

(** A decoded sample is in the unit interval, so it is encoded without
    clamping; the scale 32767 of the encoder then costs a positive sample
    one step. *)
Lemma encode_decodeSample n :
  isInt16 n ->
  encodeSample (decodeSample n) = if (0 <? n)%Z then (n - 1)%Z else n.
Proof.
  intros R. destruct (decodeSample_range n R) as [L U].
  assert (C : clamp (decodeSample n) == decodeSample n)
    by (apply PcmFacts.clamp_id; lra).
  assert (D : decodeSample n == inject_Z n * (1 # 32768)) by reflexivity.
  unfold isInt16 in R.
  destruct (Z.ltb_spec 0 n) as [P | P].
  - assert (P' : 0 < inject_Z n).
    { change 0 with (inject_Z 0). now rewrite <- Zlt_Qlt. }
    destruct (PcmFacts.encodeSample_nonneg (decodeSample n)) as [E _];
      [lra|].
    rewrite E.
    destruct (PcmFacts.truncate_nonneg (clamp (decodeSample n) * 32767))
      as [A B]; [lra|].
    set (k := truncate (clamp (decodeSample n) * 32767)) in *.
    assert (V : clamp (decodeSample n) * 32767
                == inject_Z n - inject_Z n * (1 # 32768)) by lra.
    assert (N1 : inject_Z n <= inject_Z 32767)
      by (apply PcmFacts.inject_Z_le; lia).
    change (inject_Z 32767) with 32767 in N1.
    assert (K1 : inject_Z k < inject_Z n) by lra.
    assert (K2 : inject_Z (n + -2) < inject_Z k).
    { rewrite inject_Z_plus. change (inject_Z (-2)) with (-2). lra. }
    rewrite <- Zlt_Qlt in K1, K2. lia.
  - assert (P' : inject_Z n <= 0).
    { change 0 with (inject_Z 0). now apply PcmFacts.inject_Z_le. }
    destruct (Z.eq_dec n 0) as [-> | Nz]; [reflexivity|].
    assert (P'' : inject_Z n < 0).
    { change 0 with (inject_Z 0). rewrite <- Zlt_Qlt. lia. }
    destruct (PcmFacts.encodeSample_neg (decodeSample n)) as [E _]; [lra|].
    rewrite E.
    destruct (PcmFacts.truncate_nonpos (clamp (decodeSample n) * 32768))
      as [A B]; [lra|].
    set (k := truncate (clamp (decodeSample n) * 32768)) in *.
    assert (V : clamp (decodeSample n) * 32768 == inject_Z n) by lra.
    assert (K1 : inject_Z n <= inject_Z k) by lra.
    assert (K2 : inject_Z (k + -1) < inject_Z n).
    { rewrite inject_Z_plus. change (inject_Z (-1)) with (-1). lra. }
    rewrite <- Zle_Qle in K1. rewrite <- Zlt_Qlt in K2. lia.
Qed.

Lemma frames_concatenate buffers :
  frames (concatenateAudioBuffers buffers) = totalFrames buffers.
Proof.
  unfold frames, concatenateAudioBuffers. cbn [channelData].
  induction buffers as [|b buffers IH]; [reflexivity|].
  cbn [flat_map totalFrames fold_right]. rewrite length_app. unfold frames.
  now rewrite IH.
Qed.

Lemma duration_24000 b :
  sampleRate b = 24000%Z ->
  duration b == inject_Z (Z.of_nat (frames b)) * (1 # 24000).
Proof. unfold duration. intros ->. reflexivity. Qed.

End PcmMore.

(** X4. The 16-bit view of a byte sequence and the byte view of a 16-bit
    sequence are inverse to each other: the bytes of 16-bit integers read
    back as those integers, and bytes that read as 16-bit integers are the
    bytes of these. *)
Theorem int16_bytes_roundtrip :
  (forall ints, Forall isInt16 ints ->
                Pcm.int16View (Pcm.int16Bytes ints) = Some ints)
  /\ (forall data ints,
         Forall isByte data -> Pcm.int16View data = Some ints ->
         Pcm.int16Bytes ints = data).
Proof.
  split.
  - induction 1 as [|z ints Hz Hr IH]; [reflexivity|].
    rewrite PcmMore.int16Bytes_cons, PcmMore.int16View_pair, IH.
    now rewrite (PcmMore.wrap16_of_byte_pair z Hz).
  - intros data. pattern data. apply PcmMore.pair_induction.
    + intros ints _ [= <-]. reflexivity.
    + intros x ints _ E. discriminate.
    + intros x y l IH ints Hb E.
      inversion Hb as [|? ? Hx Hb1]; subst.
      inversion Hb1 as [|? ? Hy Hl]; subst.
      rewrite PcmMore.int16View_pair in E.
      destruct (Pcm.int16View l) as [r|] eqn:V; [|discriminate].
      injection E as <-.
      rewrite PcmMore.int16Bytes_cons, (IH r Hl eq_refl).
      destruct (PcmMore.byte_pair_of_wrap16 x y Hx Hy) as [A B].
      cbv zeta in A, B.
      exact (f_equal2 cons A (f_equal2 cons B eq_refl)).
Qed.

Lemma int16_bytes_roundtrip_witness :
  Pcm.int16View (Pcm.int16Bytes [16384; -16384]%Z)
  = Some [16384; -16384]%Z
  /\ Pcm.int16Bytes [16384; -16384]%Z = twoSamples.
Proof.
  destruct int16_bytes_roundtrip as [A B]. split.
  - apply A. repeat constructor; unfold isInt16; lia.
  - apply B; [|reflexivity].
    repeat constructor; unfold isByte; lia.
Defined.

(** X5. [decodeAudioData] succeeds exactly on a byte sequence of even,
    non-zero length: it then returns a buffer at 24000 Hz with one frame
    for every two bytes and every sample at least -1 and less than 1; on an
    odd length it throws a RangeError and on the empty sequence a
    NotSupportedError. *)
Theorem decodeAudioData_outcome (data : list N) :
  (Nat.even (length data) = true -> data <> [] ->
   exists audioBuffer,
     Pcm.decodeAudioData data = Ok audioBuffer
     /\ Pcm.frames audioBuffer = (length data / 2)%nat
     /\ Pcm.sampleRate audioBuffer = 24000%Z
     /\ Forall (fun x => -1 <= x /\ x < 1) (Pcm.channelData audioBuffer))
  /\ (Nat.even (length data) = false ->
      Pcm.decodeAudioData data = Throw (JsError (lit "RangeError")))
  /\ (data = [] ->
      Pcm.decodeAudioData data = Throw (JsError (lit "NotSupportedError"))).
Proof.
  destruct (PcmMore.int16View_spec data) as [He Ho].
  unfold Pcm.decodeAudioData. repeat split.
  - intros E Hne. destruct (He E) as (l & El & Ll & Fl). rewrite El.
    destruct l as [|z l].
    + exfalso. destruct data as [|x [|y data]].
      * congruence.
      * discriminate.
      * cbn [length] in Ll.
        change (S (S (length data))) with (1 * 2 + length data)%nat in Ll.
        rewrite Nat.div_add_l in Ll by lia. discriminate.
    + eexists. split; [reflexivity|].
      unfold Pcm.frames, Pcm.decode. cbn [Pcm.channelData Pcm.sampleRate].
      rewrite length_map. repeat split; trivial.
      apply Forall_map. revert Fl. apply Forall_impl.
      intros n. apply PcmMore.decodeSample_range.
  - intros E. now rewrite (Ho E).
  - intros ->. reflexivity.
Qed.

Lemma decodeAudioData_outcome_witness :
  (exists audioBuffer,
      Pcm.decodeAudioData twoSamples = Ok audioBuffer
      /\ Pcm.frames audioBuffer = 2%nat)
  /\ Pcm.decodeAudioData [7]%N = Throw (JsError (lit "RangeError")).
Proof.
  destruct (decodeAudioData_outcome twoSamples) as [A _].
  destruct (decodeAudioData_outcome [7]%N) as (_ & B & _).
  split.
  - destruct A as (audioBuffer & E & F & _);
      [reflexivity | discriminate |].
    exists audioBuffer. split; [exact E | exact F].
  - apply B. reflexivity.
Defined.

(** X6. Encoding a decoded sample does not give the sample back in
    general: a 16-bit sample that is zero or negative is reproduced, a
    positive one comes out one step lower. *)
Theorem reencoding_lowers_positive_samples (n : Z) :
  isInt16 n ->
  Pcm.encodeSample (Pcm.decodeSample n)
  = if (0 <? n)%Z then (n - 1)%Z else n.
Proof. apply PcmMore.encode_decodeSample. Qed.

Lemma reencoding_lowers_positive_samples_witness :
  Pcm.encodeSample (Pcm.decodeSample 16384) = 16383%Z
  /\ Pcm.encodeSample (Pcm.decodeSample (-16384)) = (-16384)%Z.
Proof.
  split.
  - apply (reencoding_lowers_positive_samples 16384). unfold isInt16. lia.
  - apply (reencoding_lowers_positive_samples (-16384)). unfold isInt16. lia.
Defined.

Module ConcatenationMore.
Import Concatenation.

Lemma reduce_frames buffers : forall acc,
  fold_left (fun acc b => (acc + Pcm.frames b)%nat) buffers acc
  = (acc + totalFrames buffers)%nat.
Proof.
  induction buffers as [|b buffers IH]; intros acc; cbn [fold_left].
  - cbn. lia.
  - rewrite IH. cbn [totalFrames fold_right]. fold (totalFrames buffers).
    lia.
Qed.

(** A [set] at the end of what is written so far replaces as many of the
    zeros that follow as the source has elements. *)
Lemma setAt_zeros (written source : list Q) k :
  setAt (length written) source
        (written ++ repeat 0 (length source + k))
  = Some ((written ++ source) ++ repeat 0 k).
Proof.
  unfold setAt. rewrite length_app, repeat_length.
  replace (length written + length source
           <=? length written + (length source + k))%nat with true
    by (symmetry; apply Nat.leb_le; lia).
  rewrite firstn_app, firstn_all, Nat.sub_diag, firstn_O, app_nil_r.
  rewrite skipn_app, skipn_all2 by lia.
  replace (length written + length source - length written)%nat
    with (length source) by lia.
  rewrite repeat_app, skipn_app, skipn_all2
    by (rewrite repeat_length; lia).
  rewrite repeat_length, Nat.sub_diag, skipn_O.
  cbn [app]. now rewrite <- app_assoc.
Qed.

(** The loop writes the inputs one after the other: none of the zeros of
    the fresh buffer is left and nothing written is written over. *)
Lemma copy_loop buffers : forall written,
  fold_left copyBuffer buffers
            (Some (written ++ repeat 0 (totalFrames buffers),
                   length written))
  = Some (written ++ flat_map Pcm.channelData buffers,
          (length written + totalFrames buffers)%nat).
Proof.
  induction buffers as [|b buffers IH]; intros written.
  - cbn. now rewrite Nat.add_0_r.
  - cbn [fold_left copyBuffer totalFrames fold_right flat_map].
    fold (totalFrames buffers). unfold Pcm.frames at 1.
    rewrite setAt_zeros.
    replace (length written + Pcm.frames b)%nat
      with (length (written ++ Pcm.channelData b))
      by (rewrite length_app; reflexivity).
    rewrite IH, length_app, <- app_assoc. unfold Pcm.frames.
    f_equal. f_equal. lia.
Qed.

End ConcatenationMore.

(** X7. The concatenation as it is written, a buffer of the total length
    filled with zeros and one [set] for each input at the running offset,
    never writes outside that buffer and yields exactly the inputs'
    samples in order, at 24000 Hz, with as many frames as the inputs have
    together; without any frame it fails with the NotSupportedError of
    [createBuffer]. *)
Theorem concatenation_adds_up (buffers : list Pcm.AudioBuffer) :
  (totalFrames buffers = 0%nat ->
   Concatenation.concatenateAudioBuffersLoop buffers
   = Throw (JsError (lit "NotSupportedError")))
  /\ ((0 < totalFrames buffers)%nat ->
      Concatenation.concatenateAudioBuffersLoop buffers
      = Ok (Pcm.concatenateAudioBuffers buffers)
      /\ Pcm.frames (Pcm.concatenateAudioBuffers buffers)
         = totalFrames buffers).
Proof.
  unfold Concatenation.concatenateAudioBuffersLoop.
  rewrite ConcatenationMore.reduce_frames. cbn [Nat.add]. split.
  - intros ->. reflexivity.
  - intros H. split; [|apply PcmMore.frames_concatenate].
    destruct (totalFrames buffers) as [|n] eqn:E; [lia|].
    rewrite <- E.
    pose proof (ConcatenationMore.copy_loop buffers []) as L.
    cbn [app length Nat.add] in L. now rewrite L.
Qed.

Lemma concatenation_adds_up_witness :
  Concatenation.concatenateAudioBuffersLoop
    [Pcm.mkBuffer (Pcm.decode [16384; -16384]%Z) 24000;
     Pcm.mkBuffer [] 24000;
     Pcm.mkBuffer (Pcm.decode [1]%Z) 24000]
  = Ok (Pcm.mkBuffer (Pcm.decode [16384; -16384; 1]%Z) 24000)
  /\ Concatenation.concatenateAudioBuffersLoop [Pcm.mkBuffer [] 24000]
     = Throw (JsError (lit "NotSupportedError")).
Proof.
  destruct (concatenation_adds_up
              [Pcm.mkBuffer (Pcm.decode [16384; -16384]%Z) 24000;
               Pcm.mkBuffer [] 24000;
               Pcm.mkBuffer (Pcm.decode [1]%Z) 24000]) as [_ A].
  destruct (concatenation_adds_up [Pcm.mkBuffer [] 24000]) as [B _].
  split.
  - destruct A as [A _]; [vm_compute; lia | exact A].
  - apply B. reflexivity.
Defined.

Module WavMore.
Import Wav.

Lemma setBytes_exact bytes : forall view,
  length view = length bytes -> setBytes 0 bytes view = bytes.
Proof.
  induction bytes as [|x bytes IH]; intros [|b view] H; try discriminate;
    [reflexivity|].
  cbn [setBytes]. f_equal. apply IH. now injection H.
Qed.

Lemma setBytes_nil view : setBytes 0 [] view = view.
Proof. now destruct view. Qed.

(** The blob is a header of 44 bytes followed by the samples. *)
Lemma createWavBlob_layout samples sampleRate :
  createWavBlob samples sampleRate
  = lit "RIFF" ++ uint32LE (36 + Z.of_nat (length samples))
    ++ lit "WAVE" ++ lit "fmt " ++ uint32LE 16 ++ uint16LE 1 ++ uint16LE 1
    ++ uint32LE sampleRate ++ uint32LE (sampleRate * 2)
    ++ uint16LE 2 ++ uint16LE 16
    ++ lit "data" ++ uint32LE (Z.of_nat (length samples)) ++ samples.
Proof.
  unfold createWavBlob, writeString, setUint32, setUint16.
  change (map (fun c => byte (Z.of_N c)) (lit "RIFF")) with (lit "RIFF").
  change (map (fun c => byte (Z.of_N c)) (lit "WAVE")) with (lit "WAVE").
  change (map (fun c => byte (Z.of_N c)) (lit "fmt ")) with (lit "fmt ").
  change (map (fun c => byte (Z.of_N c)) (lit "data")) with (lit "data").
  unfold uint32LE, uint16LE.
  change (lit "RIFF") with [82; 73; 70; 70]%N.
  change (lit "WAVE") with [87; 65; 86; 69]%N.
  change (lit "fmt ") with [102; 109; 116; 32]%N.
  change (lit "data") with [100; 97; 116; 97]%N.
  cbn [repeat Nat.add setBytes app].
  rewrite !setBytes_nil.
  now rewrite setBytes_exact by apply repeat_length.
Qed.

Lemma uint16_value v :
  (Z.of_N (byte v) + 256 * Z.of_N (byte (v / 256)) = v mod 65536)%Z.
Proof.
  unfold byte.
  pose proof (Z.mod_pos_bound v 256).
  pose proof (Z.mod_pos_bound (v / 256) 256).
  rewrite !Z2N.id by lia. Z.div_mod_to_equations. lia.
Qed.

Lemma uint32_value v :
  (Z.of_N (byte v) + 256 * Z.of_N (byte (v / 256))
   + 65536 * Z.of_N (byte (v / 65536))
   + 16777216 * Z.of_N (byte (v / 16777216))
   = v mod 4294967296)%Z.
Proof.
  unfold byte.
  pose proof (Z.mod_pos_bound v 256).
  pose proof (Z.mod_pos_bound (v / 256) 256).
  pose proof (Z.mod_pos_bound (v / 65536) 256).
  pose proof (Z.mod_pos_bound (v / 16777216) 256).
  rewrite !Z2N.id by lia. Z.div_mod_to_equations. lia.
Qed.

End WavMore.

(** X8. The WAV blob is 44 bytes longer than the sample bytes, and the
    sample bytes follow the 44 header bytes unchanged. *)
Theorem wav_blob_size_and_payload (samples : list N) (sampleRate : Z) :
  length (Wav.createWavBlob samples sampleRate) = (44 + length samples)%nat
  /\ skipn 44 (Wav.createWavBlob samples sampleRate) = samples.
Proof.
  rewrite WavMore.createWavBlob_layout. split; reflexivity.
Qed.

(** The fields of the header, read back. *)
Lemma wav_header_fields_aux (samples : list N) (sampleRate : Z) :
  let blob := Wav.createWavBlob samples sampleRate in
  let size := Z.of_nat (length samples) in
  Wav.getString 0 4 blob = lit "RIFF"
  /\ Wav.getUint32 4 blob = Some ((36 + size) mod 4294967296)%Z
  /\ Wav.getString 8 4 blob = lit "WAVE"
  /\ Wav.getString 12 4 blob = lit "fmt "
  /\ Wav.getUint32 16 blob = Some 16%Z
  /\ Wav.getUint16 20 blob = Some 1%Z
  /\ Wav.getUint16 22 blob = Some 1%Z
  /\ Wav.getUint32 24 blob = Some (sampleRate mod 4294967296)%Z
  /\ Wav.getUint32 28 blob = Some ((sampleRate * 2) mod 4294967296)%Z
  /\ Wav.getUint16 32 blob = Some 2%Z
  /\ Wav.getUint16 34 blob = Some 16%Z
  /\ Wav.getString 36 4 blob = lit "data"
  /\ Wav.getUint32 40 blob = Some (size mod 4294967296)%Z.
Proof.
  intros blob size. unfold blob. rewrite WavMore.createWavBlob_layout.
  fold size.
  unfold Wav.getString, Wav.getUint32, Wav.getUint16, Wav.uint32LE,
    Wav.uint16LE.
  change (lit "RIFF") with [82; 73; 70; 70]%N.
  change (lit "WAVE") with [87; 65; 86; 69]%N.
  change (lit "fmt ") with [102; 109; 116; 32]%N.
  change (lit "data") with [100; 97; 116; 97]%N.
  cbn [app skipn firstn].
  repeat split; try reflexivity;
    try (f_equal; apply WavMore.uint32_value).
Qed.

(** X9. The header of the WAV blob reads back as written: the chunk
    identifiers RIFF, WAVE, fmt and data at offsets 0, 8, 12 and 36; PCM
    format 1, one channel, block align 2 and 16 bits per sample; the
    sample rate and twice the sample rate as byte rate; and as lengths the
    number of sample bytes plus 36 and the number of sample bytes, each
    32-bit field holding its value modulo 2^32. *)
Theorem wav_header_fields (samples : list N) (sampleRate : Z) :
  let blob := Wav.createWavBlob samples sampleRate in
  let size := Z.of_nat (length samples) in
  Wav.getString 0 4 blob = lit "RIFF"
  /\ Wav.getUint32 4 blob = Some ((36 + size) mod 4294967296)%Z
  /\ Wav.getString 8 4 blob = lit "WAVE"
  /\ Wav.getString 12 4 blob = lit "fmt "
  /\ Wav.getUint32 16 blob = Some 16%Z
  /\ Wav.getUint16 20 blob = Some 1%Z
  /\ Wav.getUint16 22 blob = Some 1%Z
  /\ Wav.getUint32 24 blob = Some (sampleRate mod 4294967296)%Z
  /\ Wav.getUint32 28 blob = Some ((sampleRate * 2) mod 4294967296)%Z
  /\ Wav.getUint16 32 blob = Some 2%Z
  /\ Wav.getUint16 34 blob = Some 16%Z
  /\ Wav.getString 36 4 blob = lit "data"
  /\ Wav.getUint32 40 blob = Some (size mod 4294967296)%Z.
Proof. apply wav_header_fields_aux. Qed.

(* ================================================================= *)
(** ** Further properties: Script Segmenter *)

Module SegmenterMore.
Import Segmenter.

Lemma dropWhile_split p s : s = takeWhile p s ++ dropWhile p s.
Proof.
  induction s as [|c s IH]; [reflexivity|]. simpl.
  destruct (p c); [simpl; now f_equal | reflexivity].
Qed.

Lemma dropWhile_fixed p c s : p c = false -> dropWhile p (c :: s) = c :: s.
Proof. intros H. simpl. now rewrite H. Qed.

(** What [trim] returns is empty, or starts and ends with a code unit that
    is not white space. *)
Lemma trim_ends s :
  trim s = []
  \/ exists c t c' t',
       trim s = c :: t /\ isWhiteSpace c = false
       /\ rev (trim s) = c' :: t' /\ isWhiteSpace c' = false.
Proof.
  unfold trim, trimStart.
  destruct (dropWhile isWhiteSpace (rev (dropWhile isWhiteSpace s)))
    as [|c' t'] eqn:R; [now left | right].
  pose proof (SynthesisFacts.dropWhile_head _ _ _ _ R) as Hc'.
  pose proof (dropWhile_split isWhiteSpace (rev (dropWhile isWhiteSpace s)))
    as D.
  rewrite R in D. apply (f_equal (@rev N)) in D.
  rewrite rev_involutive, rev_app_distr in D.
  destruct (rev (c' :: t')) as [|c t] eqn:V.
  { apply (f_equal (@length N)) in V. rewrite length_rev in V. discriminate. }
  destruct (dropWhile isWhiteSpace s) as [|d u] eqn:U; [discriminate|].
  pose proof (SynthesisFacts.dropWhile_head _ _ _ _ U) as Hd.
  injection D as <- _.
  exists d, t, c', t'. repeat split; trivial.
  now rewrite <- V, rev_involutive.
Qed.

(** Trimming twice is trimming once. *)
Lemma trim_idempotent s : trim (trim s) = trim s.
Proof.
  destruct (trim_ends s) as [-> | (c & t & c' & t' & E & Hc & V & Hc')];
    [reflexivity|].
  unfold trim at 1. unfold trimStart. rewrite E at 1.
  rewrite (dropWhile_fixed _ _ _ Hc), <- E, V, (dropWhile_fixed _ _ _ Hc').
  now rewrite <- V, rev_involutive.
Qed.

Lemma nth_error_snoc {A} (l : list A) x i a :
  nth_error (l ++ [x]) i = Some a ->
  (i < length l /\ nth_error l i = Some a)%nat \/ (i = length l /\ a = x).
Proof.
  intros H. destruct (Nat.lt_ge_cases i (length l)) as [Lt | Ge].
  - left. split; trivial. now rewrite nth_error_app1 in H.
  - right. rewrite nth_error_app2 in H by lia.
    destruct (i - length l)%nat as [|[|k]] eqn:K; simpl in H;
      try discriminate.
    injection H as <-. split; [lia | reflexivity].
Qed.

Lemma fold_left_related {A1 A2 B} (R : A1 -> A2 -> Prop)
      (f1 : A1 -> B -> A1) (f2 : A2 -> B -> A2) l :
  (forall a1 a2 b, R a1 a2 -> R (f1 a1 b) (f2 a2 b)) ->
  forall a1 a2, R a1 a2 -> R (fold_left f1 l a1) (fold_left f2 l a2).
Proof.
  intros Hf. induction l as [|b l IH]; intros a1 a2 H; simpl; [exact H|].
  apply IH, Hf, H.
Qed.

Section WellFormed.

Variable upperNonAscii : N -> N.
Variable randomId : nat -> str.
Variables hostName expertName : str.

Lemma pushSentence_sound who st sentence :
  sound randomId st -> sound randomId (pushSentence randomId who st sentence).
Proof.
  intros [Hc Hs]. unfold pushSentence.
  destruct (trim sentence) as [|c clean] eqn:T; [now split|].
  split; [exact Hc|]. cbn [segments]. intros i seg Hi.
  apply nth_error_snoc in Hi. destruct Hi as [[_ Hi] | [-> ->]].
  - now apply Hs.
  - unfold good. cbn [text slideIndex id startTime endTime].
    repeat split; trivial; try discriminate.
    rewrite <- T. apply trim_idempotent.
Qed.

Lemma processBlock_sound st block :
  sound randomId st ->
  sound randomId
        (processBlock upperNonAscii randomId hostName expertName st block).
Proof.
  intros H. unfold processBlock. destruct (isPageNumber block).
  - destruct H as [Hc Hs]. split; [cbn; lia | exact Hs].
  - apply SegmenterFacts.fold_left_preserves; trivial.
    intros a line Ha. apply SegmenterFacts.processLine_preserves; trivial.
    intros. now apply pushSentence_sound.
Qed.

Lemma parse_sound fullText i seg :
  nth_error (parseScriptToSegments upperNonAscii randomId hostName expertName
                                   fullText) i = Some seg ->
  good randomId i seg.
Proof.
  unfold parseScriptToSegments.
  assert (S : sound randomId (fold_left
                      (processBlock upperNonAscii randomId hostName expertName)
                      (slideBlocks upperNonAscii fullText) initial)).
  { apply SegmenterFacts.fold_left_preserves.
    - intros a b. apply processBlock_sound.
    - split; [cbn; lia|]. intros [|j] s; discriminate. }
  apply S.
Qed.

Lemma processLine_silent st line :
  labelled upperNonAscii hostName expertName line = false ->
  silent st ->
  processLine upperNonAscii randomId hostName expertName st line = st.
Proof.
  unfold labelled, processLine. intros L [Hs Hn].
  destruct (trim line) as [|c trimmed]; [reflexivity|].
  destruct (matchLabel upperNonAscii (lit "Host") hostName (c :: trimmed));
    [discriminate|].
  destruct (matchLabel upperNonAscii (lit "Expert") expertName (c :: trimmed));
    [discriminate|].
  rewrite Hs. destruct st as [segs rt slide who]. cbn in Hs |- *.
  now rewrite Hs.
Qed.

Lemma processLines_silent lines : forall st,
  (forall line, In line lines ->
                labelled upperNonAscii hostName expertName line = false) ->
  silent st ->
  silent (fold_left (processLine upperNonAscii randomId hostName expertName)
                    lines st).
Proof.
  induction lines as [|line lines IH]; intros st H Hs; [exact Hs|].
  simpl. rewrite processLine_silent; trivial.
  - apply IH; trivial. intros l Hl. apply H. now right.
  - apply H. now left.
Qed.

Lemma processBlocks_silent blocks : forall st,
  (forall block, In block blocks ->
     forall line, In line (split 10 block) ->
                  labelled upperNonAscii hostName expertName line = false) ->
  silent st ->
  silent (fold_left (processBlock upperNonAscii randomId hostName expertName)
                    blocks st).
Proof.
  induction blocks as [|block blocks IH]; intros st H Hs; [exact Hs|].
  simpl. apply IH.
  - intros b Hb. apply H. now right.
  - unfold processBlock. destruct (isPageNumber block).
    + destruct Hs as [A B]. now split.
    + apply processLines_silent; trivial. apply H. now left.
Qed.

End WellFormed.

Section Identifiers.

Variable upperNonAscii : N -> N.
Variables randomId1 randomId2 : nat -> str.
Variables hostName expertName : str.

Lemma pushSentence_alike who st1 st2 sentence :
  alike st1 st2 ->
  alike (pushSentence randomId1 who st1 sentence)
        (pushSentence randomId2 who st2 sentence).
Proof.
  intros (Hs & Ht & Hc & Hw). unfold pushSentence.
  destruct (trim sentence) as [|c clean]; [now repeat split|].
  unfold alike. cbn [segments runningTime currentSlideIndex currentSpeaker].
  rewrite !map_app, Hs, Ht, Hc, Hw. repeat split.
Qed.

Lemma processLine_alike st1 st2 line :
  alike st1 st2 ->
  alike (processLine upperNonAscii randomId1 hostName expertName st1 line)
        (processLine upperNonAscii randomId2 hostName expertName st2 line).
Proof.
  intros H. pose proof H as (Hs & Ht & Hc & Hw). unfold processLine.
  destruct (trim line) as [|c trimmed]; [exact H|].
  rewrite Hw.
  set (label := match matchLabel _ _ _ _ with Some _ => _ | None => _ end).
  destruct label as [who content].
  assert (A : alike (mkPState (segments st1) (runningTime st1)
                              (currentSlideIndex st1) who)
                    (mkPState (segments st2) (runningTime st2)
                              (currentSlideIndex st2) who))
    by now repeat split.
  destruct who as [sp|]; [|exact A].
  destruct content as [|c' content]; [exact A|].
  apply (fold_left_related alike); trivial.
  intros a1 a2 b. apply pushSentence_alike.
Qed.

Lemma processBlock_alike st1 st2 block :
  alike st1 st2 ->
  alike (processBlock upperNonAscii randomId1 hostName expertName st1 block)
        (processBlock upperNonAscii randomId2 hostName expertName st2 block).
Proof.
  intros H. unfold processBlock. destruct (isPageNumber block).
  - destruct H as (Hs & Ht & Hc & Hw). now repeat split.
  - apply (fold_left_related alike); trivial.
    intros a1 a2 b. apply processLine_alike.
Qed.

Lemma parse_alike fullText :
  map withoutId (parseScriptToSegments upperNonAscii randomId1
                                       hostName expertName fullText)
  = map withoutId (parseScriptToSegments upperNonAscii randomId2
                                         hostName expertName fullText).
Proof.
  unfold parseScriptToSegments.
  apply (fold_left_related alike
           (processBlock upperNonAscii randomId1 hostName expertName)
           (processBlock upperNonAscii randomId2 hostName expertName)).
  - intros a1 a2 b. apply processBlock_alike.
  - now repeat split.
Qed.

End Identifiers.

End SegmenterMore.

(** X10. Every segment the Segmenter returns has a text that is not empty
    and has no white space at either end, a slide index that is not
    negative, as identifier the random identifier drawn for its position,
    and an end time that is its start time plus the larger of 1.5 seconds
    and a fifteenth of a second for each code unit of its text. *)
Theorem segmenter_segments_wellformed
        (upperNonAscii : N -> N) (randomId : nat -> str)
        (fullText hostName expertName : str) (i : nat) (seg : ScriptSegment) :
  nth_error (Segmenter.parseScriptToSegments upperNonAscii randomId
                                             hostName expertName fullText) i
  = Some seg ->
  text seg <> []
  /\ trim (text seg) = text seg
  /\ (0 <= slideIndex seg)%Z
  /\ id seg = randomId i
  /\ endTime seg
     = startTime seg
       + Qmax (3 # 2)
              (inject_Z (Z.of_nat (length (text seg)))
               / inject_Z Segmenter.CHARS_PER_SEC).
Proof.
  apply SegmenterMore.parse_sound.
Qed.

Lemma segmenter_segments_wellformed_witness :
  exists seg,
    nth_error demoSegments 3 = Some seg
    /\ text seg = lit "Let's continue."
    /\ trim (text seg) = text seg
    /\ id seg = constantId 3.
Proof.
  destruct (nth_error demoSegments 3) as [seg|] eqn:E; [|discriminate].
  exists seg.
  destruct (segmenter_segments_wellformed
              noFolding constantId demoScript (lit "Host") (lit "Expert")
              3 seg E) as (_ & T & _ & I & _).
  repeat split; trivial.
  vm_compute in E. now injection E as <-.
Defined.

(** X11. Apart from the identifiers, the Segmenter's output does not
    depend on the random source: two runs on the same text and names agree
    on slide index, speaker, text and times of every segment. *)
Theorem segmenter_deterministic_but_for_ids
        (upperNonAscii : N -> N) (randomId1 randomId2 : nat -> str)
        (fullText hostName expertName : str) :
  map withoutId (Segmenter.parseScriptToSegments upperNonAscii randomId1
                                                 hostName expertName fullText)
  = map withoutId (Segmenter.parseScriptToSegments upperNonAscii randomId2
                                                   hostName expertName fullText).
Proof. apply SegmenterMore.parse_alike. Qed.

(** X12. A script in which no line carries a speaker label yields no
    segment at all: text before the first label is discarded. *)
Theorem unlabelled_script_has_no_segments
        (upperNonAscii : N -> N) (randomId : nat -> str)
        (fullText hostName expertName : str) :
  (forall block, In block (Segmenter.slideBlocks upperNonAscii fullText) ->
     forall line, In line (split 10 block) ->
                  labelled upperNonAscii hostName expertName line = false) ->
  Segmenter.parseScriptToSegments upperNonAscii randomId
                                  hostName expertName fullText = [].
Proof.
  intros H. unfold Segmenter.parseScriptToSegments.
  apply (SegmenterMore.processBlocks_silent
           upperNonAscii randomId hostName expertName
           (Segmenter.slideBlocks upperNonAscii fullText)
           Segmenter.initial H).
  now split.
Qed.

Lemma unlabelled_script_has_no_segments_witness :
  Segmenter.parseScriptToSegments
    noFolding constantId (lit "Host") (lit "Expert")
    (lit "[SLIDE 1]" ++ newline ++ lit "Welcome to the show. Host speaking")
  = [].
Proof.
  apply (unlabelled_script_has_no_segments
           noFolding constantId
           (lit "[SLIDE 1]" ++ newline
            ++ lit "Welcome to the show. Host speaking")
           (lit "Host") (lit "Expert")).
  intros block Hb line Hl. vm_compute in Hb.
  destruct Hb as [<- | [<- | [<- | []]]]; vm_compute in Hl;
    repeat (destruct Hl as [<- | Hl]; [reflexivity|]); destruct Hl.
Defined.

(* ================================================================= *)
(** ** Further properties: Synthesis Client *)

Module ClientMore.
Import Synthesis.

Lemma Balanced_refl w : Balanced w w.
Proof. exists []. now rewrite app_nil_r. Qed.

Lemma Balanced_trans w1 w2 w3 :
  Balanced w1 w2 -> Balanced w2 w3 -> Balanced w1 w3.
Proof.
  intros (d1 & -> & B1) (d2 & -> & B2). exists (d1 ++ d2).
  rewrite app_assoc. split; [reflexivity|].
  unfold countOpens, countCloses in *.
  rewrite !filter_app, !length_app. lia.
Qed.

Lemma Balanced_requests w w' :
  Balanced w w' -> (countRequests w <= countRequests w')%nat.
Proof.
  intros (d & -> & _). rewrite SynthesisFacts.countRequests_app. lia.
Qed.

Lemma Balanced_step w delta :
  countOpens delta = countCloses delta -> Balanced w (w ++ delta).
Proof. intros H. now exists delta. Qed.

Section AnyProvider.

Variable provider : nat -> str -> str -> Response.
Variable atob : str -> option (list N).
Variable random : nat -> Q.

(** The shapes of the log after one pass through the [try] block. *)
Lemma requestOnce_log text voice w :
  let w' := snd (requestOnce provider atob text voice w) in
  w' = w ++ [EvRequest (promptFor text) voice]
  \/ (w' = w ++ [EvRequest (promptFor text) voice; EvContextOpen;
                 EvContextClose]).
Proof.
  unfold requestOnce.
  destruct (provider _ _ _) as [base64Audio textPart | e]; [|now left].
  destruct base64Audio as [[|c b64]|].
  - destruct textPart as [[|? ?]|]; now left.
  - right. unfold tryFinally, throw, ret, emit.
    destruct (atob (c :: b64)) as [bytes|].
    + destruct (Pcm.decodeAudioData bytes); cbn; now rewrite <- !app_assoc.
    + cbn. now rewrite <- !app_assoc.
  - destruct textPart as [[|? ?]|]; now left.
Qed.

Lemma requestOnce_balanced text voice w :
  Balanced w (snd (requestOnce provider atob text voice w)).
Proof.
  destruct (requestOnce_log text voice w) as [-> | ->];
    now apply Balanced_step.
Qed.

(** What the [try] block returns comes from [decodeAudioData]. *)
Lemma requestOnce_buffer text voice w audio :
  fst (requestOnce provider atob text voice w) = Ok audio ->
  Pcm.sampleRate (buffer audio) = 24000%Z
  /\ (0 < Pcm.frames (buffer audio))%nat
  /\ exists ints, Pcm.int16View (rawData audio) = Some ints
                  /\ Pcm.channelData (buffer audio) = Pcm.decode ints.
Proof.
  unfold requestOnce.
  destruct (provider _ _ _) as [base64Audio textPart | e]; [|discriminate].
  destruct base64Audio as [[|c b64]|].
  - destruct textPart as [[|? ?]|]; discriminate.
  - unfold tryFinally, throw, ret, emit.
    destruct (atob (c :: b64)) as [bytes|]; [|discriminate].
    unfold Pcm.decodeAudioData.
    destruct (Pcm.int16View bytes) as [[|z zs]|] eqn:V; try discriminate.
    cbn. intros [= <-]. cbn. repeat split.
    + unfold Pcm.frames. cbn. lia.
    + now exists (z :: zs).
  - destruct textPart as [[|? ?]|]; discriminate.
Qed.

(** The loop: requests, contexts, pauses and the buffer it returns. *)
Lemma attemptLoop_bounds text voice fuel : forall attempt w,
  (attempt <= maxRetries)%nat ->
  let w' := snd (attemptLoop provider atob random fuel text voice attempt w) in
  (countRequests w' <= countRequests w + (maxRetries + 1 - attempt))%nat
  /\ (fuel <> 0%nat -> (countRequests w + 1 <= countRequests w')%nat)
  /\ Balanced w w'.
Proof.
  induction fuel as [|fuel IH]; intros attempt w Ha.
  - cbv zeta. cbn [attemptLoop throw snd].
    repeat split; [lia | congruence | apply Balanced_refl].
  - cbv zeta. rewrite SynthesisFacts.attemptLoop_round.
    pose proof (SynthesisFacts.requestOnce_requests
                  provider atob text voice w) as R.
    pose proof (requestOnce_balanced text voice w) as B.
    destruct (requestOnce provider atob text voice w) as [[audio|error] w1].
    + cbn [snd] in *. repeat split; trivial; lia.
    + cbn [snd] in R, B.
      destruct ((isRateLimit error || isServerBusy error)
                && (S attempt <=? maxRetries)%nat) eqn:E.
      * apply andb_true_iff in E. destruct E as [_ E].
        apply Nat.leb_le in E.
        set (w2 := w1 ++ [EvSleep _]).
        destruct (IH (S attempt) w2 E) as (U & L & Bal).
        assert (C : countRequests w2 = countRequests w1)
          by (unfold w2; rewrite SynthesisFacts.countRequests_app; cbn; lia).
        repeat split.
        -- lia.
        -- intros _. pose proof (Balanced_requests _ _ Bal). lia.
        -- apply Balanced_trans with w1; trivial.
           apply Balanced_trans with w2; trivial.
           now apply Balanced_step.
      * cbn [snd]. repeat split; trivial; lia.
Qed.

Lemma attemptLoop_buffer text voice fuel : forall attempt w audio,
  fst (attemptLoop provider atob random fuel text voice attempt w) = Ok audio ->
  Pcm.sampleRate (buffer audio) = 24000%Z
  /\ (0 < Pcm.frames (buffer audio))%nat
  /\ exists ints, Pcm.int16View (rawData audio) = Some ints
                  /\ Pcm.channelData (buffer audio) = Pcm.decode ints.
Proof.
  induction fuel as [|fuel IH]; intros attempt w audio; [discriminate|].
  rewrite SynthesisFacts.attemptLoop_round.
  pose proof (requestOnce_buffer text voice w) as B.
  destruct (requestOnce provider atob text voice w) as [[a|error] w1].
  - cbn [fst]. intros [= <-]. now apply B.
  - destruct ((isRateLimit error || isServerBusy error)
              && (S attempt <=? maxRetries)%nat); [apply IH | discriminate].
Qed.

End AnyProvider.

End ClientMore.

(** X13. A provider error that is neither a rate limit nor a server-busy
    condition is not retried: the call fails with that error after the one
    request, without a pause. *)
Theorem other_errors_fail_immediately
        provider atob random fuel text voice w e :
  fuel <> 0%nat ->
  provider (countRequests w) (Synthesis.promptFor text) voice
  = Synthesis.Failure e ->
  transient (Synthesis.Failure e) = false ->
  Synthesis.generateSingleSpeakerAudio provider atob random fuel text voice w
  = (Throw (ApiFailure e),
     w ++ [EvRequest (Synthesis.promptFor text) voice]).
Proof.
  intros Hfuel Hp Ht. destruct fuel as [|fuel]; [congruence|].
  unfold Synthesis.generateSingleSpeakerAudio.
  rewrite SynthesisFacts.attemptLoop_round.
  unfold Synthesis.requestOnce. rewrite Hp.
  cbn [transient] in Ht. rewrite Ht. reflexivity.
Qed.

Lemma other_errors_fail_immediately_witness :
  Synthesis.generateSingleSpeakerAudio
    rejectingProvider plainAtob noJitter 11 (lit "Hi") (lit "Kore") []
  = (Throw (ApiFailure badRequest),
     [EvRequest (Synthesis.promptFor (lit "Hi")) (lit "Kore")]).
Proof.
  apply (other_errors_fail_immediately
           rejectingProvider plainAtob noJitter 11 (lit "Hi") (lit "Kore")
           [] badRequest).
  - discriminate.
  - reflexivity.
  - reflexivity.
Defined.

(** X14. Whatever the provider does, one synthesis call issues at least one
    and at most 11 requests, and every audio context it opens it closes,
    on success and on failure alike. *)
Theorem call_is_bounded_and_releases_contexts
        provider atob random fuel text voice w :
  fuel <> 0%nat ->
  let w' :=
    snd (Synthesis.generateSingleSpeakerAudio provider atob random fuel
                                              text voice w) in
  (countRequests w + 1 <= countRequests w' <= countRequests w + 11)%nat
  /\ Balanced w w'.
Proof.
  intros Hfuel w'.
  destruct (ClientMore.attemptLoop_bounds
              provider atob random text voice fuel 0 w) as (U & L & B).
  { unfold Synthesis.maxRetries. lia. }
  unfold Synthesis.maxRetries in U. cbn [Nat.add Nat.sub] in U.
  specialize (L Hfuel). repeat split; trivial.
Qed.

Lemma call_is_bounded_and_releases_contexts_witness :
  (countRequests
     (snd (Synthesis.generateSingleSpeakerAudio
             (flakyProvider 20) plainAtob noJitter 30
             (lit "Hi") (lit "Kore") []))
   <= 11)%nat.
Proof.
  destruct (call_is_bounded_and_releases_contexts
              (flakyProvider 20) plainAtob noJitter 30
              (lit "Hi") (lit "Kore") []) as [[_ U] _].
  - discriminate.
  - exact U.
Defined.

Module BackoffMore.
Import Synthesis.

Lemma beatsOf_app w1 w2 : beatsOf (w1 ++ w2) = beatsOf w1 ++ beatsOf w2.
Proof. unfold beatsOf. apply flat_map_app. Qed.

Section AnyProvider.

Variable provider : nat -> str -> str -> Response.
Variable atob : str -> option (list N).
Variable random : nat -> Q.

(** One pass through the [try] block is one request and no pause. *)
Lemma requestOnce_beats text voice w :
  exists events,
    snd (requestOnce provider atob text voice w) = w ++ events
    /\ beatsOf events = [Request].
Proof.
  destruct (ClientMore.requestOnce_log provider atob text voice w)
    as [-> | ->]; eexists; split; reflexivity.
Qed.

(** The loop from attempt counter [attempt] on: every request after the
    first is preceded by one pause, computed from the counter. *)
Lemma attemptLoop_beats text voice :
  unitRandom random ->
  forall fuel attempt w,
    (attempt <= maxRetries)%nat -> (maxRetries - attempt < fuel)%nat ->
    exists events pauses,
      snd (attemptLoop provider atob random fuel text voice attempt w)
      = w ++ events
      /\ beatsOf events = Request :: pausedRequests pauses
      /\ (length pauses <= maxRetries - attempt)%nat
      /\ forall j d,
           nth_error pauses j = Some d ->
           (exists n,
               d = inject_Z (2 ^ Z.of_nat (attempt + j + 1)) * 1000
                   + random n * 1000)
           /\ inject_Z (2 ^ Z.of_nat (attempt + j + 1)) * 1000 <= d
           /\ d <= inject_Z (2 ^ Z.of_nat (attempt + j + 1)) * 1000 + 1000.
Proof.
  intros Hr. induction fuel as [|fuel IH]; intros attempt w Ha Hf; [lia|].
  rewrite SynthesisFacts.attemptLoop_round.
  destruct (requestOnce_beats text voice w) as (ev1 & E1 & B1).
  destruct (requestOnce provider atob text voice w) as [[audio|error] w1].
  - cbn [snd] in E1 |- *. exists ev1, []. repeat split; trivial.
    + cbn. lia.
    + destruct j; discriminate.
    + destruct j; discriminate.
    + destruct j; discriminate.
  - cbn [snd] in E1.
    destruct ((isRateLimit error || isServerBusy error)
              && (S attempt <=? maxRetries)%nat) eqn:E.
    + apply andb_true_iff in E. destruct E as [_ E]. apply Nat.leb_le in E.
      set (delay := inject_Z (2 ^ Z.of_nat (S attempt)) * 1000
                    + random (length w1) * 1000).
      destruct (IH (S attempt) (w1 ++ [EvSleep delay]))
        as (ev2 & pauses & E2 & B2 & L2 & H2); [lia | lia |].
      exists (ev1 ++ [EvSleep delay] ++ ev2), (delay :: pauses).
      split; [|split; [|split]].
      * rewrite E2, E1. now rewrite <- !app_assoc.
      * rewrite !beatsOf_app, B1, B2. reflexivity.
      * cbn [length]. lia.
      * intros [|j] d H; cbn [nth_error] in H.
        -- injection H as <-. rewrite Nat.add_0_r.
           replace (attempt + 1)%nat with (S attempt) by lia.
           split; [now exists (length w1)|].
           destruct (Hr (length w1)). unfold delay. split; lra.
        -- replace (attempt + S j + 1)%nat with (S attempt + j + 1)%nat
             by lia.
           now apply H2.
    + cbn [snd]. exists ev1, []. repeat split; trivial.
      * cbn. lia.
      * destruct j; discriminate.
      * destruct j; discriminate.
      * destruct j; discriminate.
Qed.

End AnyProvider.

End BackoffMore.

(** X15. The call backs off exponentially: whatever the provider does,
    the requests and pauses of one synthesis call alternate, a first
    request and then one pause before every further request, at most 10 of
    them; the pause before retry [j] (counted from 1) is [2^j] seconds plus
    a random share of one second, in milliseconds, so with a random source
    within 0 and 1 it lasts at least [2^j * 1000] and at most
    [2^j * 1000 + 1000] milliseconds. *)
Theorem backoff_is_exponential
        provider atob random fuel text voice w :
  unitRandom random ->
  (10 < fuel)%nat ->
  exists events pauses,
    snd (Synthesis.generateSingleSpeakerAudio
           provider atob random fuel text voice w)
    = w ++ events
    /\ beatsOf events = Request :: pausedRequests pauses
    /\ (length pauses <= 10)%nat
    /\ forall j d,
         nth_error pauses j = Some d ->
         (exists n,
             d = inject_Z (2 ^ Z.of_nat (j + 1)) * 1000 + random n * 1000)
         /\ inject_Z (2 ^ Z.of_nat (j + 1)) * 1000 <= d
         /\ d <= inject_Z (2 ^ Z.of_nat (j + 1)) * 1000 + 1000.
Proof.
  intros Hr Hfuel.
  destruct (BackoffMore.attemptLoop_beats
              provider atob random text voice Hr fuel 0 w)
    as (events & pauses & E & B & L & H).
  { unfold Synthesis.maxRetries. lia. }
  { unfold Synthesis.maxRetries. lia. }
  exists events, pauses. split; [exact E|]. split; [exact B|].
  split; [exact L | exact H].
Qed.

Lemma backoff_is_exponential_witness :
  exists first second third,
    beatsOf (snd (Synthesis.generateSingleSpeakerAudio
                    (flakyProvider 3) plainAtob noJitter 11
                    (lit "Hi") (lit "Kore") []))
    = [Request; Pause first; Request; Pause second; Request;
       Pause third; Request]
    /\ 2000 <= first /\ first <= 3000
    /\ 4000 <= second /\ second <= 5000
    /\ 8000 <= third /\ third <= 9000.
Proof.
  destruct (backoff_is_exponential
              (flakyProvider 3) plainAtob noJitter 11
              (lit "Hi") (lit "Kore") []) as (events & pauses & E & B & _ & H).
  - intros n. split; [apply Qle_refl | reflexivity].
  - lia.
  - cbn [app] in E. rewrite E, B.
    vm_compute in E. subst events. vm_compute in B.
    destruct pauses as [|first [|second [|third [|fourth more]]]];
      try discriminate.
    exists first, second, third. split; [reflexivity|].
    destruct (H 0%nat first eq_refl) as (_ & A1 & A2).
    destruct (H 1%nat second eq_refl) as (_ & B1 & B2).
    destruct (H 2%nat third eq_refl) as (_ & C1 & C2).
    cbn in A1, A2, B1, B2, C1, C2.
    unfold inject_Z in A1, A2, B1, B2, C1, C2.
    repeat split; lra.
Defined.

(* ================================================================= *)
(** ** Further properties: Sequencer *)

Module SequencerMore.
Import Synthesis.

Lemma int16View_range : forall data ints,
  Pcm.int16View data = Some ints -> Forall isInt16 ints.
Proof.
  intros data. pattern data. apply PcmMore.pair_induction.
  - intros ints [= <-]. constructor.
  - intros x ints E. discriminate.
  - intros x y l IH ints E. rewrite PcmMore.int16View_pair in E.
    destruct (Pcm.int16View l) as [r|]; [|discriminate].
    injection E as <-. constructor; [apply PcmMore.wrap16_range | now apply IH].
Qed.

Lemma duration_positive b : decodedBuffer b -> 0 < Pcm.duration b.
Proof.
  intros (R & F & _). rewrite (PcmMore.duration_24000 b R).
  assert (P : 0 < inject_Z (Z.of_nat (Pcm.frames b))).
  { change 0 with (inject_Z 0). rewrite <- Zlt_Qlt. lia. }
  lra.
Qed.

Lemma StampedFrom_positive segs : forall t bufs,
  StampedFrom t segs bufs -> Forall decodedBuffer bufs ->
  PositiveDurations segs.
Proof.
  induction segs as [|s segs IH]; intros t bufs H Hb i a Ha.
  - destruct i; discriminate.
  - destruct bufs as [|b bufs]; [contradiction|].
    destruct H as (Hs & He & Hr). inversion Hb as [|? ? Hd Hb']; subst.
    destruct i as [|i]; simpl in Ha.
    + injection Ha as <-. rewrite He. pose proof (duration_positive b Hd).
      lra.
    + exact (IH _ _ Hr Hb' i a Ha).
Qed.

Lemma encode_decode ints :
  Forall isInt16 ints ->
  Pcm.encode (Pcm.decode ints) = map lowered ints.
Proof.
  unfold Pcm.encode, Pcm.decode. induction 1 as [|n ints Hn _ IH];
    [reflexivity|].
  cbn [map]. rewrite IH. f_equal. now apply PcmMore.encode_decodeSample.
Qed.

Lemma int16Bytes_length ints :
  length (Pcm.int16Bytes ints) = (2 * length ints)%nat.
Proof.
  induction ints as [|z ints IH]; [reflexivity|].
  rewrite PcmMore.int16Bytes_cons. cbn [length]. rewrite IH. lia.
Qed.

Lemma int16Bytes_bytes ints : Forall isByte (Pcm.int16Bytes ints).
Proof.
  induction ints as [|z ints IH]; [constructor|].
  rewrite PcmMore.int16Bytes_cons.
  assert (B : forall v, isByte (Z.to_N (v mod 256))).
  { intros v. unfold isByte. pose proof (Z.mod_pos_bound v 256). lia. }
  repeat constructor; trivial; apply B.
Qed.

Section AnyProvider.

Variable provider : nat -> str -> str -> Response.
Variable atob : str -> option (list N).
Variable random : nat -> Q.

Lemma call_buffer fuel text voice w audio :
  fst (generateSingleSpeakerAudio provider atob random fuel text voice w)
  = Ok audio ->
  decodedBuffer (buffer audio).
Proof.
  intros H.
  destruct (ClientMore.attemptLoop_buffer provider atob random text voice
                                           fuel 0 w audio H)
    as (R & F & ints & V & E).
  repeat split; trivial. exists ints. split; trivial.
  exact (int16View_range _ _ V).
Qed.

(** Every buffer collected by a successful pass of the loop is decoded
    audio. *)
Lemma synthesizeAll_buffers fuel hostVoice expertVoice merged :
  forall st w st' w',
    synthesizeAll provider atob random fuel hostVoice expertVoice
                  merged st w = (Ok st', w') ->
    Forall decodedBuffer (audioBuffers st) ->
    Forall decodedBuffer (audioBuffers st').
Proof.
  induction merged as [|segment more IH]; intros st w st' w' H Hb.
  - now injection H as <- <-.
  - rewrite SynthesisFacts.synthesizeAll_cons in H.
    destruct (trim (text segment)) as [|c rest]; [exact (IH _ _ _ _ H Hb)|].
    cbv zeta in H.
    destruct (generateSingleSpeakerAudio _ _ _ _ _ _ _)
      as [[audioResult|e] w1] eqn:G; [|discriminate].
    apply (IH _ _ _ _ H). cbn [audioBuffers].
    apply Forall_app. split; trivial. constructor; [|constructor].
    apply (call_buffer fuel (c :: rest)
             (match speaker segment with
              | Host => hostVoice | Expert => expertVoice end)
             (match audioBuffers st with
              | [] => w | _ :: _ => w ++ [EvSleep 1000] end)).
    now rewrite G.
Qed.

(** The requests and the contexts of the loop, whatever the provider. *)
Lemma synthesizeAll_bounds fuel hostVoice expertVoice merged :
  forall st w,
    let w' := snd (synthesizeAll provider atob random fuel
                                 hostVoice expertVoice merged st w) in
    (countRequests w'
     <= countRequests w + 11 * length (filter spoken merged))%nat
    /\ Balanced w w'.
Proof.
  induction merged as [|segment more IH]; intros st w; cbv zeta.
  - cbn [synthesizeAll ret snd filter length]. split; [lia|].
    apply ClientMore.Balanced_refl.
  - rewrite SynthesisFacts.synthesizeAll_cons. simpl filter.
    unfold spoken at 1.
    destruct (trim (text segment)) as [|c rest]; [apply IH|].
    cbv zeta.
    set (voiceName := match speaker segment with
                      | Host => hostVoice | Expert => expertVoice end).
    set (w0 := match audioBuffers st with
               | [] => w | _ :: _ => w ++ [EvSleep 1000] end).
    assert (B0 : Balanced w w0 /\ countRequests w0 = countRequests w).
    { unfold w0. destruct (audioBuffers st).
      - split; [apply ClientMore.Balanced_refl | reflexivity].
      - split; [now apply ClientMore.Balanced_step|].
        rewrite SynthesisFacts.countRequests_app. cbn. lia. }
    destruct B0 as [B0 C0].
    destruct (ClientMore.attemptLoop_bounds
                provider atob random (c :: rest) voiceName fuel 0 w0)
      as (U & _ & B1).
    { unfold maxRetries. lia. }
    fold (generateSingleSpeakerAudio provider atob random fuel
                                     (c :: rest) voiceName w0) in U, B1.
    unfold maxRetries in U. cbn [Nat.add Nat.sub] in U.
    destruct (generateSingleSpeakerAudio _ _ _ _ _ _ _)
      as [[audioResult|e] w1]; cbn [snd] in U, B1.
    + match goal with
      | |- context [synthesizeAll _ _ _ _ _ _ _ ?s w1] =>
          destruct (IH s w1) as [U2 B2]
      end.
      split.
      * cbn [length]. lia.
      * apply ClientMore.Balanced_trans with w0; trivial.
        now apply ClientMore.Balanced_trans with w1.
    + cbn [snd length]. split; [lia|].
      now apply ClientMore.Balanced_trans with w0.
Qed.

(** With a provider that answers every request with audio: the requests
    and the pauses of the loop. *)
Lemma synthesizeAll_steady_log fuel hostVoice expertVoice merged :
  (forall n prompt voice, audioOf atob (provider n prompt voice) <> None) ->
  fuel <> 0%nat ->
  forall st w,
    exists st' w',
      synthesizeAll provider atob random fuel hostVoice expertVoice
                    merged st w = (Ok st', w')
      /\ requestsOf w'
         = requestsOf w
           ++ map (requestFor hostVoice expertVoice) (filter spoken merged)
      /\ sleepsOf w'
         = sleepsOf w
           ++ repeat 1000 (pacingPauses (audioBuffers st)
                                        (filter spoken merged)).
Proof.
  intros Hp Hfuel.
  induction merged as [|segment more IH]; intros st w.
  - exists st, w. split; [reflexivity|].
    cbn [filter map]. rewrite app_nil_r. split; [reflexivity|].
    unfold pacingPauses. destruct (audioBuffers st); cbn;
      now rewrite app_nil_r.
  - rewrite SynthesisFacts.synthesizeAll_cons. cbn [filter].
    destruct (trim (text segment)) as [|c rest] eqn:T.
    { replace (spoken segment) with false
        by (unfold spoken; now rewrite T).
      apply IH. }
    replace (spoken segment) with true by (unfold spoken; now rewrite T).
    cbv zeta.
    set (voiceName := match speaker segment with
                      | Host => hostVoice | Expert => expertVoice end).
    set (w0 := match audioBuffers st with
               | [] => w | _ :: _ => w ++ [EvSleep 1000] end).
    destruct (audioOf atob (provider (countRequests w0)
                                     (promptFor (c :: rest)) voiceName))
      as [audio|] eqn:A; [|now apply Hp in A].
    destruct fuel as [|fuel']; [congruence|].
    unfold generateSingleSpeakerAudio.
    rewrite SynthesisFacts.attemptLoop_round.
    rewrite (SynthesisFacts.requestOnce_audio
               provider atob (c :: rest) voiceName w0 audio A).
    match goal with
    | |- context [synthesizeAll _ _ _ _ _ _ _ ?s ?w1] =>
        destruct (IH s w1) as (st' & w' & Es & Er & Ep)
    end.
    exists st', w'. split; [exact Es|].
    cbn [audioBuffers] in Ep. split.
    + rewrite Er. unfold requestsOf at 1. rewrite !flat_map_app.
      fold (requestsOf w0). cbn [map flat_map app].
      replace (requestsOf w0) with (requestsOf w).
      * unfold requestFor at 2. rewrite T. fold voiceName.
        now rewrite <- !app_assoc.
      * unfold w0. destruct (audioBuffers st); trivial.
        unfold requestsOf. rewrite flat_map_app. cbn.
        now rewrite app_nil_r.
    + rewrite Ep. unfold sleepsOf at 1. rewrite !flat_map_app.
      fold (sleepsOf w0). cbn [flat_map app]. rewrite !app_nil_r.
      unfold pacingPauses.
      destruct (audioBuffers st ++ [buffer audio]) as [|b0 bs] eqn:Z.
      { destruct (audioBuffers st); discriminate. }
      unfold w0. destruct (audioBuffers st) as [|b1 bufs].
      * cbn [length Nat.sub]. now rewrite Nat.sub_0_r.
      * unfold sleepsOf at 1. rewrite flat_map_app.
        fold (sleepsOf w). cbn [flat_map app length repeat].
        rewrite <- app_assoc. f_equal.
Qed.

End AnyProvider.

End SequencerMore.

Module RunMore.
Import Synthesis.

Section AnyProvider.

Variable provider : nat -> str -> str -> Response.
Variable atob : str -> option (list N).
Variable random : nat -> Q.

(** What a successful run returns, in terms of the buffers of its units. *)
Lemma run_ok fuel raw hostVoice expertVoice w audio segs w' :
  generateSequencedSpeech provider atob random fuel raw hostVoice expertVoice w
  = (Ok (audio, segs), w') ->
  exists bufs,
    bufs <> []
    /\ Forall decodedBuffer bufs
    /\ StampedFrom 0 segs bufs
    /\ buffer audio = Pcm.concatenateAudioBuffers bufs
    /\ rawData audio
       = Pcm.int16Bytes
           (Pcm.encode (Pcm.channelData (Pcm.concatenateAudioBuffers bufs))).
Proof.
  rewrite SynthesisFacts.generateSequencedSpeech_unfold.
  destruct (synthesizeAll _ _ _ _ _ _ _ _ _) as [[st|e] w1] eqn:E;
    [|discriminate].
  pose proof (SequencerMore.synthesizeAll_buffers
                provider atob random fuel hostVoice expertVoice _ _ _ _ _ E)
    as Hb.
  apply SynthesisFacts.synthesizeAll_ok in E.
  destruct E as (newSegs & bufs & Es & Eb & _ & Hst).
  cbn [finalSegments audioBuffers currentOffset app] in Es, Eb, Hst, Hb.
  specialize (Hb (Forall_nil _)).
  destruct (audioBuffers st) as [|b bs] eqn:A; [discriminate|].
  intros [= <- <- _]. exists bufs. rewrite <- Eb, Es.
  repeat split; trivial; [discriminate | now rewrite Eb].
Qed.

End AnyProvider.

End RunMore.

(** X16. Whatever the provider does, a run of the Sequencer issues at most
    11 requests for each merged unit with text, hence at most 11 for each
    input segment; every audio context opened during the run is closed,
    and closing its own context is the last thing the run does. *)
Theorem run_is_bounded_and_releases_contexts
        provider atob random fuel rawSegments hostVoice expertVoice w :
  let w' :=
    snd (Synthesis.generateSequencedSpeech provider atob random fuel
                                           rawSegments hostVoice expertVoice
                                           w) in
  let units := filter spoken (Merger.mergeSegments rawSegments) in
  (countRequests w' <= countRequests w + 11 * length units)%nat
  /\ (length units <= length rawSegments)%nat
  /\ Balanced w w'
  /\ exists before, w' = before ++ [EvContextClose].
Proof.
  intros w' units. unfold w'.
  rewrite SynthesisFacts.generateSequencedSpeech_unfold.
  destruct (SequencerMore.synthesizeAll_bounds
              provider atob random fuel hostVoice expertVoice
              (Merger.mergeSegments rawSegments)
              (Synthesis.mkSeq [] [] 0) (w ++ [EvContextOpen])) as [U B].
  fold units in U.
  assert (L : (length units <= length rawSegments)%nat).
  { unfold units.
    apply Nat.le_trans with (length (Merger.mergeSegments rawSegments));
      [apply filter_length_le|].
    destruct rawSegments as [|first rest]; [reflexivity|].
    apply (MergerMore.mergeLoop_length rest first). }
  destruct (Synthesis.synthesizeAll _ _ _ _ _ _ _ _ _) as [r w1].
  cbn [snd] in U, B.
  assert (G : (countRequests (w1 ++ [EvContextClose])
               <= countRequests w + 11 * length units)%nat
              /\ (length units <= length rawSegments)%nat
              /\ Balanced w (w1 ++ [EvContextClose])
              /\ exists before, w1 ++ [EvContextClose]
                                = before ++ [EvContextClose]).
  { repeat split; trivial.
    - rewrite !SynthesisFacts.countRequests_app in *. cbn in *. lia.
    - destruct B as (d & -> & Bd).
      exists ([EvContextOpen] ++ d ++ [EvContextClose]).
      split; [now rewrite <- !app_assoc|].
      unfold countOpens, countCloses in *.
      rewrite !filter_app, !length_app. cbn. lia.
    - now exists w1. }
  destruct r as [st|e]; [destruct (Synthesis.audioBuffers st)|];
    cbn [snd]; exact G.
Qed.

Module PacingMore.
Import Synthesis.

Section AnyProvider.

Variable provider : nat -> str -> str -> Response.
Variable atob : str -> option (list N).
Variable random : nat -> Q.

(** With a provider that answers every request with audio: the log of
    the loop, event by event. *)
Lemma synthesizeAll_steady_exact fuel hostVoice expertVoice merged :
  (forall n prompt voice, audioOf atob (provider n prompt voice) <> None) ->
  fuel <> 0%nat ->
  forall st w,
    exists st',
      synthesizeAll provider atob random fuel hostVoice expertVoice
                    merged st w
      = (Ok st',
         w ++ steadyLog hostVoice expertVoice
                (match audioBuffers st with [] => true | _ :: _ => false end)
                (filter spoken merged)).
Proof.
  intros Hp Hfuel.
  induction merged as [|segment more IH]; intros st w.
  - exists st. cbn [filter steadyLog synthesizeAll ret].
    now rewrite app_nil_r.
  - rewrite SynthesisFacts.synthesizeAll_cons. cbn [filter].
    destruct (trim (text segment)) as [|c rest] eqn:T.
    { replace (spoken segment) with false
        by (unfold spoken; now rewrite T).
      apply IH. }
    replace (spoken segment) with true by (unfold spoken; now rewrite T).
    cbv zeta.
    set (voiceName := match speaker segment with
                      | Host => hostVoice | Expert => expertVoice end).
    set (w0 := match audioBuffers st with
               | [] => w | _ :: _ => w ++ [EvSleep 1000] end).
    destruct (audioOf atob (provider (countRequests w0)
                                     (promptFor (c :: rest)) voiceName))
      as [audio|] eqn:A; [|now apply Hp in A].
    destruct fuel as [|fuel']; [congruence|].
    unfold generateSingleSpeakerAudio.
    rewrite SynthesisFacts.attemptLoop_round.
    rewrite (SynthesisFacts.requestOnce_audio
               provider atob (c :: rest) voiceName w0 audio A).
    match goal with
    | |- context [synthesizeAll _ _ _ _ _ _ _ ?s ?w1] =>
        destruct (IH s w1) as (st' & Es)
    end.
    exists st'. rewrite Es. f_equal.
    cbn [audioBuffers steadyLog]. unfold requestFor. rewrite T.
    cbn [fst snd]. fold voiceName.
    replace (match audioBuffers st ++ [buffer audio] with
             | [] => true | _ :: _ => false end) with false
      by (now destruct (audioBuffers st)).
    unfold w0. destruct (audioBuffers st); cbn [app];
      now rewrite <- !app_assoc.
Qed.

End AnyProvider.

End PacingMore.

(** X17. With a provider that answers every request with audio, the log
    of a run is known event by event: the run opens its audio context,
    then for each merged unit with text, in order, it sends one request,
    carrying the directive around the unit's trimmed text and the host's
    voice for a Host unit, the expert's for an Expert unit, and decodes the
    answer in a context of its own; it pauses one second before the
    request of every unit but the first, so between successive requests
    and not before the first; and it closes its audio context last. *)
Theorem steady_run_requests_and_pacing
        provider atob random fuel rawSegments hostVoice expertVoice w :
  (forall n prompt voice, audioOf atob (provider n prompt voice) <> None) ->
  fuel <> 0%nat ->
  let w' :=
    snd (Synthesis.generateSequencedSpeech provider atob random fuel
                                           rawSegments hostVoice expertVoice
                                           w) in
  let units := filter spoken (Merger.mergeSegments rawSegments) in
  w' = w ++ [EvContextOpen]
         ++ steadyLog hostVoice expertVoice true units
         ++ [EvContextClose]
  /\ requestsOf w'
     = requestsOf w ++ map (requestFor hostVoice expertVoice) units
  /\ beatsOf (steadyLog hostVoice expertVoice true units)
     = match units with
       | [] => []
       | _ :: more => Request :: pausedRequests (repeat 1000 (length more))
       end.
Proof.
  intros Hp Hfuel w' units.
  assert (L : w' = w ++ [EvContextOpen]
                     ++ steadyLog hostVoice expertVoice true units
                     ++ [EvContextClose]).
  { unfold w'. rewrite SynthesisFacts.generateSequencedSpeech_unfold.
    destruct (PacingMore.synthesizeAll_steady_exact
                provider atob random fuel hostVoice expertVoice
                (Merger.mergeSegments rawSegments) Hp Hfuel
                (Synthesis.mkSeq [] [] 0) (w ++ [EvContextOpen]))
      as (st & Es).
    rewrite Es. cbn [Synthesis.audioBuffers]. fold units.
    destruct (Synthesis.audioBuffers st); cbn [snd];
      now rewrite <- !app_assoc. }
  split; [exact L|]. split.
  - unfold w'. rewrite SynthesisFacts.generateSequencedSpeech_unfold.
    destruct (SequencerMore.synthesizeAll_steady_log
                provider atob random fuel hostVoice expertVoice
                (Merger.mergeSegments rawSegments) Hp Hfuel
                (Synthesis.mkSeq [] [] 0) (w ++ [EvContextOpen]))
      as (st & w1 & Es & Er & _).
    rewrite Es. fold units in Er.
    assert (G : requestsOf (w1 ++ [EvContextClose])
                = requestsOf w
                  ++ map (requestFor hostVoice expertVoice) units).
    { unfold requestsOf in *. rewrite !flat_map_app in *.
      cbn [flat_map] in *. now rewrite !app_nil_r in *. }
    destruct (Synthesis.audioBuffers st); exact G.
  - assert (P : forall l,
               beatsOf (steadyLog hostVoice expertVoice false l)
               = pausedRequests (repeat 1000 (length l))).
    { induction l as [|u l IH]; [reflexivity|].
      cbn [steadyLog length repeat pausedRequests].
      rewrite !BackoffMore.beatsOf_app, IH. reflexivity. }
    destruct units as [|u more]; [reflexivity|].
    cbn [steadyLog]. rewrite !BackoffMore.beatsOf_app, P. reflexivity.
Qed.

Lemma steady_run_requests_and_pacing_witness :
  snd (Synthesis.generateSequencedSpeech
         steadyProvider plainAtob noJitter 11 demoSegments
         (lit "Kore") (lit "Puck") [])
  = [ EvContextOpen;
      EvRequest (Synthesis.promptFor (lit "Hello. Welcome.")) (lit "Kore");
      EvContextOpen; EvContextClose;
      EvSleep 1000;
      EvRequest (Synthesis.promptFor (lit "Hi there.")) (lit "Puck");
      EvContextOpen; EvContextClose;
      EvSleep 1000;
      EvRequest (Synthesis.promptFor (lit "Let's continue.")) (lit "Kore");
      EvContextOpen; EvContextClose;
      EvContextClose ].
Proof.
  destruct (steady_run_requests_and_pacing
              steadyProvider plainAtob noJitter 11 demoSegments
              (lit "Kore") (lit "Puck") []) as [A _].
  - intros n prompt voice. vm_compute. discriminate.
  - discriminate.
  - exact A.
Defined.

Module PayloadMore.

(** The 16-bit view of two byte sequences, one after the other. *)
Lemma int16View_app : forall a b la lb,
  Pcm.int16View a = Some la -> Pcm.int16View b = Some lb ->
  Pcm.int16View (a ++ b) = Some (la ++ lb).
Proof.
  intros a. pattern a. apply PcmMore.pair_induction.
  - intros b la lb [= <-] Hb. exact Hb.
  - intros x b la lb E. discriminate.
  - intros x y l IH b la lb E Hb. cbn [app].
    rewrite PcmMore.int16View_pair in E |- *.
    destruct (Pcm.int16View l) as [r|] eqn:V; [|discriminate].
    injection E as <-. now rewrite (IH b r lb eq_refl Hb).
Qed.

(** The audio of a response: its bytes are the decoded payload, its
    buffer holds the samples these bytes spell. *)
Lemma audioOf_samples atob r audio :
  audioOf atob r = Some audio ->
  exists ints,
    Pcm.int16View (Synthesis.rawData audio) = Some ints
    /\ Pcm.channelData (Synthesis.buffer audio) = Pcm.decode ints.
Proof.
  unfold audioOf.
  destruct r as [[[|c b64]|] tp | e]; try discriminate.
  destruct (atob (c :: b64)) as [bytes|]; [|discriminate].
  unfold Pcm.decodeAudioData.
  destruct (Pcm.int16View bytes) as [[|z zs]|] eqn:V; try discriminate.
  intros [= <-]. exists (z :: zs). now split.
Qed.

Lemma AnsweredFrom_samples provider atob hostVoice expertVoice units :
  forall from audios,
    AnsweredFrom provider atob hostVoice expertVoice from units audios ->
    exists ints,
      Pcm.int16View (concat (map Synthesis.rawData audios)) = Some ints
      /\ flat_map Pcm.channelData (map Synthesis.buffer audios)
         = Pcm.decode ints.
Proof.
  induction units as [|unit units IH]; intros from [|audio audios] H;
    try contradiction.
  - now exists [].
  - cbn [AnsweredFrom] in H. destruct H as (n & _ & _ & Ha & Hr).
    destruct (audioOf_samples _ _ _ Ha) as (ints & Vi & Ci).
    destruct (IH _ _ Hr) as (rest & Vr & Cr).
    exists (ints ++ rest). cbn [map concat flat_map]. split.
    + now apply int16View_app.
    + rewrite Ci, Cr. unfold Pcm.decode. now rewrite map_app.
Qed.

End PayloadMore.

(** X19. The bytes a successful run returns are not the provider's bytes:
    take the payloads the provider answered for the units, decoded from
    base64 and laid end to end, and read them as 16-bit samples; the
    returned buffer holds these samples, and the returned bytes are the
    bytes of these samples with every positive one decreased by 1. *)
Theorem successful_run_lowers_positive_samples
        provider atob random fuel rawSegments hostVoice expertVoice
        w audio segs w' :
  Synthesis.generateSequencedSpeech provider atob random fuel rawSegments
                                    hostVoice expertVoice w
  = (Ok (audio, segs), w') ->
  exists audios ints,
    AnsweredFrom provider atob hostVoice expertVoice (countRequests w)
                 (filter spoken (Merger.mergeSegments rawSegments)) audios
    /\ Pcm.int16View (concat (map Synthesis.rawData audios)) = Some ints
    /\ Pcm.channelData (Synthesis.buffer audio) = Pcm.decode ints
    /\ Synthesis.rawData audio = Pcm.int16Bytes (map lowered ints).
Proof.
  intros H.
  destruct (AnswerFacts.run_answered
              provider atob random fuel rawSegments hostVoice expertVoice
              w audio segs w' H) as (audios & Hn & _ & _ & Eb & Er).
  destruct (PayloadMore.AnsweredFrom_samples _ _ _ _ _ _ _ Hn)
    as (ints & Vi & Ci).
  exists audios, ints. split; [exact Hn|]. split; [exact Vi|].
  assert (C : Pcm.channelData (Synthesis.buffer audio) = Pcm.decode ints).
  { rewrite Eb. exact Ci. }
  split; [exact C|]. rewrite Er, C.
  now rewrite (SequencerMore.encode_decode
                 ints (SequencerMore.int16View_range _ _ Vi)).
Qed.

Lemma successful_run_lowers_positive_samples_witness :
  exists audio segs w' audios ints,
    Synthesis.generateSequencedSpeech
      steadyProvider plainAtob noJitter 11 demoSegments
      (lit "Kore") (lit "Puck") []
    = (Ok (audio, segs), w')
    /\ AnsweredFrom steadyProvider plainAtob (lit "Kore") (lit "Puck") 0
                    (filter spoken (Merger.mergeSegments demoSegments))
                    audios
    /\ Pcm.int16View (concat (map Synthesis.rawData audios)) = Some ints
    /\ Synthesis.rawData audio = Pcm.int16Bytes (map lowered ints)
    /\ Synthesis.rawData audio
       = [255; 63; 0; 192; 255; 63; 0; 192; 255; 63; 0; 192]%N.
Proof.
  destruct (Synthesis.generateSequencedSpeech
              steadyProvider plainAtob noJitter 11 demoSegments
              (lit "Kore") (lit "Puck") []) as [[[audio segs]|e] w'] eqn:E.
  - destruct (successful_run_lowers_positive_samples
                steadyProvider plainAtob noJitter 11 demoSegments
                (lit "Kore") (lit "Puck") [] audio segs w' E)
      as (audios & ints & A & V & _ & R).
    exists audio, segs, w', audios, ints. split; [reflexivity|].
    split; [exact A|]. split; [exact V|]. split; [exact R|].
    vm_compute in E. now injection E as <- _ _.
  - vm_compute in E. discriminate.
Defined.

(** Units merged from the Segmenter's output have text. *)
Lemma segmenter_output_is_never_skipped_aux
      (upperNonAscii : N -> N) (randomId : nat -> str)
      (fullText hostName expertName : str) :
  filter spoken
         (Merger.mergeSegments
            (Segmenter.parseScriptToSegments upperNonAscii randomId
                                             hostName expertName fullText))
  = Merger.mergeSegments
      (Segmenter.parseScriptToSegments upperNonAscii randomId
                                       hostName expertName fullText).
Proof.
  set (merged := Merger.mergeSegments _).
  assert (A : forall l, Forall (fun s => spoken s = true) l ->
                        filter spoken l = l).
  { induction 1 as [|s l Hs _ IH]; [reflexivity|].
    cbn [filter]. now rewrite Hs, IH. }
  assert (B : forall rest current,
             spoken current = true ->
             Forall (fun s => spoken s = true) rest ->
             Forall (fun s => spoken s = true)
                    (Merger.mergeLoop current rest)).
  { induction rest as [|next rest IH]; intros current Hc Hr; simpl.
    - now constructor.
    - inversion Hr as [|? ? Hn Hr']; subst.
      destruct (Merger.sameRun next current).
      + apply IH; trivial. unfold spoken in *.
        cbn [Merger.appendText text].
        destruct (trim (text current ++ lit " " ++ text next)) eqn:T;
          trivial.
        apply SynthesisFacts.trim_nil in T.
        rewrite forallb_app in T. apply andb_true_iff in T.
        destruct T as [T _]. apply SynthesisFacts.trim_nil in T.
        now rewrite T in Hc.
      + constructor; trivial. now apply IH. }
  apply A. unfold merged.
  assert (C : Forall (fun s => spoken s = true)
                     (Segmenter.parseScriptToSegments
                        upperNonAscii randomId hostName expertName fullText)).
  { apply Forall_forall. intros s Hs.
    destruct (In_nth_error _ _ Hs) as [i Hi].
    destruct (SegmenterMore.parse_sound _ _ _ _ _ _ _ Hi) as (Hne & Ht & _).
    unfold spoken. rewrite Ht. now destruct (text s). }
  destruct C as [|first rest Hf Hr]; [constructor|].
  now apply B.
Qed.

(** X20. Nothing the Segmenter produces is skipped by the Sequencer: every
    unit merged from the Segmenter's output has text that is not blank, so
    each of them is sent to the provider. *)
Theorem segmenter_output_is_never_skipped
        (upperNonAscii : N -> N) (randomId : nat -> str)
        (fullText hostName expertName : str) :
  let merged :=
    Merger.mergeSegments
      (Segmenter.parseScriptToSegments upperNonAscii randomId
                                       hostName expertName fullText) in
  filter spoken merged = merged.
Proof.
  apply segmenter_output_is_never_skipped_aux.
Qed.

(* ================================================================= *)
(** ** Further properties: Playback Synchronizer *)

Module SynchronizerMore.
Import Synchronizer TimelineFacts.

Lemma resolve_inside l t i seg :
  Chain 0 l -> nth_error l i = Some seg ->
  startTime seg <= t -> t < endTime seg ->
  resolveActive l t = Some (Z.of_nat i, slideIndex seg).
Proof.
  intros H Hi Hs He. unfold resolveActive, findIndex.
  rewrite (SynchronizerFacts.findIndexFrom_inside _ _ _ 0%Z _ _ H Hi Hs He).
  cbn [Z.add].
  replace (Z.of_nat i =? -1)%Z with false by (symmetry; apply Z.eqb_neq; lia).
  cbn [negb]. now rewrite Nat2Z.id, Hi.
Qed.

Lemma resolve_after l t z :
  Chain 0 l -> nth_error l (length l - 1) = Some z -> endTime z <= t ->
  resolveActive l t = Some ((Z.of_nat (length l) - 1)%Z, slideIndex z).
Proof.
  intros H Hz Ht. unfold resolveActive, findIndex.
  rewrite (SynchronizerFacts.findIndexFrom_after _ _ _ 0%Z _ H Hz Ht).
  cbn [Z.eqb negb].
  destruct l as [|s l]; [discriminate|].
  change (0 <? length (s :: l))%nat with true. cbv iota.
  rewrite Hz. apply Qle_bool_iff in Ht. now rewrite Ht.
Qed.

(** A time at or after the origin of a chain lies in one of its intervals
    or at or after its end. *)
Lemma Chain_locate l : forall t0 t,
  Chain t0 l -> l <> [] -> t0 <= t ->
  (exists i seg, nth_error l i = Some seg
                 /\ startTime seg <= t /\ t < endTime seg)
  \/ (exists z, nth_error l (length l - 1) = Some z /\ endTime z <= t).
Proof.
  induction l as [|s l IH]; intros t0 t H Hne Ht; [congruence|].
  destruct H as (H0 & H1 & H2).
  destruct (Qlt_le_dec t (endTime s)) as [In | Out].
  - left. exists 0%nat, s. repeat split; trivial. now rewrite H0.
  - destruct l as [|s' l'].
    + right. exists s. now split.
    + destruct (IH _ _ H2 ltac:(discriminate) Out)
        as [(i & seg & Hi & A & B) | (z & Hz & A)].
      * left. exists (S i), seg. now repeat split.
      * right. exists z. split; trivial.
        cbn [length Nat.sub] in Hz |- *. now rewrite Nat.sub_0_r in *.
Qed.

(** An earlier segment of a chain ends before a later one starts. *)
Lemma Chain_order l : forall t0 i j a b,
  Chain t0 l -> (i < j)%nat ->
  nth_error l i = Some a -> nth_error l j = Some b ->
  endTime a <= startTime b.
Proof.
  induction l as [|s l IH]; intros t0 i j a b H Hij Ha Hb.
  - destruct i; discriminate.
  - destruct H as (H0 & H1 & H2). destruct j as [|j]; [lia|].
    cbn [nth_error] in Hb. destruct i as [|i]; cbn [nth_error] in Ha.
    + injection Ha as <-. exact (Chain_start_ge _ _ _ _ H2 Hb).
    + apply (IH _ i j a b H2); trivial. lia.
Qed.

Lemma slides_ordered l : SlideIndexMonotone l ->
  forall d i a b,
    nth_error l i = Some a -> nth_error l (i + d) = Some b ->
    (slideIndex a <= slideIndex b)%Z.
Proof.
  intros Hm. induction d as [|d IH]; intros i a b Ha Hb.
  - rewrite Nat.add_0_r in Hb. rewrite Ha in Hb. injection Hb as <-. lia.
  - destruct (nth_error l (i + d)) as [c|] eqn:Hc.
    + apply Z.le_trans with (slideIndex c); [exact (IH i a c Ha Hc)|].
      apply (Hm (i + d)%nat c b Hc). now rewrite <- Nat.add_succ_r.
    + exfalso. apply nth_error_None in Hc.
      assert (N : nth_error l (i + S d) = None)
        by (apply nth_error_None; lia).
      congruence.
Qed.

End SynchronizerMore.

(** X21. During playback there is always an active segment: on a list
    that is not empty and satisfies the contiguity invariant with positive
    durations, every time that is not negative resolves to the index of a
    segment of the list, together with that segment's slide index. *)
Theorem playback_always_resolves (segments : list ScriptSegment) (t : Q) :
  segments <> [] -> Contiguous segments -> PositiveDurations segments ->
  0 <= t ->
  exists i seg,
    nth_error segments i = Some seg
    /\ Synchronizer.resolveActive segments t
       = Some (Z.of_nat i, slideIndex seg).
Proof.
  intros Hne Hc Hp Ht.
  pose proof (TimelineFacts.Chain_of_Contiguous _ Hc Hp) as H.
  destruct (SynchronizerMore.Chain_locate _ _ _ H Hne Ht)
    as [(i & seg & Hi & A & B) | (z & Hz & A)].
  - exists i, seg. split; trivial.
    now apply SynchronizerMore.resolve_inside.
  - exists (length segments - 1)%nat, z. split; trivial.
    rewrite (SynchronizerMore.resolve_after _ _ _ H Hz A).
    destruct segments; [congruence|]. do 2 f_equal. cbn [length]. lia.
Qed.

Lemma playback_always_resolves_witness :
  exists i seg,
    nth_error demoSegments i = Some seg
    /\ Synchronizer.resolveActive demoSegments 100
       = Some (Z.of_nat i, slideIndex seg).
Proof.
  assert (N : demoSegments <> []) by (vm_compute; discriminate).
  assert (C : Chain 0 demoSegments)
    by (vm_compute; repeat split; reflexivity).
  destruct (TimelineFacts.Contiguous_of_Chain _ C) as [Hc Hp].
  apply (playback_always_resolves demoSegments 100 N Hc Hp).
  vm_compute. discriminate.
Defined.

(** X22. Playback never steps back: on a list that satisfies the
    contiguity invariant with positive durations, a later time resolves to
    an index that is not smaller, and, when the slide indices of the list
    never decrease, to a slide index that is not smaller. *)
Theorem playback_never_steps_back
        (segments : list ScriptSegment) (t1 t2 : Q) (i1 i2 s1 s2 : Z) :
  Contiguous segments -> PositiveDurations segments ->
  0 <= t1 -> t1 <= t2 ->
  Synchronizer.resolveActive segments t1 = Some (i1, s1) ->
  Synchronizer.resolveActive segments t2 = Some (i2, s2) ->
  (i1 <= i2)%Z /\ (SlideIndexMonotone segments -> (s1 <= s2)%Z).
Proof.
  intros Hc Hp H1 H12 R1 R2.
  pose proof (TimelineFacts.Chain_of_Contiguous _ Hc Hp) as H.
  assert (Hne : segments <> []) by (intros ->; discriminate).
  assert (H2 : 0 <= t2) by lra.
  assert (G : exists n1 n2 a b,
             (n1 <= n2)%nat
             /\ nth_error segments n1 = Some a
             /\ nth_error segments n2 = Some b
             /\ i1 = Z.of_nat n1 /\ i2 = Z.of_nat n2
             /\ s1 = slideIndex a /\ s2 = slideIndex b).
  { destruct (SynchronizerMore.Chain_locate _ _ _ H Hne H1)
      as [(n1 & a & Ha & A1 & B1) | (z & Hz & A1)].
    - rewrite (SynchronizerMore.resolve_inside _ _ _ _ H Ha A1 B1) in R1.
      injection R1 as <- <-.
      destruct (SynchronizerMore.Chain_locate _ _ _ H Hne H2)
        as [(n2 & b & Hb & A2 & B2) | (z & Hz & A2)].
      + rewrite (SynchronizerMore.resolve_inside _ _ _ _ H Hb A2 B2) in R2.
        injection R2 as <- <-.
        exists n1, n2, a, b. repeat split; trivial.
        destruct (Nat.le_gt_cases n1 n2) as [L | G]; trivial.
        pose proof (SynchronizerMore.Chain_order _ _ _ _ _ _ H G Hb Ha).
        lra.
      + rewrite (SynchronizerMore.resolve_after _ _ _ H Hz A2) in R2.
        injection R2 as <- <-.
        exists n1, (length segments - 1)%nat, a, z.
        assert (n1 < length segments)%nat
          by (apply nth_error_Some; congruence).
        repeat split; trivial; lia.
    - rewrite (SynchronizerMore.resolve_after _ _ _ H Hz A1) in R1.
      injection R1 as <- <-.
      assert (A2 : endTime z <= t2) by lra.
      rewrite (SynchronizerMore.resolve_after _ _ _ H Hz A2) in R2.
      injection R2 as <- <-.
      assert (0 < length segments)%nat by (destruct segments; [congruence | cbn; lia]).
      exists (length segments - 1)%nat, (length segments - 1)%nat, z, z.
      repeat split; trivial; lia. }
  destruct G as (n1 & n2 & a & b & L & Ha & Hb & -> & -> & -> & ->).
  split; [lia|]. intros Hm.
  apply (SynchronizerMore.slides_ordered _ Hm (n2 - n1) n1 a b Ha).
  now replace (n1 + (n2 - n1))%nat with n2 by lia.
Qed.

Lemma playback_never_steps_back_witness :
  Synchronizer.resolveActive demoSegments 2 = Some (1%Z, 0%Z)
  /\ Synchronizer.resolveActive demoSegments 5 = Some (3%Z, 1%Z)
  /\ (1 <= 3)%Z /\ (0 <= 1)%Z.
Proof.
  assert (C : Chain 0 demoSegments)
    by (vm_compute; repeat split; reflexivity).
  destruct (TimelineFacts.Contiguous_of_Chain _ C) as [Hc Hp].
  assert (R1 : Synchronizer.resolveActive demoSegments 2 = Some (1%Z, 0%Z))
    by reflexivity.
  assert (R2 : Synchronizer.resolveActive demoSegments 5 = Some (3%Z, 1%Z))
    by reflexivity.
  destruct (playback_never_steps_back demoSegments 2 5 1 3 0 1 Hc Hp)
    as [A B]; trivial; try (vm_compute; discriminate).
  split; [exact R1|]. split; [exact R2|]. split; [exact A|]. apply B.
  intros [|[|[|[|i]]]] a b Ha Hb; vm_compute in Ha, Hb;
    try discriminate; injection Ha as <-; injection Hb as <-;
    vm_compute; discriminate.
Defined.

(** X18. What a successful run returns is ready for playback: the
    returned list is not empty, it satisfies the contiguity invariant and
    every segment ends strictly after it starts, so the Synchronizer
    resolves every playback time that is not negative to one of the
    returned segments and its slide; and the returned bytes are two for
    each frame of the returned audio. *)
Theorem successful_run_is_playable
        provider atob random fuel rawSegments hostVoice expertVoice
        w audio segs w' :
  Synthesis.generateSequencedSpeech provider atob random fuel rawSegments
                                    hostVoice expertVoice w
  = (Ok (audio, segs), w') ->
  segs <> []
  /\ Contiguous segs
  /\ PositiveDurations segs
  /\ (forall t, 0 <= t ->
        exists i seg,
          nth_error segs i = Some seg
          /\ Synchronizer.resolveActive segs t
             = Some (Z.of_nat i, slideIndex seg))
  /\ length (Synthesis.rawData audio)
     = (2 * Pcm.frames (Synthesis.buffer audio))%nat
  /\ Forall isByte (Synthesis.rawData audio).
Proof.
  intros H.
  destruct (RunMore.run_ok provider atob random fuel rawSegments
                           hostVoice expertVoice w audio segs w' H)
    as (bufs & Hne & Hd & Hst & Eb & Er).
  assert (Hs : segs <> []).
  { intros ->. destruct bufs; [congruence | contradiction]. }
  assert (Hc : Contiguous segs).
  { destruct (SynthesisFacts.StampedFrom_indexed _ _ _ Hst) as [H0 Hi].
    split.
    - intros s Hs0. now rewrite (H0 s Hs0).
    - intros i a c Ha Hc'. now rewrite (Hi i a c Ha Hc'). }
  pose proof (SequencerMore.StampedFrom_positive _ _ _ Hst Hd) as Hp.
  split; [exact Hs|]. split; [exact Hc|]. split; [exact Hp|]. split.
  { intros t Ht.
    pose proof (TimelineFacts.Chain_of_Contiguous _ Hc Hp) as C.
    destruct (SynchronizerMore.Chain_locate _ _ _ C Hs Ht)
      as [(i & seg & Hi & A & B) | (z & Hz & A)].
    - exists i, seg. split; trivial.
      now apply SynchronizerMore.resolve_inside.
    - exists (length segs - 1)%nat, z. split; trivial.
      rewrite (SynchronizerMore.resolve_after _ _ _ C Hz A).
      destruct segs; [congruence|]. do 2 f_equal. cbn [length]. lia. }
  split.
  - rewrite Er, Eb, SequencerMore.int16Bytes_length.
    unfold Pcm.encode, Pcm.frames. now rewrite length_map.
  - rewrite Er. apply SequencerMore.int16Bytes_bytes.
Qed.

Lemma successful_run_is_playable_witness :
  exists audio segs w',
    Synthesis.generateSequencedSpeech
      steadyProvider plainAtob noJitter 11 demoSegments
      (lit "Kore") (lit "Puck") []
    = (Ok (audio, segs), w')
    /\ length segs = 3%nat
    /\ Contiguous segs
    /\ PositiveDurations segs
    /\ length (Synthesis.rawData audio)
       = (2 * Pcm.frames (Synthesis.buffer audio))%nat.
Proof.
  destruct (Synthesis.generateSequencedSpeech
              steadyProvider plainAtob noJitter 11 demoSegments
              (lit "Kore") (lit "Puck") []) as [[[audio segs]|e] w'] eqn:E.
  - exists audio, segs, w'. split; [reflexivity|].
    destruct (successful_run_is_playable
                steadyProvider plainAtob noJitter 11 demoSegments
                (lit "Kore") (lit "Puck") [] audio segs w' E)
      as (_ & C & P & _ & L & _).
    split; [|split; [exact C | split; [exact P | exact L]]].
    vm_compute in E. now injection E as _ <- _.
  - vm_compute in E. discriminate.
Defined.

(* ================================================================= *)
(** ** Further properties: the pipeline from script to WAV *)

Module PipelineMore.
Import Synthesis.

Section AnyProvider.

Variable provider : nat -> str -> str -> Response.
Variable atob : str -> option (list N).
Variable random : nat -> Q.

(** The errors of a synthesis call are those of the provider, of the
    decoding, and the two about a missing payload. *)
Lemma requestOnce_error text voice w e :
  fst (requestOnce provider atob text voice w) = Throw e ->
  e <> noAudioGenerated.
Proof.
  unfold requestOnce, noAudioGenerated.
  destruct (provider _ _ _) as [base64Audio textPart | err];
    [|intros [= <-]; discriminate].
  destruct base64Audio as [[|c b64]|].
  - destruct textPart as [[|? ?]|]; intros [= <-]; discriminate.
  - unfold tryFinally, throw, ret, emit.
    destruct (atob (c :: b64)) as [bytes|]; [|intros [= <-]; discriminate].
    unfold Pcm.decodeAudioData.
    destruct (Pcm.int16View bytes) as [[|z zs]|]; intros [= <-];
      discriminate.
  - destruct textPart as [[|? ?]|]; intros [= <-]; discriminate.
Qed.

Lemma attemptLoop_error text voice fuel : forall attempt w e,
  fst (attemptLoop provider atob random fuel text voice attempt w) = Throw e ->
  e <> noAudioGenerated.
Proof.
  induction fuel as [|fuel IH]; intros attempt w e.
  - intros [= <-]. discriminate.
  - rewrite SynthesisFacts.attemptLoop_round.
    pose proof (requestOnce_error text voice w) as R.
    destruct (requestOnce provider atob text voice w) as [[a|error] w1];
      [discriminate|].
    destruct ((isRateLimit error || isServerBusy error)
              && (S attempt <=? maxRetries)%nat); [apply IH|].
    intros [= <-]. now apply R.
Qed.

Lemma synthesizeAll_error fuel hostVoice expertVoice merged : forall st w e,
  fst (synthesizeAll provider atob random fuel hostVoice expertVoice
                     merged st w) = Throw e ->
  e <> noAudioGenerated.
Proof.
  induction merged as [|segment more IH]; intros st w e; [discriminate|].
  rewrite SynthesisFacts.synthesizeAll_cons.
  destruct (trim (text segment)) as [|c rest]; [apply IH|].
  cbv zeta.
  match goal with
  | |- context [generateSingleSpeakerAudio _ _ _ ?f ?t ?v ?w0] =>
      pose proof (attemptLoop_error t v f 0 w0) as A;
      fold (generateSingleSpeakerAudio provider atob random f t v w0) in A;
      destruct (generateSingleSpeakerAudio provider atob random f t v w0)
        as [[audioResult|err] w1]
  end.
  - apply IH.
  - intros [= <-]. now apply A.
Qed.

(** A pass of the loop over a list with a unit that has text issues a
    request. *)
Lemma synthesizeAll_requests fuel hostVoice expertVoice merged :
  fuel <> 0%nat ->
  forall st w,
    filter spoken merged <> [] ->
    (countRequests w + 1
     <= countRequests
          (snd (synthesizeAll provider atob random fuel
                              hostVoice expertVoice merged st w)))%nat.
Proof.
  intros Hfuel.
  induction merged as [|segment more IH]; intros st w Hne; [now elim Hne|].
  rewrite SynthesisFacts.synthesizeAll_cons. cbn [filter] in Hne.
  destruct (trim (text segment)) as [|c rest] eqn:T.
  { apply IH. now replace (spoken segment) with false in Hne
      by (unfold spoken; now rewrite T). }
  cbv zeta.
  match goal with
  | |- context [generateSingleSpeakerAudio _ _ _ ?f ?t ?v ?w0] =>
      destruct (ClientMore.attemptLoop_bounds provider atob random
                                              t v f 0 w0) as (_ & L & _);
      [unfold maxRetries; lia|];
      specialize (L Hfuel);
      fold (generateSingleSpeakerAudio provider atob random f t v w0) in L;
      assert (C0 : countRequests w0 = countRequests w);
      [destruct (audioBuffers st);
       [reflexivity
       | rewrite SynthesisFacts.countRequests_app; cbn; lia]|];
      destruct (generateSingleSpeakerAudio provider atob random f t v w0)
        as [[audioResult|err] w1]
  end; cbn [snd] in L.
  - match goal with
    | |- context [synthesizeAll _ _ _ _ _ _ _ ?s w1] =>
        destruct (SequencerMore.synthesizeAll_bounds
                    provider atob random fuel hostVoice expertVoice
                    more s w1) as [_ B]
    end.
    apply ClientMore.Balanced_requests in B. lia.
  - cbn [snd]. lia.
Qed.

End AnyProvider.

End PipelineMore.

(** X23. Run on a script with at least one segment, the Sequencer never
    fails with the error "No audio generated.", and it issues at least one
    request: that error is reserved for input without any text. *)
Theorem script_with_segments_reaches_the_provider
        upperNonAscii randomId provider atob random fuel
        fullText hostName expertName hostVoice expertVoice w :
  let segments :=
    Segmenter.parseScriptToSegments upperNonAscii randomId
                                    hostName expertName fullText in
  let run :=
    Synthesis.generateSequencedSpeech provider atob random fuel segments
                                      hostVoice expertVoice w in
  fuel <> 0%nat ->
  segments <> [] ->
  fst run <> Throw (JsError (lit "No audio generated."))
  /\ (countRequests w + 1 <= countRequests (snd run))%nat.
Proof.
  intros segments run Hfuel Hne.
  assert (Hu : filter spoken (Merger.mergeSegments segments) <> []).
  { unfold segments.
    rewrite (segmenter_output_is_never_skipped_aux
               upperNonAscii randomId fullText hostName expertName).
    fold segments. destruct segments as [|first rest]; [congruence|].
    pose proof (MergerMore.mergeLoop_length rest first) as L.
    cbn [Merger.mergeSegments]. intros E. rewrite E in L. cbn in L. lia. }
  unfold run. rewrite SynthesisFacts.generateSequencedSpeech_unfold.
  pose proof (PipelineMore.synthesizeAll_requests
                provider atob random fuel hostVoice expertVoice
                (Merger.mergeSegments segments) Hfuel
                (Synthesis.mkSeq [] [] 0) (w ++ [EvContextOpen]) Hu) as R.
  pose proof (PipelineMore.synthesizeAll_error
                provider atob random fuel hostVoice expertVoice
                (Merger.mergeSegments segments)
                (Synthesis.mkSeq [] [] 0) (w ++ [EvContextOpen])) as Er.
  destruct (Synthesis.synthesizeAll _ _ _ _ _ _ _ _ _) as [[st|e] w1] eqn:E.
  - cbn [snd] in R.
    assert (C : (countRequests w + 1
                 <= countRequests (w1 ++ [EvContextClose]))%nat).
    { rewrite !SynthesisFacts.countRequests_app in *. cbn in *. lia. }
    apply SynthesisFacts.synthesizeAll_ok in E.
    destruct E as (segs & bufs & _ & Eb & Eu & Hst).
    cbn [Synthesis.audioBuffers app] in Eb.
    destruct (Synthesis.audioBuffers st) as [|b bs].
    + exfalso. subst bufs. destruct segs; [|contradiction].
      apply Hu. destruct (filter spoken _); [reflexivity | discriminate].
    + split; [discriminate | exact C].
  - cbn [snd fst] in *. split.
    + intros [= ->]. now apply (Er _ eq_refl).
    + rewrite !SynthesisFacts.countRequests_app in *. cbn in *. lia.
Qed.

Lemma script_with_segments_reaches_the_provider_witness :
  fst (Synthesis.generateSequencedSpeech
         textProvider plainAtob noJitter 11 demoSegments
         (lit "Kore") (lit "Puck") [])
  <> Throw (JsError (lit "No audio generated."))
  /\ (1 <= countRequests
             (snd (Synthesis.generateSequencedSpeech
                     textProvider plainAtob noJitter 11 demoSegments
                     (lit "Kore") (lit "Puck") [])))%nat.
Proof.
  apply (script_with_segments_reaches_the_provider
           noFolding constantId textProvider plainAtob noJitter 11
           demoScript (lit "Host") (lit "Expert") (lit "Kore") (lit "Puck")
           []).
  - discriminate.
  - vm_compute. discriminate.
Defined.

(** X24. The WAV file made from a successful run is well formed: it is 44
    bytes longer than two bytes for each frame of the returned audio, its
    data-length field holds that number of sample bytes (modulo 2^32), its
    sample-rate field holds 24000, and the bytes after the header are the
    returned sample bytes. *)
Theorem successful_run_packages_as_wav
        provider atob random fuel rawSegments hostVoice expertVoice
        w audio segs w' :
  Synthesis.generateSequencedSpeech provider atob random fuel rawSegments
                                    hostVoice expertVoice w
  = (Ok (audio, segs), w') ->
  let blob := Wav.createWavBlob (Synthesis.rawData audio) 24000 in
  let sampleBytes := (2 * Pcm.frames (Synthesis.buffer audio))%nat in
  length blob = (44 + sampleBytes)%nat
  /\ Wav.getUint32 40 blob = Some (Z.of_nat sampleBytes mod 4294967296)%Z
  /\ Wav.getUint32 24 blob = Some 24000%Z
  /\ skipn 44 blob = Synthesis.rawData audio.
Proof.
  intros H blob sampleBytes.
  destruct (RunMore.run_ok provider atob random fuel rawSegments
                           hostVoice expertVoice w audio segs w' H)
    as (bufs & _ & _ & _ & Eb & Er).
  assert (L : length (Synthesis.rawData audio) = sampleBytes).
  { unfold sampleBytes. rewrite Er, Eb, SequencerMore.int16Bytes_length.
    unfold Pcm.encode, Pcm.frames. now rewrite length_map. }
  destruct (wav_header_fields_aux (Synthesis.rawData audio) 24000)
    as (_ & _ & _ & _ & _ & _ & _ & R & _ & _ & _ & _ & D).
  fold blob in R, D. rewrite L in D.
  unfold blob at 1 4. rewrite WavMore.createWavBlob_layout.
  repeat split; trivial. rewrite <- L. reflexivity.
Qed.

Lemma successful_run_packages_as_wav_witness :
  exists audio segs w',
    Synthesis.generateSequencedSpeech
      steadyProvider plainAtob noJitter 11 demoSegments
      (lit "Kore") (lit "Puck") []
    = (Ok (audio, segs), w')
    /\ length (Wav.createWavBlob (Synthesis.rawData audio) 24000)
       = (44 + 2 * Pcm.frames (Synthesis.buffer audio))%nat.
Proof.
  destruct (Synthesis.generateSequencedSpeech
              steadyProvider plainAtob noJitter 11 demoSegments
              (lit "Kore") (lit "Puck") []) as [[[audio segs]|e] w'] eqn:E.
  - exists audio, segs, w'. split; [reflexivity|].
    exact (proj1 (successful_run_packages_as_wav
                    steadyProvider plainAtob noJitter 11 demoSegments
                    (lit "Kore") (lit "Puck") [] audio segs w' E)).
  - vm_compute in E. discriminate.
Defined.

(* ================================================================= *)
(** ** Further properties: the earlier variant and the flag emoji *)

Module LegacyMore.
Import Legacy.

Section Invariants.

Variable upperNonAscii : N -> N.
Variable randomId : nat -> str.

Lemma Qmax_two x : 2 <= Qmax 2 x.
Proof.
  unfold Qmax. destruct (Qle_bool 2 x) eqn:E.
  - now apply Qle_bool_iff.
  - apply Qle_refl.
Qed.

Lemma legacy_push_timed st sp content :
  legacyTimed randomId st -> content <> [] -> trim content = content ->
  legacyTimed randomId
    (mkLState
       (segments st ++
          [ {| id := randomId (length (segments st));
               slideIndex := currentSlideIndex st;
               speaker := sp;
               text := content;
               startTime := runningTime st;
               endTime := runningTime st
                          + Qmax 2 (inject_Z (Z.of_nat (length content))
                                    / inject_Z CHARS_PER_SEC) |} ])
       (runningTime st
        + Qmax 2 (inject_Z (Z.of_nat (length content))
                  / inject_Z CHARS_PER_SEC))
       (currentSlideIndex st)).
Proof.
  intros (C & E & S0 & W) Hne Ht.
  set (duration := Qmax 2 _).
  assert (D : 2 <= duration) by apply Qmax_two.
  unfold legacyTimed. cbn [segments runningTime currentSlideIndex].
  destruct (SegmenterFacts.Chain_snoc
              {| id := randomId (length (segments st));
                 slideIndex := currentSlideIndex st;
                 speaker := sp;
                 text := content;
                 startTime := runningTime st;
                 endTime := runningTime st + duration |}
              (segments st) 0 C) as [C' E'].
  - cbn [startTime]. rewrite E. reflexivity.
  - cbn [startTime endTime]. lra.
  - split; [exact C'|]. split; [exact E'|]. split; [exact S0|].
    intros i seg Hi. apply SegmenterMore.nth_error_snoc in Hi.
    destruct Hi as [[_ Hi] | [-> ->]]; [exact (W _ _ Hi)|].
    cbn [text startTime endTime slideIndex id]. now repeat split.
Qed.

Lemma legacy_processLine_timed st line :
  legacyTimed randomId st ->
  legacyTimed randomId (processLine upperNonAscii randomId st line).
Proof.
  intros H. unfold processLine.
  destruct (trim line) as [|c trimmed]; [exact H|].
  destruct (matchLabel upperNonAscii (lit "Host") (c :: trimmed))
    as [rest|].
  - destruct (trim rest) as [|c' content] eqn:T; [exact H|].
    apply legacy_push_timed; trivial; [discriminate|].
    rewrite <- T. apply SegmenterMore.trim_idempotent.
  - destruct (matchLabel upperNonAscii (lit "Expert") (c :: trimmed))
      as [rest|]; [|exact H].
    destruct (trim rest) as [|c' content] eqn:T; [exact H|].
    apply legacy_push_timed; trivial; [discriminate|].
    rewrite <- T. apply SegmenterMore.trim_idempotent.
Qed.

Lemma legacy_processBlock_timed st block :
  legacyTimed randomId st ->
  legacyTimed randomId (processBlock upperNonAscii randomId st block).
Proof.
  intros H. unfold processBlock.
  destruct (Segmenter.isPageNumber block).
  { destruct H as (C & E & _ & W).
    unfold legacyTimed. cbn [segments runningTime currentSlideIndex].
    repeat split; trivial; [lia | apply (W _ _ H) ..]. }
  apply SegmenterFacts.fold_left_preserves; trivial.
  intros a b. apply legacy_processLine_timed.
Qed.

End Invariants.

End LegacyMore.

(** X25. The earlier Segmenter keeps the same discipline: its segments
    start at 0 and each ends where the next starts; every segment has a
    text that is not empty and has no white space at either end, a slide
    index that is not negative, as identifier the random identifier drawn
    for its position, and an end time that is its start time plus the
    larger of 2 seconds and a twelfth of a second for each code unit of
    its text, so it ends strictly after it starts. *)
Theorem legacy_segmenter_invariants
        (upperNonAscii : N -> N) (randomId : nat -> str) (fullText : str) :
  let segments :=
    Legacy.parseScriptToSegments upperNonAscii randomId fullText in
  Contiguous segments
  /\ PositiveDurations segments
  /\ forall i seg,
       nth_error segments i = Some seg ->
       text seg <> [] /\ trim (text seg) = text seg
       /\ (0 <= slideIndex seg)%Z
       /\ id seg = randomId i
       /\ endTime seg
          = startTime seg
            + Qmax 2 (inject_Z (Z.of_nat (length (text seg)))
                      / inject_Z Legacy.CHARS_PER_SEC).
Proof.
  intros segments.
  assert (T : legacyTimed randomId
                (fold_left (Legacy.processBlock upperNonAscii randomId)
                           (Segmenter.slideBlocks upperNonAscii fullText)
                           (Legacy.mkLState [] 0 0))).
  { apply SegmenterFacts.fold_left_preserves.
    - intros a b. apply LegacyMore.legacy_processBlock_timed.
    - split; [exact I|]. split; [reflexivity|].
      split; [cbn; lia|]. intros [|i] seg; discriminate. }
  destruct T as (C & _ & _ & W).
  destruct (TimelineFacts.Contiguous_of_Chain _ C) as [Hc Hp].
  unfold segments, Legacy.parseScriptToSegments.
  split; [exact Hc|]. split; [exact Hp | exact W].
Qed.

Lemma legacy_segmenter_invariants_witness :
  exists seg,
    nth_error (Legacy.parseScriptToSegments noFolding constantId demoScript) 1
    = Some seg
    /\ text seg = lit "Hi there."
    /\ trim (text seg) = text seg
    /\ id seg = constantId 1
    /\ startTime seg == 2 /\ endTime seg == 4.
Proof.
  destruct (nth_error (Legacy.parseScriptToSegments
                         noFolding constantId demoScript) 1)
    as [seg|] eqn:E; [|discriminate].
  exists seg.
  destruct (legacy_segmenter_invariants noFolding constantId demoScript)
    as (_ & _ & W).
  destruct (W 1%nat seg E) as (_ & T & _ & I & D).
  split; [reflexivity|]. split; [|split; [exact T | split; [exact I|]]].
  - vm_compute in E. now injection E as <-.
  - rewrite D. vm_compute in E. injection E as <-. now vm_compute.
Defined.

(** X26. The earlier Synchronizer looks the playback time up after
    scaling it.  On a contiguous list with positive durations whose last
    segment ends at [total]: with an actual duration [d] that is a number
    other than 0 the time looked up is [t * (total / d)], and without one
    it is [t] itself; a segment that covers the time looked up becomes
    active together with its slide; from [total] on the last index becomes
    active and the slide is left as it was; and below 0 nothing
    changes. *)
Theorem legacy_sync_looks_up_scaled_time
        (segments : list ScriptSegment) (actualDuration : option Q) (t : Q)
        (st : Synchronizer.SyncState) (lastSeg : ScriptSegment) :
  Contiguous segments -> PositiveDurations segments ->
  nth_error segments (length segments - 1) = Some lastSeg ->
  let adjusted := Legacy.adjustedTime segments actualDuration t in
  (forall d, actualDuration = Some d -> ~ d == 0 ->
             adjusted = t * (endTime lastSeg / d))
  /\ (forall d, actualDuration = Some d -> d == 0 -> adjusted = t)
  /\ (actualDuration = None -> adjusted = t)
  /\ (forall i seg,
         nth_error segments i = Some seg ->
         startTime seg <= adjusted -> adjusted < endTime seg ->
         Legacy.updateSync segments actualDuration t st
         = Synchronizer.mkSync (Z.of_nat i) (slideIndex seg))
  /\ (endTime lastSeg <= adjusted ->
      Legacy.updateSync segments actualDuration t st
      = Synchronizer.mkSync (Z.of_nat (length segments) - 1)
                            (Synchronizer.activeSlideIndex st))
  /\ (adjusted < 0 ->
      Legacy.updateSync segments actualDuration t st = st).
Proof.
  intros Hc Hp Hl adjusted.
  pose proof (TimelineFacts.Chain_of_Contiguous _ Hc Hp) as H.
  assert (Et : Legacy.totalEstimated segments = endTime lastSeg).
  { unfold Legacy.totalEstimated. now rewrite Hl. }
  assert (Pt : 0 < endTime lastSeg).
  { pose proof (TimelineFacts.Chain_start_ge _ _ _ _ H Hl).
    pose proof (Hp _ _ Hl). lra. }
  split; [|split; [|split; [|split; [|split]]]].
  - intros d -> Hd. unfold adjusted, Legacy.adjustedTime. rewrite Et.
    replace (Qeq_bool d 0) with false.
    + destruct (PcmFacts.Qlt_bool_spec 0 (endTime lastSeg))
        as [[_ ->] | [C _]]; [reflexivity | lra].
    + symmetry. destruct (Qeq_bool d 0) eqn:E; trivial.
      apply Qeq_bool_iff in E. contradiction.
  - intros d -> Hd. unfold adjusted, Legacy.adjustedTime.
    apply Qeq_bool_iff in Hd. now rewrite Hd.
  - intros ->. reflexivity.
  - intros i seg Hi A B.
    unfold Legacy.updateSync, Synchronizer.findIndex. fold adjusted.
    rewrite (SynchronizerFacts.findIndexFrom_inside _ _ _ 0%Z _ _ H Hi A B).
    cbn [Z.add].
    replace (Z.of_nat i =? -1)%Z with false
      by (symmetry; apply Z.eqb_neq; lia).
    cbn [negb]. now rewrite Nat2Z.id, Hi.
  - intros A.
    unfold Legacy.updateSync, Synchronizer.findIndex. fold adjusted.
    rewrite (SynchronizerFacts.findIndexFrom_after _ _ _ 0%Z _ H Hl A).
    cbn [Z.eqb negb]. rewrite Et.
    apply Qle_bool_iff in A. now rewrite A.
  - intros A.
    unfold Legacy.updateSync, Synchronizer.findIndex. fold adjusted.
    rewrite (SynchronizerFacts.findIndexFrom_before _ 0 _ 0%Z H A).
    cbn [Z.eqb negb]. rewrite Et.
    destruct (Qle_bool (endTime lastSeg) adjusted) eqn:E; [|reflexivity].
    apply Qle_bool_iff in E. lra.
Qed.

Lemma legacy_sync_looks_up_scaled_time_witness :
  Legacy.adjustedTime demoSegments (Some 12) 5 == 5 / 2
  /\ Legacy.updateSync demoSegments (Some 12) 5 (Synchronizer.mkSync (-1) 0)
     = Synchronizer.mkSync 1 0
  /\ Legacy.updateSync demoSegments (Some 12) 12 (Synchronizer.mkSync 2 0)
     = Synchronizer.mkSync 3 0.
Proof.
  assert (C : Chain 0 demoSegments)
    by (vm_compute; repeat split; reflexivity).
  destruct (TimelineFacts.Contiguous_of_Chain _ C) as [Hc Hp].
  destruct (nth_error demoSegments (length demoSegments - 1))
    as [lastSeg|] eqn:L; [|discriminate].
  destruct (legacy_sync_looks_up_scaled_time
              demoSegments (Some 12) 5 (Synchronizer.mkSync (-1) 0) lastSeg
              Hc Hp L) as (S & _ & _ & A & _).
  destruct (legacy_sync_looks_up_scaled_time
              demoSegments (Some 12) 12 (Synchronizer.mkSync 2 0) lastSeg
              Hc Hp L) as (_ & _ & _ & _ & B & _).
  vm_compute in L. injection L as <-.
  split; [|split].
  - rewrite (S 12 eq_refl); [reflexivity | discriminate].
  - refine (A 1%nat (mkSegment _ _ _ _ _ _) eq_refl _ _); vm_compute;
      [discriminate | reflexivity].
  - apply B. vm_compute. discriminate.
Defined.

Module FlagsMore.
Import Flags.

Lemma encodeCodePoint_letter c :
  isUpperLetter c = true ->
  encodeCodePoint (127397 + c) = Some (regionalIndicator c).
Proof.
  unfold isUpperLetter, encodeCodePoint, regionalIndicator. intros H.
  apply andb_true_iff in H. destruct H as [L U].
  apply N.leb_le in L, U.
  replace (1114111 <? 127397 + c)%N with false
    by (symmetry; apply N.ltb_ge; lia).
  replace (127397 + c <? 65536)%N with false
    by (symmetry; apply N.ltb_ge; lia).
  replace (127397 + c - 65536)%N with (1024 * 60 + (421 + c))%N by lia.
  rewrite <- (N.div_unique (1024 * 60 + (421 + c)) 1024 60 (421 + c))
    by lia.
  rewrite <- (N.mod_unique (1024 * 60 + (421 + c)) 1024 60 (421 + c))
    by lia.
  do 3 f_equal. lia.
Qed.

Lemma fromCodePoint_letters s :
  forallb isUpperLetter s = true ->
  fromCodePoint (map (fun char => (127397 + char)%N) s)
  = Some (flat_map regionalIndicator s).
Proof.
  induction s as [|c s IH]; [reflexivity|]. cbn [forallb]. intros H.
  apply andb_true_iff in H. destruct H as [Hc Hs].
  cbn [map fromCodePoint flat_map].
  now rewrite (encodeCodePoint_letter c Hc), (IH Hs).
Qed.

End FlagsMore.

(** X27. [getFlagEmoji] never throws and always returns well-formed text:
    the globe for a code that is not two code units long or whose
    upper-case form is not made of the letters A to Z, and otherwise one
    regional indicator symbol, as a surrogate pair, for each letter of the
    upper-case form. *)
Theorem flag_emoji_is_well_formed (toUpperCase : str -> str) (code : str) :
  (length code <> 2%nat
   \/ Flags.allUpperLetters (toUpperCase code) = false ->
   Flags.getFlagEmoji toUpperCase code = Some Flags.globe)
  /\ (length code = 2%nat ->
      Flags.allUpperLetters (toUpperCase code) = true ->
      Flags.getFlagEmoji toUpperCase code
      = Some (flat_map regionalIndicator (toUpperCase code))).
Proof.
  unfold Flags.getFlagEmoji. split.
  - intros [L | U].
    + destruct code as [|a [|b [|c code]]]; try reflexivity.
      now elim L.
    + rewrite U. cbn [negb]. now rewrite !orb_true_r.
  - intros L U. rewrite U.
    destruct code as [|a [|b [|c code]]]; try discriminate.
    cbn [length Nat.eqb negb orb].
    apply FlagsMore.fromCodePoint_letters.
    unfold Flags.allUpperLetters in U.
    now destruct (toUpperCase [a; b]).
Qed.

Lemma flag_emoji_is_well_formed_witness :
  Flags.getFlagEmoji asciiToUpperCase (lit "jp")
  = Some [55356; 56815; 55356; 56821]%N
  /\ Flags.getFlagEmoji asciiToUpperCase (lit "cmn") = Some Flags.globe.
Proof.
  destruct (flag_emoji_is_well_formed asciiToUpperCase (lit "jp")) as [_ A].
  destruct (flag_emoji_is_well_formed asciiToUpperCase (lit "cmn")) as [B _].
  split.
  - apply A; reflexivity.
  - apply B. left. discriminate.
Defined.
